(** * notedown: the Markdown lexer and HTML renderer of [src/parser/main.cpp]

    A shallow embedding of [class Lexer] and [class Parser] and the
    properties of the rendering function [Parser::parse].  The first
    iteration of the program, [src/main.cpp], is embedded in [Module V1].

    Conventions of the embedding.
    - A [std::string] is a list of 8-bit characters ([ascii]); it may hold
      any byte, the NUL byte included.
    - The lexer keeps its cursor in the three fields of the C++ class; the
      member functions become computations of a small state monad over it.
    - Every [while] loop of the lexer is a [Fixpoint] on an iteration bound;
      reaching the bound is the outcome [OutOfFuel].  The theorems show that
      a bound above the input length is never reached.
    - [std::string::substr] throws [std::out_of_range]; that is the outcome
      [OutOfRange].  The theorems show it is never raised.
    - [size_t pos] is a natural number: the lexer advances only from a
      character of the text, so [pos] stays within [text.length()] (every
      state it reaches is a [cursor], see below) and never wraps.  The
      [size_t] arithmetic of [tokenToHtml], which does wrap, is written
      out.  The [int] counters [level] and [bracket_count] are integers:
      [level] stays within 1..6 and [bracket_count] within the number of
      characters read plus one. *)

From Stdlib Require Import Ascii String.
From Stdlib Require Import List ZArith Lia Bool Arith.
Import ListNotations.

Local Open Scope list_scope.
Local Open Scope char_scope.

(** ** Characters and strings *)

Definition str : Type := list ascii.

(** String literals of the source, as character lists. *)
Definition lit (s : string) : str := list_ascii_of_string s.

Definition NUL : ascii := "000".
Definition LF : ascii := "010".
Definition DQUOTE : ascii := "034".
Definition BACKSLASH : ascii := "\".

(** [isspace] of <ctype.h> in the "C" locale, the one in force since the
    program never calls [setlocale]: space, \t, \n, \v, \f and \r, and no
    byte above 127. *)
Definition isspace (c : ascii) : bool :=
  let n := nat_of_ascii c in
  (n =? 32)%nat || ((9 <=? n)%nat && (n <=? 13)%nat).

(** ** Outcomes *)

Inductive result (A : Type) : Type :=
| Ok (a : A)
| OutOfRange
| OutOfFuel.

Arguments Ok {A} a.
Arguments OutOfRange {A}.
Arguments OutOfFuel {A}.

Definition rbind {A B : Type} (m : result A) (k : A -> result B) : result B :=
  match m with
  | Ok a => k a
  | OutOfRange => OutOfRange
  | OutOfFuel => OutOfFuel
  end.

Notation "x <~ m ;; k" := (rbind m (fun x => k))
  (at level 61, m at next level, right associativity).

(** ** Types *)

Inductive TokenType : Type :=
| TEXT | H1 | H2 | H3 | H4 | H5 | H6 | BOLD | ITALIC | LINK | IMAGE | LIST.

Definition TokenType_eqb (a b : TokenType) : bool :=
  match a, b with
  | TEXT, TEXT | H1, H1 | H2, H2 | H3, H3 | H4, H4 | H5, H5 | H6, H6
  | BOLD, BOLD | ITALIC, ITALIC | LINK, LINK | IMAGE, IMAGE | LIST, LIST => true
  | _, _ => false
  end.

Record Token : Type := mkToken {
  getType : TokenType;
  getValue : str;
  isEOF : bool
}.

(** [Token(type, value)]: the constructor clears [is_eof]. *)
Definition Tok (type : TokenType) (value : str) : Token :=
  {| getType := type; getValue := value; isEOF := false |}.

Definition createEOF : Token :=
  {| getType := TEXT; getValue := []; isEOF := true |}.

(** ** Lexer *)

Record Lexer : Type := mkLexer {
  text : str;
  pos : nat;
  current_char : ascii
}.

(** [text[i]] for [i < text.length()]. *)
Definition char_at (t : str) (i : nat) : ascii := nth i t NUL.

(** The constructor [Lexer(const std::string&)]. *)
Definition Lexer_new (t : str) : Lexer :=
  {| text := t;
     pos := 0;
     current_char := match t with [] => NUL | _ => char_at t 0 end |}.

(** The lexer monad: a computation reads and moves the cursor. *)
Definition LexM (A : Type) : Type := Lexer -> result (A * Lexer).

Definition ret {A : Type} (a : A) : LexM A := fun l => Ok (a, l).

Definition bind {A B : Type} (m : LexM A) (k : A -> LexM B) : LexM B :=
  fun l =>
    match m l with
    | Ok (a, l') => k a l'
    | OutOfRange => OutOfRange
    | OutOfFuel => OutOfFuel
    end.

Definition out_of_fuel {A : Type} : LexM A := fun _ => OutOfFuel.

Notation "x <- m ;; k" := (bind m (fun x => k))
  (at level 61, m at next level, right associativity).
Notation "m ;;; k" := (bind m (fun _ => k))
  (at level 61, right associativity).

Definition cur : LexM ascii := fun l => Ok (current_char l, l).

Definition advance_state (l : Lexer) : Lexer :=
  let pos' := S (pos l) in
  if (length (text l) <=? pos')%nat
  then {| text := text l; pos := pos'; current_char := NUL |}
  else {| text := text l; pos := pos'; current_char := char_at (text l) pos' |}.

Definition advance : LexM unit := fun l => Ok (tt, advance_state l).

Definition peek_state (l : Lexer) : ascii :=
  let peek_pos := (pos l + 1)%nat in
  if (length (text l) <=? peek_pos)%nat then NUL else char_at (text l) peek_pos.

Definition peek : LexM ascii := fun l => Ok (peek_state l, l).

(** [if (cond) advance();] *)
Definition advance_if (cond : bool) : LexM unit :=
  if cond then advance else ret tt.

Definition neqb (a b : ascii) : bool := negb (Ascii.eqb a b).

Definition is_markdown_char (c : ascii) : bool :=
  (c =? "#") || (c =? "*") || (c =? "[") || (c =? "!") || (c =? "-").

(** Trimming of the text run (lines 292-294):
    [while (!s.empty() && s.back() == '\n') s.pop_back();]
    The loop works from the back of the string, so it is a recursion on the
    reversed string. *)
Fixpoint pop_back_newlines (reversed : str) : str :=
  match reversed with
  | c :: before => if c =? LF then pop_back_newlines before else reversed
  | [] => []
  end.

Definition trim_trailing_newlines (s : str) : str :=
  rev (pop_back_newlines (rev s)).

Section Lexing.

(** The iteration bound given to every loop. *)
Variable fuel : nat.

(** The first loop of [collect_until]. *)
Fixpoint collect_until_loop (n : nat) (delimiter : ascii) (result : str)
  : LexM str :=
  match n with
  | O => out_of_fuel
  | S n' =>
      c <- cur ;;
      if neqb c NUL && neqb c delimiter && neqb c LF
      then advance ;;; collect_until_loop n' delimiter (result ++ [c])
      else ret result
  end.

Definition collect_until (delimiter : ascii) (include_delimiter : bool)
  : LexM str :=
  result <- collect_until_loop fuel delimiter [] ;;
  c <- cur ;;
  if include_delimiter && (c =? delimiter)
  then advance ;;; ret (result ++ [c])
  else ret result.

(** [while (current_char == '#' && level < 6) { level++; advance(); }] *)
Fixpoint heading_level_loop (n : nat) (level : Z) : LexM Z :=
  match n with
  | O => out_of_fuel
  | S n' =>
      c <- cur ;;
      if (c =? "#") && (level <? 6)%Z
      then advance ;;; heading_level_loop n' (level + 1)%Z
      else ret level
  end.

(** [while (isspace(current_char) && current_char != '\n') advance();] *)
Fixpoint skip_spaces_loop (n : nat) : LexM unit :=
  match n with
  | O => out_of_fuel
  | S n' =>
      c <- cur ;;
      if isspace c && neqb c LF
      then advance ;;; skip_spaces_loop n'
      else ret tt
  end.

(** [std::string(level, '#')] *)
Definition hashes (level : Z) : str := repeat "#" (Z.to_nat level).

Definition handle_heading : LexM Token :=
  advance ;;;
  level <- heading_level_loop fuel 1%Z ;;
  c <- cur ;;
  if negb (isspace c) then
    rest <- collect_until LF false ;;
    c <- cur ;;
    advance_if (c =? LF) ;;;
    ret (Tok TEXT (hashes level ++ rest))
  else
    skip_spaces_loop fuel ;;;
    content <- collect_until LF false ;;
    c <- cur ;;
    advance_if (c =? LF) ;;;
    ret (match level with
         | 1%Z => Tok H1 content
         | 2%Z => Tok H2 content
         | 3%Z => Tok H3 content
         | 4%Z => Tok H4 content
         | 5%Z => Tok H5 content
         | 6%Z => Tok H6 content
         | _ => Tok TEXT (hashes level ++ content)
         end).

(** The loop of the italic case.  [inl token] is a [return] from inside
    the loop, [inr content] is the loop running to its end. *)
Fixpoint italic_loop (n : nat) (content : str) : LexM (Token + str) :=
  match n with
  | O => out_of_fuel
  | S n' =>
      c <- cur ;;
      if neqb c NUL && neqb c LF then
        if c =? "*" then
          advance ;;; ret (inl (Tok ITALIC content))
        else
          advance ;;; italic_loop n' (content ++ [c])
      else ret (inr content)
  end.

(** The local [original] of the source is never read and is left out. *)
Definition handle_emphasis : LexM Token :=
  advance ;;;
  c <- cur ;;
  if c =? "*" then
    (* Bold case *)
    advance ;;;
    content <- collect_until "*" false ;;
    c <- cur ;;
    p <- peek ;;
    if (c =? "*") && (p =? "*") then
      advance ;;; advance ;;; ret (Tok BOLD content)
    else
      ret (Tok TEXT (lit "**" ++ content ++ (if c =? "*" then lit "*" else [])))
  else
    (* Italic case *)
    r <- italic_loop fuel [] ;;
    match r with
    | inl token => ret token
    | inr content => ret (Tok TEXT (lit "*" ++ content))
    end.

(** The loop of [handle_link]; it yields [text] and [bracket_count] as
    they are when the loop is left, by [break] or by its condition. *)
Fixpoint link_text_loop (n : nat) (text : str) (bracket_count : Z)
  : LexM (str * Z) :=
  match n with
  | O => out_of_fuel
  | S n' =>
      c <- cur ;;
      if neqb c NUL then
        p <- peek ;;
        if (c =? BACKSLASH) && (p =? "[") then
          advance ;;; advance ;;;
          link_text_loop n' (text ++ ["["]) bracket_count
        else
          let bracket_count :=
            if c =? "[" then (bracket_count + 1)%Z
            else if c =? "]" then (bracket_count - 1)%Z
            else bracket_count in
          if (c =? "]") && (bracket_count =? 0)%Z then
            advance ;;; ret (text, bracket_count)
          else
            advance ;;; link_text_loop n' (text ++ [c]) bracket_count
      else ret (text, bracket_count)
  end.

Definition handle_link : LexM Token :=
  advance ;;;
  r <- link_text_loop fuel [] 1%Z ;;
  let '(text, bracket_count) := r in
  if (bracket_count >? 0)%Z then
    ret (Tok TEXT (lit "[" ++ text))
  else
    c <- cur ;;
    if neqb c "(" then
      ret (Tok TEXT (lit "[" ++ text ++ lit "]"))
    else
      advance ;;;
      url <- collect_until ")" false ;;
      c <- cur ;;
      if neqb c ")" then
        ret (Tok TEXT (lit "[" ++ text ++ lit "](" ++ url))
      else
        advance ;;; ret (Tok LINK (text ++ lit "|" ++ url)).

Definition handle_image : LexM Token :=
  advance ;;;
  c <- cur ;;
  if neqb c "[" then
    ret (Tok TEXT (lit "!"))
  else
    linkToken <- handle_link ;;
    if TokenType_eqb (getType linkToken) LINK then
      ret (Tok IMAGE (getValue linkToken))
    else
      ret (Tok TEXT (lit "!" ++ getValue linkToken)).

Definition handle_list : LexM Token :=
  advance ;;;
  c <- cur ;;
  if negb (isspace c) then
    rest <- collect_until LF false ;;
    c <- cur ;;
    advance_if (c =? LF) ;;;
    ret (Tok TEXT (lit "-" ++ rest))
  else
    advance ;;;
    content <- collect_until LF false ;;
    c <- cur ;;
    advance_if (c =? LF) ;;;
    ret (Tok LIST content).

(** The loop that skips newlines (lines 253-258).  [Some token] is the
    [return] from inside the loop, [None] is the loop running to its end. *)
Fixpoint skip_newlines_loop (n : nat) : LexM (option Token) :=
  match n with
  | O => out_of_fuel
  | S n' =>
      c <- cur ;;
      if c =? LF then
        advance ;;;
        c <- cur ;;
        if c =? NUL then ret (Some createEOF) else skip_newlines_loop n'
      else ret None
  end.

(** The loop of the plain text run (lines 281-289). *)
Fixpoint text_loop (n : nat) (text_content : str) : LexM str :=
  match n with
  | O => out_of_fuel
  | S n' =>
      c <- cur ;;
      if neqb c NUL && negb (is_markdown_char c) then
        p <- peek ;;
        if (c =? LF) && (p =? LF) then ret text_content
        else advance ;;; text_loop n' (text_content ++ [c])
      else ret text_content
  end.

Definition get_next_token : LexM Token :=
  c <- cur ;;
  if c =? NUL then ret createEOF else
  r <- skip_newlines_loop fuel ;;
  match r with
  | Some eof => ret eof
  | None =>
      c <- cur ;;
      if c =? "#" then handle_heading
      else if c =? "*" then handle_emphasis
      else if c =? "[" then handle_link
      else if c =? "!" then handle_image
      else if c =? "-" then handle_list
      else
        text_content <- text_loop fuel [] ;;
        ret (Tok TEXT (trim_trailing_newlines text_content))
  end.

(** The loop of [Parser::parse] (lines 314-317), which is also the loop
    of the lexer tests. *)
Fixpoint collect_tokens_loop (n : nat) (token : Token) (tokens : list Token)
  : LexM (list Token) :=
  match n with
  | O => out_of_fuel
  | S n' =>
      if negb (isEOF token) then
        token' <- get_next_token ;;
        collect_tokens_loop n' token' (tokens ++ [token])
      else ret tokens
  end.

(** Lines 310-317 of [Parser::parse]: the token vector of an input. *)
Definition tokenize (markdown : str) : result (list Token) :=
  match (token <- get_next_token ;; collect_tokens_loop fuel token [])
          (Lexer_new markdown) with
  | Ok (tokens, _) => Ok tokens
  | OutOfRange => OutOfRange
  | OutOfFuel => OutOfFuel
  end.

End Lexing.

(** ** Parser *)

Definition isInlineElement (type : TokenType) : bool :=
  match type with
  | BOLD | ITALIC | LINK | IMAGE => true
  | _ => false
  end.

Definition isBlockElement (type : TokenType) : bool :=
  match type with
  | H1 | H2 | H3 | H4 | H5 | H6 | LIST => true
  | _ => false
  end.

Definition escape_char (c : ascii) : str :=
  if c =? "<" then lit "&lt;"
  else if c =? ">" then lit "&gt;"
  else if c =? "&" then lit "&amp;"
  else if c =? DQUOTE then lit "&quot;"
  else [c].

Fixpoint escapeHtml (text : str) : str :=
  match text with
  | [] => []
  | c :: rest => escape_char c ++ escapeHtml rest
  end.

(** [size_t] arithmetic: 64 bits, unsigned, wrapping. *)
Definition size_max : Z := (2 ^ 64)%Z.
Definition npos : Z := (size_max - 1)%Z.
Definition size_add (a b : Z) : Z := ((a + b) mod size_max)%Z.

(** [s.find(c)]: the index of the first [c], or [npos]. *)
Fixpoint find_from (c : ascii) (s : str) (i : Z) : Z :=
  match s with
  | [] => npos
  | x :: rest => if x =? c then i else find_from c rest (i + 1)%Z
  end.

Definition find (s : str) (c : ascii) : Z := find_from c s 0%Z.

(** [s.substr(pos, count)]: throws when [pos > s.size()]; otherwise the
    [min(count, s.size() - pos)] characters from [pos]. *)
Definition substr (s : str) (pos count : Z) : result str :=
  let size := Z.of_nat (length s) in
  if (size <? pos)%Z then OutOfRange
  else
    let rlen := Z.min count (size - pos) in
    Ok (firstn (Z.to_nat rlen) (skipn (Z.to_nat pos) s)).

Definition tokenToHtml (token : Token) : result str :=
  let content := escapeHtml (getValue token) in
  match getType token with
  | TEXT => Ok content
  | H1 => Ok (lit "<h1>" ++ content ++ lit "</h1>" ++ [LF])
  | H2 => Ok (lit "<h2>" ++ content ++ lit "</h2>" ++ [LF])
  | H3 => Ok (lit "<h3>" ++ content ++ lit "</h3>" ++ [LF])
  | H4 => Ok (lit "<h4>" ++ content ++ lit "</h4>" ++ [LF])
  | H5 => Ok (lit "<h5>" ++ content ++ lit "</h5>" ++ [LF])
  | H6 => Ok (lit "<h6>" ++ content ++ lit "</h6>" ++ [LF])
  | BOLD => Ok (lit "<strong>" ++ content ++ lit "</strong>")
  | ITALIC => Ok (lit "<em>" ++ content ++ lit "</em>")
  | LIST => Ok (lit "<li>" ++ content ++ lit "</li>" ++ [LF])
  | LINK =>
      let sep := find content "|" in
      text <~ substr content 0 sep ;;
      url <~ substr content (size_add sep 1) npos ;;
      Ok (lit "<a href=" ++ [DQUOTE] ++ url ++ [DQUOTE] ++ lit ">" ++ text
          ++ lit "</a>")
  | IMAGE =>
      let sep := find content "|" in
      alt <~ substr content 0 sep ;;
      src <~ substr content (size_add sep 1) npos ;;
      Ok (lit "<img src=" ++ [DQUOTE] ++ src ++ [DQUOTE] ++ lit " alt="
          ++ [DQUOTE] ++ alt ++ [DQUOTE] ++ lit ">")
  end.

(** The local variables of [tokensToHtml]. *)
Record RenderState : Type := mkRender {
  output : str;
  inList : bool;
  inParagraph : bool
}.

Definition emit (s : str) (r : RenderState) : RenderState :=
  {| output := output r ++ s; inList := inList r; inParagraph := inParagraph r |}.

Definition set_inList (b : bool) (r : RenderState) : RenderState :=
  {| output := output r; inList := b; inParagraph := inParagraph r |}.

Definition set_inParagraph (b : bool) (r : RenderState) : RenderState :=
  {| output := output r; inList := inList r; inParagraph := b |}.

Definition close_p : str := lit "</p>" ++ [LF].
Definition open_ul : str := lit "<ul>" ++ [LF].
Definition close_ul : str := lit "</ul>" ++ [LF].

(** Lines 342-355: list wrapping. *)
Definition wrap_list (type : TokenType) (r : RenderState) : RenderState :=
  if TokenType_eqb type LIST then
    let r := if inParagraph r then set_inParagraph false (emit close_p r) else r in
    if negb (inList r) then set_inList true (emit open_ul r) else r
  else if inList r then set_inList false (emit close_ul r)
  else r.

(** Lines 357-364: paragraph wrapping. *)
Definition wrap_paragraph (type : TokenType) (r : RenderState) : RenderState :=
  if (TokenType_eqb type TEXT || isInlineElement type) && negb (inParagraph r)
  then set_inParagraph true (emit (lit "<p>") r)
  else if inParagraph r && isBlockElement type
  then set_inParagraph false (emit close_p r)
  else r.

(** Lines 369-373: [last] is [i == tokens.size()-1], [next] is
    [tokens[i+1]] when there is one. *)
Definition close_paragraph (next : list Token) (r : RenderState) : RenderState :=
  if inParagraph r &&
     match next with
     | [] => true
     | token :: _ => isBlockElement (getType token)
     end
  then set_inParagraph false (emit close_p r)
  else r.

(** The [for] loop of [tokensToHtml], over the tokens from index [i] on. *)
Fixpoint tokensToHtml_loop (tokens : list Token) (r : RenderState)
  : result RenderState :=
  match tokens with
  | [] => Ok r
  | token :: next =>
      let type := getType token in
      let r := wrap_list type r in
      let r := wrap_paragraph type r in
      html <~ tokenToHtml token ;;
      let r := emit html r in
      let r := close_paragraph next r in
      tokensToHtml_loop next r
  end.

Definition tokensToHtml (tokens : list Token) : result str :=
  r <~ tokensToHtml_loop tokens
        {| output := []; inList := false; inParagraph := false |} ;;
  let r := if inList r then emit close_ul r else r in
  let r := if inParagraph r then emit close_p r else r in
  Ok (output r).

(** [Parser::parse] with the iteration bound [fuel]. *)
Definition parse_with (fuel : nat) (markdown : str) : result str :=
  tokens <~ tokenize fuel markdown ;;
  tokensToHtml tokens.

(** [Parser::parse]: the bound is one more than the length of the input. *)
Definition parse (markdown : str) : result str :=
  parse_with (S (length markdown)) markdown.

(** The token vector built by [Parser::parse]. *)
Definition tokens_of (markdown : str) : result (list Token) :=
  tokenize (S (length markdown)) markdown.

(** ** The lexer as a function of the unread input

    The same functions, written on the part of the text that the cursor has
    not passed.  They are total by structural recursion; the refinement
    lemmas below show that the lexer above computes them whenever its bound
    exceeds the length of the unread input. *)

Definition head (s : str) : ascii := hd NUL s.

Fixpoint scan_until (delimiter : ascii) (s : str) : str * str :=
  match s with
  | [] => ([], [])
  | c :: s' =>
      if neqb c NUL && neqb c delimiter && neqb c LF
      then (c :: fst (scan_until delimiter s'), snd (scan_until delimiter s'))
      else ([], s)
  end.

Definition drop_newline (s : str) : str :=
  if head s =? LF then tl s else s.

Fixpoint scan_hashes (level : Z) (s : str) : Z * str :=
  match s with
  | [] => (level, [])
  | c :: s' =>
      if (c =? "#") && (level <? 6)%Z
      then scan_hashes (level + 1)%Z s'
      else (level, s)
  end.

Fixpoint scan_spaces (s : str) : str :=
  match s with
  | [] => []
  | c :: s' => if isspace c && neqb c LF then scan_spaces s' else s
  end.

Definition heading_token (level : Z) (content : str) : Token :=
  match level with
  | 1%Z => Tok H1 content
  | 2%Z => Tok H2 content
  | 3%Z => Tok H3 content
  | 4%Z => Tok H4 content
  | 5%Z => Tok H5 content
  | 6%Z => Tok H6 content
  | _ => Tok TEXT (hashes level ++ content)
  end.

(** [handle_heading] on the input that starts with the [#]. *)
Definition lex_heading (s : str) : Token * str :=
  let level := fst (scan_hashes 1%Z (tl s)) in
  let s1 := snd (scan_hashes 1%Z (tl s)) in
  if negb (isspace (head s1)) then
    (Tok TEXT (hashes level ++ fst (scan_until LF s1)),
     drop_newline (snd (scan_until LF s1)))
  else
    let s2 := scan_spaces s1 in
    (heading_token level (fst (scan_until LF s2)),
     drop_newline (snd (scan_until LF s2))).

Fixpoint scan_italic (content : str) (s : str) : Token * str :=
  match s with
  | [] => (Tok TEXT (lit "*" ++ content), [])
  | c :: s' =>
      if neqb c NUL && neqb c LF then
        if c =? "*" then (Tok ITALIC content, s')
        else scan_italic (content ++ [c]) s'
      else (Tok TEXT (lit "*" ++ content), s)
  end.

(** [handle_emphasis] on the input that starts with the [*]. *)
Definition lex_emphasis (s : str) : Token * str :=
  let s0 := tl s in
  if head s0 =? "*" then
    let content := fst (scan_until "*" (tl s0)) in
    let s1 := snd (scan_until "*" (tl s0)) in
    if (head s1 =? "*") && (head (tl s1) =? "*") then
      (Tok BOLD content, tl (tl s1))
    else
      (Tok TEXT (lit "**" ++ content ++ (if head s1 =? "*" then lit "*" else [])),
       s1)
  else scan_italic [] s0.

Fixpoint scan_link_text (text : str) (bracket_count : Z) (s : str)
  : (str * Z) * str :=
  match s with
  | [] => ((text, bracket_count), [])
  | c :: s' =>
      if neqb c NUL then
        if (c =? BACKSLASH) && (head s' =? "[") then
          match s' with
          | _ :: s'' => scan_link_text (text ++ ["["]) bracket_count s''
          | [] => ((text, bracket_count), [])
          end
        else
          let bracket_count :=
            if c =? "[" then (bracket_count + 1)%Z
            else if c =? "]" then (bracket_count - 1)%Z
            else bracket_count in
          if (c =? "]") && (bracket_count =? 0)%Z then
            ((text, bracket_count), s')
          else scan_link_text (text ++ [c]) bracket_count s'
      else ((text, bracket_count), s)
  end.

(** [handle_link] on the input that starts with the [[]. *)
Definition lex_link (s : str) : Token * str :=
  let r := scan_link_text [] 1%Z (tl s) in
  let text := fst (fst r) in
  let bracket_count := snd (fst r) in
  let s1 := snd r in
  if (bracket_count >? 0)%Z then (Tok TEXT (lit "[" ++ text), s1)
  else if neqb (head s1) "(" then (Tok TEXT (lit "[" ++ text ++ lit "]"), s1)
  else
    let url := fst (scan_until ")" (tl s1)) in
    let s2 := snd (scan_until ")" (tl s1)) in
    if neqb (head s2) ")" then
      (Tok TEXT (lit "[" ++ text ++ lit "](" ++ url), s2)
    else (Tok LINK (text ++ lit "|" ++ url), tl s2).

(** [handle_image] on the input that starts with the [!]. *)
Definition lex_image (s : str) : Token * str :=
  let s0 := tl s in
  if neqb (head s0) "[" then (Tok TEXT (lit "!"), s0)
  else
    let linkToken := fst (lex_link s0) in
    if TokenType_eqb (getType linkToken) LINK
    then (Tok IMAGE (getValue linkToken), snd (lex_link s0))
    else (Tok TEXT (lit "!" ++ getValue linkToken), snd (lex_link s0)).

(** [handle_list] on the input that starts with the [-]. *)
Definition lex_list (s : str) : Token * str :=
  let s0 := tl s in
  if negb (isspace (head s0)) then
    (Tok TEXT (lit "-" ++ fst (scan_until LF s0)),
     drop_newline (snd (scan_until LF s0)))
  else
    (Tok LIST (fst (scan_until LF (tl s0))),
     drop_newline (snd (scan_until LF (tl s0)))).

Fixpoint scan_newlines (s : str) : option Token * str :=
  match s with
  | [] => (None, [])
  | c :: s' =>
      if c =? LF then
        if head s' =? NUL then (Some createEOF, s') else scan_newlines s'
      else (None, s)
  end.

Fixpoint scan_text (text_content : str) (s : str) : str * str :=
  match s with
  | [] => (text_content, [])
  | c :: s' =>
      if neqb c NUL && negb (is_markdown_char c) then
        if (c =? LF) && (head s' =? LF) then (text_content, s)
        else scan_text (text_content ++ [c]) s'
      else (text_content, s)
  end.

(** The dispatch of [get_next_token], after the newlines are skipped. *)
Definition lex_dispatch (s : str) : Token * str :=
  let c := head s in
  if c =? "#" then lex_heading s
  else if c =? "*" then lex_emphasis s
  else if c =? "[" then lex_link s
  else if c =? "!" then lex_image s
  else if c =? "-" then lex_list s
  else (Tok TEXT (trim_trailing_newlines (fst (scan_text [] s))),
        snd (scan_text [] s)).

(** [get_next_token] on the unread input [s]: the token and what is left. *)
Definition next_token (s : str) : Token * str :=
  if head s =? NUL then (createEOF, s)
  else
    match fst (scan_newlines s) with
    | Some eof => (eof, snd (scan_newlines s))
    | None => lex_dispatch (snd (scan_newlines s))
    end.

(** The tokens before the end-of-input token; [n] bounds their number. *)
Fixpoint all_tokens (n : nat) (s : str) : list Token :=
  match n with
  | O => []
  | S n' =>
      if isEOF (fst (next_token s)) then []
      else fst (next_token s) :: all_tokens n' (snd (next_token s))
  end.

(** ** Predicates of the statements *)

(** [p] occurs in [s]. *)
Definition occurs_in (p s : str) : Prop := exists a b, s = a ++ p ++ b.

(** The lexer on the text [t] at position [n], with [current_char] in step
    with [pos] ([char_at] is NUL from the end of the text on). *)
Definition lexer_at (t : str) (n : nat) : Lexer :=
  {| text := t; pos := n; current_char := char_at t n |}.

(** The lexer on the text [t] that has its suffix [s] left to read. *)
Definition cursor (t s : str) : Lexer := lexer_at t (length t - length s).

Definition is_suffix (s t : str) : Prop := exists pre, t = pre ++ s.

(** The characters that [escapeHtml] rewrites. *)
Definition is_special (c : ascii) : bool :=
  (c =? "<") || (c =? ">") || (c =? "&") || (c =? DQUOTE).

(** No character of [s] is rewritten by [escapeHtml]. *)
Definition raw (s : str) : bool := forallb (fun c => negb (is_special c)) s.

(** A character of a plain text run: neither the end-of-input sentinel nor
    a marker. *)
Definition plain_char (c : ascii) : bool :=
  neqb c NUL && negb (is_markdown_char c).

(** Plain characters where every newline is followed by a character other
    than a newline: no blank line, no newline at the end. *)
Fixpoint run_body (s : str) : bool :=
  match s with
  | [] => true
  | c :: s' =>
      plain_char c
      && (if c =? LF
          then match s' with [] => false | d :: _ => neqb d LF end
          else true)
      && run_body s'
  end.

(** A plain text run: not empty, no newline at either end, no blank line,
    no marker and no NUL. *)
Definition plain_run (s : str) : bool :=
  match s with
  | [] => false
  | c :: _ => neqb c LF && run_body s
  end.

(** What may follow a plain text run: the end of the text or a blank
    line. *)
Definition blank_or_end (s : str) : Prop :=
  s = [] \/ exists s', s = LF :: LF :: s'.

(** The characters that [collect_until(delimiter)] collects. *)
Definition free_of (delimiter : ascii) (s : str) : bool :=
  forallb (fun c => neqb c NUL && neqb c delimiter && neqb c LF) s.

(** The unread input [s] begins with a character at which
    [collect_until(delimiter)] stops, or is empty. *)
Definition stops_at (delimiter : ascii) (s : str) : bool :=
  negb (neqb (head s) NUL && neqb (head s) delimiter && neqb (head s) LF).

(** In [s] no [<] stands at the end and none is followed by [d]: no piece
    of [s] begins with [<d]. *)
Fixpoint lt_never_before (d : ascii) (s : str) : bool :=
  match s with
  | [] => true
  | c :: s' =>
      (if c =? "<"
       then match s' with [] => false | x :: _ => neqb x d end
       else true)
      && lt_never_before d s'
  end.

Definition no_lt (s : str) : bool := forallb (fun c => neqb c "<") s.

(** The bracketed text [t] of a link, read at nesting depth [depth], closes
    every bracket it opens and no more: each [[] of [t] that is not escaped
    as [\[] has its []] in [t], each []] of [t] closes a [[] of [t] or one
    of the [depth] enclosing ones, and [t] has no NUL byte. *)
Fixpoint link_text_ok (depth : nat) (t : str) : bool :=
  match t with
  | [] => (depth =? 0)%nat
  | c :: t' =>
      neqb c NUL
      && if (c =? BACKSLASH) && (head t' =? "[") then
           match t' with
           | _ :: t'' => link_text_ok depth t''
           | [] => false
           end
         else if c =? "[" then link_text_ok (S depth) t'
         else if c =? "]" then
           match depth with
           | O => false
           | S depth' => link_text_ok depth' t'
           end
         else link_text_ok depth t'
  end.

(** [t] with every escaped bracket [\[] written as [[]. *)
Fixpoint unescape_brackets (t : str) : str :=
  match t with
  | [] => []
  | c :: t' =>
      if (c =? BACKSLASH) && (head t' =? "[") then
        match t' with
        | _ :: t'' => "[" :: unescape_brackets t''
        | [] => [c]
        end
      else c :: unescape_brackets t'
  end.

(** [s] has no two adjacent asterisks. *)
Fixpoint no_double_star (s : str) : bool :=
  match s with
  | [] => true
  | c :: s' => negb ((c =? "*") && (head s' =? "*")) && no_double_star s'
  end.

Definition not_bold (token : Token) : Prop := getType token <> BOLD.

(** [s] holds an escaped bracket: a backslash directly followed by [[]. *)
Fixpoint has_escaped_bracket (s : str) : bool :=
  match s with
  | [] => false
  | c :: s' => ((c =? BACKSLASH) && (head s' =? "[")) || has_escaped_bracket s'
  end.

(** The bracketed text of a link that never closes: no NUL byte, and no
    []] that brings the count of open brackets, [depth] inside the text,
    to zero.  An escaped bracket [\[] is passed and not counted. *)
Fixpoint link_text_open (depth : nat) (t : str) : bool :=
  match t with
  | [] => true
  | c :: t' =>
      neqb c NUL
      && if (c =? BACKSLASH) && (head t' =? "[") then
           match t' with
           | _ :: t'' => link_text_open depth t''
           | [] => false
           end
         else if c =? "[" then link_text_open (S depth) t'
         else if c =? "]" then
           match depth with
           | O => false
           | S depth' => link_text_open depth' t'
           end
         else link_text_open depth t'
  end.

(** The malformed constructs, one for each fallback of the handlers.
    [image] tells whether a [!] stands before the [[]. *)
Inductive Malformed : Type :=
| HeadingNoSpace (k : nat) (rest : str)
| ListNoSpace (rest : str)
| BoldUnclosed (content : str)
| ItalicUnclosed (content : str)
| LinkUnbalanced (image : bool) (t : str)
| LinkNoUrl (image : bool) (t : str)
| LinkUrlUnclosed (image : bool) (t u : str)
| BangAlone.

Definition bang (image : bool) : str := if image then lit "!" else [].

(** The source text of a malformed construct. *)
Definition source (m : Malformed) : str :=
  match m with
  | HeadingNoSpace k rest => repeat "#" (S k) ++ rest
  | ListNoSpace rest => lit "-" ++ rest
  | BoldUnclosed content => lit "**" ++ content
  | ItalicUnclosed content => lit "*" ++ content
  | LinkUnbalanced image t => bang image ++ lit "[" ++ t
  | LinkNoUrl image t => bang image ++ lit "[" ++ t ++ lit "]"
  | LinkUrlUnclosed image t u => bang image ++ lit "[" ++ t ++ lit "](" ++ u
  | BangAlone => lit "!"
  end.

(** The bracketed text of the construct, if it has one. *)
Definition bracket_text (m : Malformed) : str :=
  match m with
  | LinkUnbalanced _ t | LinkNoUrl _ t | LinkUrlUnclosed _ t _ => t
  | _ => []
  end.

(** The source text with the escaped brackets of the bracketed text
    written as [[]. *)
Definition payload (m : Malformed) : str :=
  match m with
  | LinkUnbalanced image t => bang image ++ lit "[" ++ unescape_brackets t
  | LinkNoUrl image t => bang image ++ lit "[" ++ unescape_brackets t ++ lit "]"
  | LinkUrlUnclosed image t u =>
      bang image ++ lit "[" ++ unescape_brackets t ++ lit "](" ++ u
  | _ => source m
  end.

(** The fallbacks of a heading and of a list item run to the end of the
    line and pass its line break. *)
Definition ends_line (m : Malformed) : bool :=
  match m with
  | HeadingNoSpace _ _ | ListNoSpace _ => true
  | _ => false
  end.

(** The construct [m], followed by [tail], is malformed:
    - a run of [#] that is longer than six or not followed by whitespace,
      and the rest of the line;
    - a [-] not followed by whitespace, and the rest of the line;
    - [**] and a text without [*] that runs to the end of the line;
    - [*] and a text without [*] that runs to the end of the line;
    - [[] and a text whose brackets never balance, up to the end of input;
    - a balanced [[t]] not followed by [(];
    - a balanced [[t]], [(] and a text without [)] that runs to the end of
      the line;
    - a [!] not followed by [[];
    - a [!] before one of the three malformed links. *)
Definition malformed_at (m : Malformed) (tail : str) : bool :=
  match m with
  | HeadingNoSpace k rest =>
      free_of LF rest && neqb (head rest) "#"
      && ((6 <=? k)%nat || negb (isspace (head (rest ++ tail))))
      && stops_at LF tail
  | ListNoSpace rest =>
      free_of LF rest && negb (isspace (head (rest ++ tail))) && stops_at LF tail
  | BoldUnclosed content => free_of "*" content && stops_at LF tail
  | ItalicUnclosed content => free_of "*" content && stops_at LF tail
  | LinkUnbalanced _ t => link_text_open 0 t && (head tail =? NUL)
  | LinkNoUrl _ t => link_text_ok 0 t && neqb (head tail) "("
  | LinkUrlUnclosed _ t u =>
      link_text_ok 0 t && free_of ")" u && stops_at LF tail
  | BangAlone => neqb (head tail) "["
  end.

(** What is left to read behind the fallback of [m]. *)
Definition after_fallback (m : Malformed) (tail : str) : str :=
  if ends_line m then drop_newline tail else tail.

(** The input [**content*tail] on which the bold fallback stops at a
    single [*]. *)
Definition bold_slip (s : str) : Prop :=
  exists content tail : str,
    s = lit "**" ++ content ++ lit "*" ++ tail
    /\ free_of "*" content = true
    /\ neqb (head tail) "*" = true.

(** Whitespace within a line: what the heading handler skips after the
    run of [#]. *)
Definition inline_space (c : ascii) : bool := isspace c && neqb c LF.

(** The token type of a heading of level [k]. *)
Definition heading_type (k : nat) : TokenType :=
  match k with
  | 1 => H1 | 2 => H2 | 3 => H3 | 4 => H4 | 5 => H5 | 6 => H6
  | _ => TEXT
  end.

(** The digit of a heading level in a tag name. *)
Definition level_digit (k : nat) : ascii := ascii_of_nat (48 + k).

(** [s] holds the separator [|] of the link payload. *)
Definition has_bar (s : str) : bool := existsb (Ascii.eqb "|") s.

(** The characters that would open or close a tag or end an attribute
    value. *)
Definition is_markup (c : ascii) : bool :=
  (c =? "<") || (c =? ">") || (c =? DQUOTE).

(** [p] is a prefix of [s]. *)
Fixpoint prefixb (p s : str) : bool :=
  match p, s with
  | [], _ => true
  | _ :: _, [] => false
  | x :: p', y :: s' => (x =? y) && prefixb p' s'
  end.

(** The entities that [escapeHtml] writes, without their [&]. *)
Definition entity_names : list str :=
  [lit "lt;"; lit "gt;"; lit "amp;"; lit "quot;"].

(** Every [&] of [s] begins one of the four entities. *)
Fixpoint entities_only (s : str) : bool :=
  match s with
  | [] => true
  | c :: s' =>
      (if c =? "&" then existsb (fun e => prefixb e s') entity_names else true)
      && entities_only s'
  end.

(** The tags that the renderer writes, each up to the end of its fixed
    part. *)
Definition renderer_tags : list str :=
  [lit "<p>"; lit "</p>"; lit "<ul>"; lit "</ul>"; lit "<li>"; lit "</li>";
   lit "<h1>"; lit "<h2>"; lit "<h3>"; lit "<h4>"; lit "<h5>"; lit "<h6>";
   lit "</h1>"; lit "</h2>"; lit "</h3>"; lit "</h4>"; lit "</h5>"; lit "</h6>";
   lit "<strong>"; lit "</strong>"; lit "<em>"; lit "</em>";
   lit "<a href="; lit "</a>"; lit "<img src="].

(** Every [<] of [s] begins one of the renderer's tags. *)
Fixpoint tags_only (s : str) : bool :=
  match s with
  | [] => true
  | c :: s' =>
      (if c =? "<" then existsb (fun tag => prefixb tag s) renderer_tags else true)
      && tags_only s'
  end.

(** The HTML of one list item. *)
Definition list_item_html (v : str) : str :=
  lit "<li>" ++ escapeHtml v ++ lit "</li>" ++ [LF].

(** A document of list items, one per line; [final] is what ends the last
    line. *)
Fixpoint list_lines (items : list str) (final : str) : str :=
  match items with
  | [] => []
  | [v] => lit "- " ++ v ++ final
  | v :: rest => lit "- " ++ v ++ LF :: list_lines rest final
  end.

(** ** The first iteration: [src/main.cpp]

    Its [Token] has no [is_eof] field; a token is written [Tok type value]
    here too, and the end of input is the token [Tok TEXT []].  The members
    [advance], [peek], [collect_until], [handle_emphasis], [handle_link],
    [handle_image], [handle_list] and [is_markdown_char] of its lexer are
    character for character those of the second iteration and are taken
    from above.  The [int] counter [spaces] of its [handle_heading] is an
    integer: it counts characters of the text. *)

Module V1.

(** [text_content.find_first_not_of(set)]: the index of the first character
    that is not in [set], or [npos]. *)
Fixpoint find_first_not_of_from (set s : str) (i : Z) : Z :=
  match s with
  | [] => npos
  | c :: rest =>
      if existsb (Ascii.eqb c) set then find_first_not_of_from set rest (i + 1)%Z
      else i
  end.

Definition find_first_not_of (s set : str) : Z := find_first_not_of_from set s 0%Z.

(** The characters of [" \t\n\r"]. *)
Definition blanks : str := [" "; "009"; LF; "013"].

Section Lexing.

Variable fuel : nat.

(** [while (isspace(current_char) && current_char != '\n')
      { original += current_char; advance(); }] *)
Fixpoint leading_space_loop (n : nat) (original : str) : LexM str :=
  match n with
  | O => out_of_fuel
  | S n' =>
      c <- cur ;;
      if isspace c && neqb c LF
      then advance ;;; leading_space_loop n' (original ++ [c])
      else ret original
  end.

(** [while (current_char == '#' && level < 6)
      { original += "#"; level++; advance(); }] *)
Fixpoint heading_level_loop (n : nat) (original : str) (level : Z)
  : LexM (str * Z) :=
  match n with
  | O => out_of_fuel
  | S n' =>
      c <- cur ;;
      if (c =? "#") && (level <? 6)%Z
      then advance ;;; heading_level_loop n' (original ++ lit "#") (level + 1)%Z
      else ret (original, level)
  end.

(** [while (isspace(current_char) && current_char != '\n')
      { spaces++; advance(); }] *)
Fixpoint count_spaces_loop (n : nat) (spaces : Z) : LexM Z :=
  match n with
  | O => out_of_fuel
  | S n' =>
      c <- cur ;;
      if isspace c && neqb c LF
      then advance ;;; count_spaces_loop n' (spaces + 1)%Z
      else ret spaces
  end.

Definition handle_heading : LexM Token :=
  advance ;;;
  original <- leading_space_loop fuel (lit "#") ;;
  r <- heading_level_loop fuel original 1%Z ;;
  let '(original, level) := r in
  spaces <- count_spaces_loop fuel 0%Z ;;
  if (spaces =? 0)%Z then
    rest <- collect_until fuel LF false ;;
    c <- cur ;;
    advance_if (c =? LF) ;;;
    ret (Tok TEXT (original ++ rest))
  else
    content <- collect_until fuel LF false ;;
    c <- cur ;;
    advance_if (c =? LF) ;;;
    ret (match level with
         | 1%Z => Tok H1 content
         | 2%Z => Tok H2 content
         | 3%Z => Tok H3 content
         | 4%Z => Tok H4 content
         | 5%Z => Tok H5 content
         | 6%Z => Tok H6 content
         | _ => Tok TEXT (original ++ content)
         end).

(** The loop of the text run (lines 260-268): a line break is passed and
    not kept. *)
Fixpoint text_loop (n : nat) (text_content : str) : LexM str :=
  match n with
  | O => out_of_fuel
  | S n' =>
      c <- cur ;;
      if neqb c NUL && negb (is_markdown_char c) then
        if c =? LF then advance ;;; text_loop n' text_content
        else advance ;;; text_loop n' (text_content ++ [c])
      else ret text_content
  end.

(** [get_next_token]; [depth] bounds the nesting of its calls of itself. *)
Fixpoint get_next_token (depth : nat) : LexM Token :=
  match depth with
  | O => out_of_fuel
  | S depth' =>
      c <- cur ;;
      if c =? NUL then ret (Tok TEXT [])
      else if c =? "#" then handle_heading
      else if c =? "*" then handle_emphasis fuel
      else if c =? "[" then handle_link fuel
      else if c =? "!" then handle_image fuel
      else if c =? "-" then handle_list fuel
      else
        text_content <- text_loop fuel [] ;;
        if match text_content with [] => true | _ => false end
           || (find_first_not_of text_content blanks =? npos)%Z
        then
          c <- cur ;;
          if neqb c NUL then get_next_token depth' else ret (Tok TEXT [])
        else ret (Tok TEXT text_content)
  end.

(** The loop of [main] (lines 363-369) without its printing: the tokens up
    to the first empty Text token. *)
Fixpoint main_loop (n depth : nat) (token : Token) (tokens : list Token)
  : LexM (list Token) :=
  match n with
  | O => out_of_fuel
  | S n' =>
      if negb (TokenType_eqb (getType token) TEXT)
         || negb (match getValue token with [] => true | _ => false end)
      then
        token' <- get_next_token depth ;;
        main_loop n' depth token' (tokens ++ [token])
      else ret tokens
  end.

(** The tokens that [main] prints for the text [markdown]. *)
Definition main_tokens (depth : nat) (markdown : str) : result (list Token) :=
  match (token <- get_next_token depth ;; main_loop fuel depth token [])
          (Lexer_new markdown) with
  | Ok (tokens, _) => Ok tokens
  | OutOfRange => OutOfRange
  | OutOfFuel => OutOfFuel
  end.

End Lexing.

(** [Interpreter::parse] on its [current_token] (lines 289-345); the
    payload is written as it is. *)
Definition Interpreter_parse (current_token : Token) : result str :=
  let val := getValue current_token in
  match getType current_token with
  | TEXT => Ok val
  | H1 => Ok (lit "<h1>" ++ val ++ lit "</h1>")
  | H2 => Ok (lit "<h2>" ++ val ++ lit "</h2>")
  | H3 => Ok (lit "<h3>" ++ val ++ lit "</h3>")
  | H4 => Ok (lit "<h4>" ++ val ++ lit "</h4>")
  | H5 => Ok (lit "<h5>" ++ val ++ lit "</h5>")
  | H6 => Ok (lit "<h6>" ++ val ++ lit "</h6>")
  | BOLD => Ok (lit "<b>" ++ val ++ lit "</b>")
  | ITALIC => Ok (lit "<i>" ++ val ++ lit "</i>")
  | LINK =>
      link <~ substr val 0 (find val "|") ;;
      url <~ substr val (size_add (find val "|") 1) (Z.of_nat (length val)) ;;
      Ok (lit "<a href=" ++ [DQUOTE] ++ url ++ [DQUOTE] ++ lit ">" ++ link
          ++ lit "</a>")
  | IMAGE =>
      alt <~ substr val 0 (find val "|") ;;
      src <~ substr val (size_add (find val "|") 1) (Z.of_nat (length val)) ;;
      Ok (lit "<img src=" ++ [DQUOTE] ++ src ++ [DQUOTE] ++ lit " alt="
          ++ [DQUOTE] ++ alt ++ [DQUOTE] ++ lit ">")
  | LIST => Ok (lit "<li>" ++ val ++ lit "</li>")
  end.

(** The constructor [Interpreter(Lexer l)] takes the first token of [l];
    [parse] renders that token. *)
Definition Interpreter_run (depth fuel : nat) (markdown : str) : result str :=
  match get_next_token fuel depth (Lexer_new markdown) with
  | Ok (current_token, _) => Interpreter_parse current_token
  | OutOfRange => OutOfRange
  | OutOfFuel => OutOfFuel
  end.

(** *** The first lexer as a function of the unread input *)

Fixpoint scan_leading_space (original : str) (s : str) : str * str :=
  match s with
  | [] => (original, [])
  | c :: s' =>
      if isspace c && neqb c LF then scan_leading_space (original ++ [c]) s'
      else (original, s)
  end.

Fixpoint scan_hashes (original : str) (level : Z) (s : str) : (str * Z) * str :=
  match s with
  | [] => ((original, level), [])
  | c :: s' =>
      if (c =? "#") && (level <? 6)%Z
      then scan_hashes (original ++ lit "#") (level + 1)%Z s'
      else ((original, level), s)
  end.

Fixpoint count_spaces (spaces : Z) (s : str) : Z * str :=
  match s with
  | [] => (spaces, [])
  | c :: s' =>
      if isspace c && neqb c LF then count_spaces (spaces + 1)%Z s'
      else (spaces, s)
  end.

Definition heading_token (original : str) (level : Z) (content : str) : Token :=
  match level with
  | 1%Z => Tok H1 content
  | 2%Z => Tok H2 content
  | 3%Z => Tok H3 content
  | 4%Z => Tok H4 content
  | 5%Z => Tok H5 content
  | 6%Z => Tok H6 content
  | _ => Tok TEXT (original ++ content)
  end.

(** [handle_heading] on the input that starts with the [#]. *)
Definition lex_heading (s : str) : Token * str :=
  let r1 := scan_leading_space (lit "#") (tl s) in
  let r2 := scan_hashes (fst r1) 1%Z (snd r1) in
  let original := fst (fst r2) in
  let level := snd (fst r2) in
  let r3 := count_spaces 0%Z (snd r2) in
  let r4 := scan_until LF (snd r3) in
  if (fst r3 =? 0)%Z then (Tok TEXT (original ++ fst r4), drop_newline (snd r4))
  else (heading_token original level (fst r4), drop_newline (snd r4)).

Fixpoint scan_text (text_content : str) (s : str) : str * str :=
  match s with
  | [] => (text_content, [])
  | c :: s' =>
      if neqb c NUL && negb (is_markdown_char c) then
        if c =? LF then scan_text text_content s'
        else scan_text (text_content ++ [c]) s'
      else (text_content, s)
  end.

(** The handlers of [get_next_token], on input that starts with a
    marker. *)
Definition lex_marker (s : str) : Token * str :=
  let c := head s in
  if c =? "#" then lex_heading s
  else if c =? "*" then lex_emphasis s
  else if c =? "[" then lex_link s
  else if c =? "!" then lex_image s
  else lex_list s.

Definition is_blank (text_content : str) : bool :=
  match text_content with [] => true | _ => false end
  || (find_first_not_of text_content blanks =? npos)%Z.

(** [get_next_token] on the unread input [s]; its call of itself, made
    behind a blank text run, meets a marker. *)
Definition next_token (s : str) : Token * str :=
  if head s =? NUL then (Tok TEXT [], s)
  else if is_markdown_char (head s) then lex_marker s
  else
    let r := scan_text [] s in
    if is_blank (fst r) then
      if neqb (head (snd r)) NUL then lex_marker (snd r) else (Tok TEXT [], snd r)
    else (Tok TEXT (fst r), snd r).

(** The stop condition of [main]: an empty Text token. *)
Definition is_stop (token : Token) : bool :=
  TokenType_eqb (getType token) TEXT
  && match getValue token with [] => true | _ => false end.

Fixpoint all_tokens (n : nat) (s : str) : list Token :=
  match n with
  | O => []
  | S n' =>
      if is_stop (fst (next_token s)) then []
      else fst (next_token s) :: all_tokens n' (snd (next_token s))
  end.

End V1.

(** ** The cursor *)

Lemma is_suffix_refl (s : str) : is_suffix s s.
Proof. exists []. reflexivity. Qed.

Lemma is_suffix_cons (c : ascii) (s t : str) :
  is_suffix (c :: s) t -> is_suffix s t.
Proof.
  intros [pre ->]. exists (pre ++ [c]). now rewrite <- app_assoc.
Qed.

Lemma is_suffix_trans (a b c : str) :
  is_suffix a b -> is_suffix b c -> is_suffix a c.
Proof.
  intros [p ->] [q ->]. exists (q ++ p). now rewrite app_assoc.
Qed.

Lemma is_suffix_tl (s t : str) : is_suffix s t -> is_suffix (tl s) t.
Proof.
  destruct s as [|c s]; simpl; intros H.
  - exact H.
  - now apply is_suffix_cons in H.
Qed.

Lemma is_suffix_length (s t : str) : is_suffix s t -> length s <= length t.
Proof. intros [pre ->]. rewrite length_app. lia. Qed.

Lemma Lexer_new_cursor (t : str) : Lexer_new t = cursor t t.
Proof.
  unfold Lexer_new, cursor, lexer_at. rewrite Nat.sub_diag.
  now destruct t.
Qed.

Lemma cursor_current_char (t s : str) :
  is_suffix s t -> current_char (cursor t s) = head s.
Proof.
  intros [pre ->]. unfold cursor, lexer_at, char_at, head; simpl.
  rewrite length_app, Nat.add_sub.
  rewrite app_nth2, Nat.sub_diag by lia. now destruct s.
Qed.

Lemma cursor_advance (t s : str) (c : ascii) :
  is_suffix (c :: s) t -> advance_state (cursor t (c :: s)) = cursor t s.
Proof.
  intros H. pose proof (is_suffix_length _ _ H) as Hlen. simpl in Hlen.
  unfold advance_state, cursor, lexer_at; simpl.
  replace (S (length t - S (length s))) with (length t - length s) by lia.
  destruct (Nat.leb_spec (length t) (length t - length s)) as [Hle|Hlt].
  - unfold char_at. now rewrite nth_overflow by lia.
  - reflexivity.
Qed.

Lemma cursor_peek (t s : str) :
  is_suffix s t -> peek_state (cursor t s) = head (tl s).
Proof.
  intros H. unfold peek_state. simpl.
  destruct (Nat.leb_spec (length t) (length t - length s + 1)) as [Hle|Hlt].
  - pose proof (is_suffix_length _ _ H).
    destruct s as [|c [|d s]]; try reflexivity. simpl in *. lia.
  - destruct s as [|c s]; [simpl in *; lia|].
    cbn [tl]. rewrite <- (cursor_current_char t s) by (eapply is_suffix_cons; eauto).
    unfold cursor, lexer_at; simpl. f_equal.
    apply is_suffix_length in H. simpl in H. lia.
Qed.

(** ** Running the monad at a cursor *)

Lemma run_bind {A B : Type} (m : LexM A) (k : A -> LexM B) (l l' : Lexer) (a : A) :
  m l = Ok (a, l') -> bind m k l = k a l'.
Proof. unfold bind. now intros ->. Qed.

Lemma run_cur {B : Type} (k : ascii -> LexM B) (t s : str) :
  is_suffix s t -> bind cur k (cursor t s) = k (head s) (cursor t s).
Proof. intros H. unfold bind, cur. now rewrite cursor_current_char. Qed.

Lemma run_peek {B : Type} (k : ascii -> LexM B) (t s : str) :
  is_suffix s t -> bind peek k (cursor t s) = k (head (tl s)) (cursor t s).
Proof. intros H. unfold bind, peek. now rewrite cursor_peek. Qed.

Lemma run_advance {B : Type} (k : unit -> LexM B) (t s : str) (c : ascii) :
  is_suffix (c :: s) t -> bind advance k (cursor t (c :: s)) = k tt (cursor t s).
Proof. intros H. unfold bind, advance. now rewrite cursor_advance. Qed.

Lemma run_advance_if_LF {B : Type} (k : unit -> LexM B) (t s : str) :
  is_suffix s t ->
  bind (advance_if (head s =? LF)) k (cursor t s) = k tt (cursor t (drop_newline s)).
Proof.
  intros H. unfold drop_newline, advance_if.
  destruct (head s =? LF) eqn:E; [|reflexivity].
  destruct s as [|c s]; [discriminate|]. now rewrite run_advance.
Qed.

Create HintDb suffix.
#[local] Hint Resolve is_suffix_refl is_suffix_tl : suffix.

(** ** The loops compute the scanning functions *)

Lemma collect_until_loop_scan (t : str) (delimiter : ascii) :
  forall (s : str) (n : nat) (acc : str),
    is_suffix s t -> length s < n ->
    collect_until_loop n delimiter acc (cursor t s)
    = Ok (acc ++ fst (scan_until delimiter s),
          cursor t (snd (scan_until delimiter s))).
Proof.
  induction s as [|c s IH]; intros [|n] acc Hs Hn; try (simpl in Hn; lia);
    cbn [collect_until_loop]; rewrite run_cur by assumption; cbn [head hd scan_until].
  - cbn. now rewrite app_nil_r.
  - destruct (neqb c NUL && neqb c delimiter && neqb c LF).
    + rewrite run_advance by assumption.
      rewrite IH by (eauto using is_suffix_cons; simpl in Hn; lia).
      cbn [fst snd]. now rewrite <- app_assoc.
    + cbn. now rewrite app_nil_r.
Qed.

Lemma heading_level_loop_scan (t : str) :
  forall (s : str) (n : nat) (level : Z),
    is_suffix s t -> length s < n ->
    heading_level_loop n level (cursor t s)
    = Ok (fst (scan_hashes level s), cursor t (snd (scan_hashes level s))).
Proof.
  induction s as [|c s IH]; intros [|n] level Hs Hn; try (simpl in Hn; lia);
    cbn [heading_level_loop]; rewrite run_cur by assumption;
    cbn [head hd scan_hashes]; [reflexivity|].
  destruct ((c =? "#") && (level <? 6)%Z); [|reflexivity].
  rewrite run_advance by assumption.
  apply IH; [eauto using is_suffix_cons | simpl in Hn; lia].
Qed.

Lemma skip_spaces_loop_scan (t : str) :
  forall (s : str) (n : nat),
    is_suffix s t -> length s < n ->
    skip_spaces_loop n (cursor t s) = Ok (tt, cursor t (scan_spaces s)).
Proof.
  induction s as [|c s IH]; intros [|n] Hs Hn; try (simpl in Hn; lia);
    cbn [skip_spaces_loop]; rewrite run_cur by assumption;
    cbn [head hd scan_spaces]; [reflexivity|].
  destruct (isspace c && neqb c LF); [|reflexivity].
  rewrite run_advance by assumption.
  apply IH; [eauto using is_suffix_cons | simpl in Hn; lia].
Qed.

Lemma italic_loop_scan (t : str) :
  forall (s : str) (n : nat) (content : str),
    is_suffix s t -> length s < n ->
    bind (italic_loop n content)
      (fun r => match r with
                | inl token => ret token
                | inr content => ret (Tok TEXT (lit "*" ++ content))
                end) (cursor t s)
    = Ok (fst (scan_italic content s), cursor t (snd (scan_italic content s))).
Proof.
  induction s as [|c s IH]; intros [|n] content Hs Hn; try (simpl in Hn; lia);
    cbn [italic_loop]; unfold bind at 1; rewrite run_cur by assumption;
    cbn [head hd scan_italic]; [reflexivity|].
  destruct (neqb c NUL && neqb c LF); [|reflexivity].
  destruct (c =? "*").
  - now rewrite run_advance by assumption.
  - rewrite run_advance by assumption.
    apply IH; [eauto using is_suffix_cons | simpl in Hn; lia].
Qed.

Lemma link_text_loop_scan (t : str) :
  forall (m : nat) (s : str) (n : nat) (text : str) (bracket_count : Z),
    length s <= m ->
    is_suffix s t -> length s < n ->
    link_text_loop n text bracket_count (cursor t s)
    = Ok (fst (scan_link_text text bracket_count s),
          cursor t (snd (scan_link_text text bracket_count s))).
Proof.
  induction m as [|m IH]; intros [|c s] [|n] text bc Hm Hs Hn;
    try (simpl in Hn, Hm; lia);
    cbn [link_text_loop]; rewrite run_cur by assumption;
    cbn [head hd scan_link_text]; try reflexivity.
  destruct (neqb c NUL); [|reflexivity].
  rewrite run_peek by assumption. cbn [tl].
  destruct ((c =? BACKSLASH) && (head s =? "[")) eqn:E.
  - destruct s as [|d s]; [now rewrite andb_false_r in E|].
    rewrite run_advance by assumption.
    rewrite run_advance by eauto using is_suffix_cons.
    apply IH; [simpl in Hm; lia | eauto using is_suffix_cons | simpl in Hn; lia].
  - match goal with |- context [(_ =? "]") && ?b] => destruct ((c =? "]") && b) end.
    + now rewrite run_advance by assumption.
    + rewrite run_advance by assumption.
      apply IH; [simpl in Hm; lia | eauto using is_suffix_cons | simpl in Hn; lia].
Qed.

Lemma skip_newlines_loop_scan (t : str) :
  forall (s : str) (n : nat),
    is_suffix s t -> length s < n ->
    skip_newlines_loop n (cursor t s)
    = Ok (fst (scan_newlines s), cursor t (snd (scan_newlines s))).
Proof.
  induction s as [|c s IH]; intros [|n] Hs Hn; try (simpl in Hn; lia);
    cbn [skip_newlines_loop]; rewrite run_cur by assumption;
    cbn [head hd scan_newlines]; [reflexivity|].
  destruct (c =? LF); [|reflexivity].
  rewrite run_advance by assumption.
  rewrite run_cur by eauto using is_suffix_cons.
  destruct (head s =? NUL); [reflexivity|].
  apply IH; [eauto using is_suffix_cons | simpl in Hn; lia].
Qed.

Lemma text_loop_scan (t : str) :
  forall (s : str) (n : nat) (text_content : str),
    is_suffix s t -> length s < n ->
    text_loop n text_content (cursor t s)
    = Ok (fst (scan_text text_content s), cursor t (snd (scan_text text_content s))).
Proof.
  induction s as [|c s IH]; intros [|n] acc Hs Hn; try (simpl in Hn; lia);
    cbn [text_loop]; rewrite run_cur by assumption;
    cbn [head hd scan_text]; [reflexivity|].
  destruct (neqb c NUL && negb (is_markdown_char c)); [|reflexivity].
  rewrite run_peek by assumption. cbn [tl].
  destruct ((c =? LF) && (head s =? LF)); [reflexivity|].
  rewrite run_advance by assumption.
  apply IH; [eauto using is_suffix_cons | simpl in Hn; lia].
Qed.

(** ** What is left is a suffix of what was there *)

Lemma is_suffix_skip (c : ascii) (s t : str) :
  is_suffix s t -> is_suffix s (c :: t).
Proof. intros [pre ->]. now exists (c :: pre). Qed.

Lemma scan_until_suffix (delimiter : ascii) (s t : str) :
  is_suffix s t -> is_suffix (snd (scan_until delimiter s)) t.
Proof.
  intros H. apply is_suffix_trans with s; [|exact H]. clear.
  induction s as [|c s IH]; cbn; [apply is_suffix_refl|].
  destruct (neqb c NUL && neqb c delimiter && neqb c LF); cbn;
    auto using is_suffix_refl, is_suffix_skip.
Qed.

Lemma drop_newline_suffix (s t : str) :
  is_suffix s t -> is_suffix (drop_newline s) t.
Proof.
  unfold drop_newline. destruct (head s =? LF); auto using is_suffix_tl.
Qed.

Lemma scan_hashes_suffix (s t : str) (level : Z) :
  is_suffix s t -> is_suffix (snd (scan_hashes level s)) t.
Proof.
  intros H. apply is_suffix_trans with s; [|exact H]. clear.
  revert level. induction s as [|c s IH]; intros level; cbn; [apply is_suffix_refl|].
  destruct ((c =? "#") && (level <? 6)%Z); cbn;
    auto using is_suffix_refl, is_suffix_skip.
Qed.

Lemma scan_spaces_suffix (s t : str) :
  is_suffix s t -> is_suffix (scan_spaces s) t.
Proof.
  intros H. apply is_suffix_trans with s; [|exact H]. clear.
  induction s as [|c s IH]; cbn; [apply is_suffix_refl|].
  destruct (isspace c && neqb c LF); auto using is_suffix_refl, is_suffix_skip.
Qed.

Lemma scan_italic_suffix (s t : str) (content : str) :
  is_suffix s t -> is_suffix (snd (scan_italic content s)) t.
Proof.
  intros H. apply is_suffix_trans with s; [|exact H]. clear.
  revert content. induction s as [|c s IH]; intros content; cbn; [apply is_suffix_refl|].
  destruct (neqb c NUL && neqb c LF); [destruct (c =? "*")|]; cbn;
    auto using is_suffix_refl, is_suffix_skip.
Qed.

Lemma scan_link_text_suffix (s t : str) (text : str) (bracket_count : Z) :
  is_suffix s t -> is_suffix (snd (scan_link_text text bracket_count s)) t.
Proof.
  intros H. apply is_suffix_trans with s; [|exact H]. clear.
  remember (length s) as m eqn:Hm. assert (Hle : length s <= m) by lia. clear Hm.
  revert s text bracket_count Hle.
  induction m as [|m IH]; intros [|c s] text bc Hle; cbn in *;
    try apply is_suffix_refl; try lia.
  destruct (neqb c NUL); [|apply is_suffix_refl].
  destruct ((c =? BACKSLASH) && (head s =? "[")).
  - destruct s as [|d s]; cbn in *.
    + exists [c]. reflexivity.
    + do 2 apply is_suffix_skip. apply IH. lia.
  - match goal with |- context [(_ =? "]") && ?b] => destruct ((c =? "]") && b) end; cbn.
    + apply is_suffix_skip, is_suffix_refl.
    + apply is_suffix_skip, IH. lia.
Qed.

Lemma scan_newlines_suffix (s t : str) :
  is_suffix s t -> is_suffix (snd (scan_newlines s)) t.
Proof.
  intros H. apply is_suffix_trans with s; [|exact H]. clear.
  induction s as [|c s IH]; cbn; [apply is_suffix_refl|].
  destruct (c =? LF); [destruct (head s =? NUL)|]; cbn;
    auto using is_suffix_refl, is_suffix_skip.
Qed.

Lemma scan_text_suffix (s t : str) (text_content : str) :
  is_suffix s t -> is_suffix (snd (scan_text text_content s)) t.
Proof.
  intros H. apply is_suffix_trans with s; [|exact H]. clear.
  revert text_content. induction s as [|c s IH]; intros acc; cbn; [apply is_suffix_refl|].
  destruct (neqb c NUL && negb (is_markdown_char c));
    [destruct ((c =? LF) && (head s =? LF))|]; cbn;
    auto using is_suffix_refl, is_suffix_skip.
Qed.

#[local] Hint Resolve is_suffix_skip scan_until_suffix drop_newline_suffix
  scan_hashes_suffix scan_spaces_suffix scan_italic_suffix scan_link_text_suffix
  scan_newlines_suffix scan_text_suffix : suffix.
#[local] Hint Extern 1 (is_suffix ?s ?t) =>
  match goal with
  | H : is_suffix (_ :: s) t |- _ => exact (is_suffix_cons _ _ _ H)
  end : suffix.

(** The bound of a loop that starts at a suffix of [s]. *)
Ltac fuel_ok :=
  match goal with
  | H : length ?s < ?n |- length ?x < ?n =>
      apply Nat.le_lt_trans with (length s);
      [apply is_suffix_length; eauto 10 with suffix | exact H]
  end.

Ltac suffix_ok := solve [eauto 10 with suffix].

Lemma collect_until_scan (fuel : nat) (t s : str) (delimiter : ascii) :
  is_suffix s t -> length s < fuel ->
  collect_until fuel delimiter false (cursor t s)
  = Ok (fst (scan_until delimiter s), cursor t (snd (scan_until delimiter s))).
Proof.
  intros Hs Hn. unfold collect_until.
  erewrite run_bind by (apply collect_until_loop_scan; assumption).
  rewrite run_cur by suffix_ok. reflexivity.
Qed.

(** ** The handlers compute the lexing functions *)

Section Refinement.

Variable fuel : nat.
Variable t : str.

Lemma handle_heading_lex (s : str) :
  is_suffix s t -> length s < fuel -> head s = "#" ->
  handle_heading fuel (cursor t s)
  = Ok (fst (lex_heading s), cursor t (snd (lex_heading s))).
Proof.
  intros Hs Hn Hc. destruct s as [|c s]; [discriminate|].
  assert (Hs' : is_suffix s t) by eauto using is_suffix_cons.
  assert (Hn' : length s < fuel) by (simpl in Hn; lia).
  unfold handle_heading, lex_heading. cbn [tl].
  rewrite run_advance by assumption.
  erewrite run_bind by (apply heading_level_loop_scan; assumption).
  rewrite run_cur by suffix_ok.
  destruct (negb (isspace (head (snd (scan_hashes 1 s))))).
  - erewrite run_bind by (apply collect_until_scan; [suffix_ok | fuel_ok]).
    rewrite run_cur by suffix_ok.
    rewrite run_advance_if_LF by suffix_ok. reflexivity.
  - erewrite run_bind by (apply skip_spaces_loop_scan; [suffix_ok | fuel_ok]).
    erewrite run_bind by (apply collect_until_scan; [suffix_ok | fuel_ok]).
    rewrite run_cur by suffix_ok.
    rewrite run_advance_if_LF by suffix_ok. reflexivity.
Qed.

Lemma handle_emphasis_lex (s : str) :
  is_suffix s t -> length s < fuel -> head s = "*" ->
  handle_emphasis fuel (cursor t s)
  = Ok (fst (lex_emphasis s), cursor t (snd (lex_emphasis s))).
Proof.
  intros Hs Hn Hc. destruct s as [|c s]; [discriminate|].
  assert (Hs' : is_suffix s t) by eauto using is_suffix_cons.
  assert (Hn' : length s < fuel) by (simpl in Hn; lia).
  unfold handle_emphasis, lex_emphasis. cbn [tl].
  rewrite run_advance by assumption.
  rewrite run_cur by assumption.
  destruct (head s =? "*") eqn:E.
  - destruct s as [|d s]; [discriminate|]. cbn [tl].
    rewrite run_advance by assumption.
    erewrite run_bind by (apply collect_until_scan; [suffix_ok | fuel_ok]).
    rewrite run_cur by suffix_ok. rewrite run_peek by suffix_ok.
    set (s1 := snd (scan_until "*" s)).
    assert (H1 : is_suffix s1 t) by (subst s1; suffix_ok).
    destruct (head s1 =? "*") eqn:E1; [|reflexivity].
    destruct (head (tl s1) =? "*") eqn:E2; [|reflexivity].
    cbn [andb].
    destruct s1 as [|x [|y s1]]; try discriminate.
    rewrite run_advance by assumption.
    rewrite run_advance by eauto using is_suffix_cons. reflexivity.
  - apply italic_loop_scan; assumption.
Qed.

Lemma handle_link_lex (s : str) :
  is_suffix s t -> length s < fuel -> head s = "[" ->
  handle_link fuel (cursor t s)
  = Ok (fst (lex_link s), cursor t (snd (lex_link s))).
Proof.
  intros Hs Hn Hc. destruct s as [|c s]; [discriminate|].
  assert (Hs' : is_suffix s t) by eauto using is_suffix_cons.
  assert (Hn' : length s < fuel) by (simpl in Hn; lia).
  unfold handle_link, lex_link. cbn [tl].
  rewrite run_advance by assumption.
  erewrite run_bind
    by (apply (link_text_loop_scan t (length s)); [lia | assumption | assumption]).
  destruct (scan_link_text [] 1 s) as [[text bc] s1] eqn:E. cbn [fst snd].
  assert (H1 : is_suffix s1 t).
  { replace s1 with (snd (scan_link_text [] 1 s)) by now rewrite E. suffix_ok. }
  assert (L1 : length s1 < fuel).
  { replace s1 with (snd (scan_link_text [] 1 s)) by now rewrite E. fuel_ok. }
  destruct (bc >? 0)%Z; [reflexivity|].
  rewrite run_cur by assumption.
  destruct (neqb (head s1) "(") eqn:E1; [reflexivity|].
  destruct s1 as [|x s1]; [discriminate|]. cbn [tl].
  rewrite run_advance by assumption.
  assert (H2 : is_suffix s1 t) by eauto using is_suffix_cons.
  assert (L2 : length s1 < fuel) by (simpl in L1; lia).
  erewrite run_bind by (apply collect_until_scan; assumption).
  rewrite run_cur by suffix_ok.
  destruct (neqb (head (snd (scan_until ")" s1))) ")") eqn:E2; [reflexivity|].
  assert (H3 : is_suffix (snd (scan_until ")" s1)) t) by suffix_ok.
  destruct (snd (scan_until ")" s1)) as [|y s2]; [discriminate|].
  now rewrite run_advance by assumption.
Qed.

Lemma handle_image_lex (s : str) :
  is_suffix s t -> length s < fuel -> head s = "!" ->
  handle_image fuel (cursor t s)
  = Ok (fst (lex_image s), cursor t (snd (lex_image s))).
Proof.
  intros Hs Hn Hc. destruct s as [|c s]; [discriminate|].
  assert (Hs' : is_suffix s t) by eauto using is_suffix_cons.
  assert (Hn' : length s < fuel) by (simpl in Hn; lia).
  unfold handle_image, lex_image. cbn [tl].
  rewrite run_advance by assumption.
  rewrite run_cur by assumption.
  destruct (neqb (head s) "[") eqn:E; [reflexivity|].
  erewrite run_bind.
  2:{ apply handle_link_lex; [assumption | assumption |].
      unfold neqb in E. apply negb_false_iff in E. now apply Ascii.eqb_eq in E. }
  destruct (TokenType_eqb (getType (fst (lex_link s))) LINK); reflexivity.
Qed.

Lemma isspace_head_cons (s : str) :
  isspace (head s) = true -> exists c s', s = c :: s'.
Proof. destruct s as [|c s']; [discriminate|eauto]. Qed.

Lemma handle_list_lex (s : str) :
  is_suffix s t -> length s < fuel -> head s = "-" ->
  handle_list fuel (cursor t s)
  = Ok (fst (lex_list s), cursor t (snd (lex_list s))).
Proof.
  intros Hs Hn Hc. destruct s as [|c s]; [discriminate|].
  assert (Hs' : is_suffix s t) by eauto using is_suffix_cons.
  assert (Hn' : length s < fuel) by (simpl in Hn; lia).
  unfold handle_list, lex_list. cbn [tl].
  rewrite run_advance by assumption.
  rewrite run_cur by assumption.
  destruct (isspace (head s)) eqn:E; cbn [negb].
  - destruct (isspace_head_cons s E) as (d & s' & ->). cbn [tl].
    rewrite run_advance by assumption.
    assert (is_suffix s' t) by eauto using is_suffix_cons.
    assert (length s' < fuel) by (simpl in Hn'; lia).
    erewrite run_bind by (apply collect_until_scan; assumption).
    rewrite run_cur by suffix_ok.
    rewrite run_advance_if_LF by suffix_ok. reflexivity.
  - erewrite run_bind by (apply collect_until_scan; assumption).
    rewrite run_cur by suffix_ok.
    rewrite run_advance_if_LF by suffix_ok. reflexivity.
Qed.

Lemma get_next_token_lex (s : str) :
  is_suffix s t -> length s < fuel ->
  get_next_token fuel (cursor t s)
  = Ok (fst (next_token s), cursor t (snd (next_token s))).
Proof.
  intros Hs Hn. unfold get_next_token, next_token.
  rewrite run_cur by assumption.
  destruct (head s =? NUL); [reflexivity|].
  erewrite run_bind by (apply skip_newlines_loop_scan; assumption).
  destruct (fst (scan_newlines s)); [reflexivity|].
  set (s1 := snd (scan_newlines s)).
  assert (H1 : is_suffix s1 t) by (subst s1; suffix_ok).
  assert (L1 : length s1 < fuel) by (subst s1; fuel_ok).
  rewrite run_cur by assumption. unfold lex_dispatch.
  destruct (head s1 =? "#") eqn:E1.
  { apply handle_heading_lex; auto. now apply Ascii.eqb_eq. }
  destruct (head s1 =? "*") eqn:E2.
  { apply handle_emphasis_lex; auto. now apply Ascii.eqb_eq. }
  destruct (head s1 =? "[") eqn:E3.
  { apply handle_link_lex; auto. now apply Ascii.eqb_eq. }
  destruct (head s1 =? "!") eqn:E4.
  { apply handle_image_lex; auto. now apply Ascii.eqb_eq. }
  destruct (head s1 =? "-") eqn:E5.
  { apply handle_list_lex; auto. now apply Ascii.eqb_eq. }
  erewrite run_bind by (apply text_loop_scan; assumption).
  reflexivity.
Qed.

End Refinement.

(** ** Every token takes at least one character *)

Lemma is_suffix_tl_length (s t : str) :
  is_suffix s (tl t) -> t <> [] -> length s < length t.
Proof.
  intros H Ht. apply is_suffix_length in H.
  destruct t; [contradiction|]. simpl in *. lia.
Qed.

Lemma lex_heading_suffix (s : str) : is_suffix (snd (lex_heading s)) (tl s).
Proof.
  unfold lex_heading.
  destruct (negb (isspace (head (snd (scan_hashes 1 (tl s)))))); cbn [snd];
    suffix_ok.
Qed.

Lemma lex_emphasis_suffix (s : str) : is_suffix (snd (lex_emphasis s)) (tl s).
Proof.
  unfold lex_emphasis.
  destruct (head (tl s) =? "*"); [|suffix_ok].
  match goal with |- context [if ?b then _ else _] => destruct b end;
    cbn [snd]; suffix_ok.
Qed.

Lemma lex_link_suffix (s : str) : is_suffix (snd (lex_link s)) (tl s).
Proof.
  unfold lex_link.
  repeat match goal with |- context [if ?b then _ else _] => destruct b end;
    cbn [snd]; suffix_ok.
Qed.

Lemma lex_image_suffix (s : str) : is_suffix (snd (lex_image s)) (tl s).
Proof.
  unfold lex_image.
  repeat match goal with |- context [if ?b then _ else _] => destruct b end;
    cbn [snd]; try suffix_ok;
    (eapply is_suffix_trans; [apply lex_link_suffix | suffix_ok]).
Qed.

Lemma lex_list_suffix (s : str) : is_suffix (snd (lex_list s)) (tl s).
Proof.
  unfold lex_list.
  destruct (negb (isspace (head (tl s)))); cbn [snd]; suffix_ok.
Qed.

Lemma scan_text_step (s : str) :
  neqb (head s) NUL = true -> neqb (head s) LF = true ->
  is_markdown_char (head s) = false ->
  scan_text [] s = scan_text [head s] (tl s).
Proof.
  destruct s as [|c s]; [discriminate|]. cbn [head hd tl scan_text].
  intros -> H ->. unfold neqb in H. apply negb_true_iff in H. now rewrite H.
Qed.

Lemma lex_dispatch_suffix (s : str) :
  neqb (head s) NUL = true -> neqb (head s) LF = true ->
  is_suffix (snd (lex_dispatch s)) (tl s).
Proof.
  intros H0 H1. unfold lex_dispatch.
  destruct (head s =? "#") eqn:E1; [apply lex_heading_suffix|].
  destruct (head s =? "*") eqn:E2; [apply lex_emphasis_suffix|].
  destruct (head s =? "[") eqn:E3; [apply lex_link_suffix|].
  destruct (head s =? "!") eqn:E4; [apply lex_image_suffix|].
  destruct (head s =? "-") eqn:E5; [apply lex_list_suffix|].
  cbn [snd]. rewrite scan_text_step; [suffix_ok | assumption | assumption |].
  unfold is_markdown_char. now rewrite E1, E2, E3, E4, E5.
Qed.

Lemma scan_newlines_stops (s : str) :
  neqb (head s) NUL = true -> fst (scan_newlines s) = None ->
  neqb (head (snd (scan_newlines s))) NUL = true
  /\ neqb (head (snd (scan_newlines s))) LF = true.
Proof.
  induction s as [|c s IH]; [discriminate|]. cbn [head hd scan_newlines].
  intros Hc. destruct (c =? LF) eqn:E.
  - destruct (head s =? NUL) eqn:E0; [discriminate|].
    apply IH. unfold neqb. now rewrite E0.
  - intros _. cbn. unfold neqb at 2. now rewrite E.
Qed.

Lemma next_token_progress (s : str) :
  isEOF (fst (next_token s)) = false ->
  length (snd (next_token s)) < length s.
Proof.
  unfold next_token. destruct (head s =? NUL) eqn:E0; [discriminate|].
  destruct (fst (scan_newlines s)) as [eof|] eqn:E.
  - destruct s as [|c s]; [discriminate|].
    intros Heof. exfalso. revert E Heof. clear.
    cbn [fst snd]. generalize (c :: s). clear. intros s. 
    induction s as [|c s IH]; cbn; [discriminate|].
    destruct (c =? LF); [|discriminate].
    destruct (head s =? NUL); [|exact IH].
    cbn. intros [= <-]. discriminate.
  - intros _.
    destruct (scan_newlines_stops s) as [H0 H1]; [unfold neqb; now rewrite E0 | exact E |].
    set (s1 := snd (scan_newlines s)) in *.
    assert (Hs1 : is_suffix s1 s) by (subst s1; suffix_ok).
    apply Nat.lt_le_trans with (length s1); [|now apply is_suffix_length].
    apply is_suffix_tl_length; [now apply lex_dispatch_suffix|].
    intros ->. discriminate.
Qed.

Lemma next_token_suffix (s t : str) :
  is_suffix s t -> is_suffix (snd (next_token s)) t.
Proof.
  intros H. apply is_suffix_trans with s; [|exact H]. clear.
  unfold next_token. destruct (head s =? NUL) eqn:E0; [apply is_suffix_refl|].
  destruct (fst (scan_newlines s)) as [eof|] eqn:E; cbn [snd]; [suffix_ok|].
  destruct (scan_newlines_stops s) as [H0 H1]; [unfold neqb; now rewrite E0 | exact E |].
  eapply is_suffix_trans; [apply lex_dispatch_suffix; assumption|]. suffix_ok.
Qed.

#[local] Hint Resolve next_token_suffix : suffix.

Lemma all_tokens_bound (m m' : nat) :
  forall s : str, length s <= m -> length s <= m' ->
  all_tokens m s = all_tokens m' s.
Proof.
  revert m'. induction m as [|m IH]; intros [|m'] s H H'; cbn [all_tokens].
  - reflexivity.
  - destruct (isEOF (fst (next_token s))) eqn:E; [reflexivity|].
    apply next_token_progress in E. lia.
  - destruct (isEOF (fst (next_token s))) eqn:E; [reflexivity|].
    apply next_token_progress in E. lia.
  - destruct (isEOF (fst (next_token s))) eqn:E; [reflexivity|].
    apply next_token_progress in E. f_equal. apply IH; lia.
Qed.

Lemma collect_tokens_loop_all (fuel : nat) (t : str) :
  forall (m : nat) (s : str) (n : nat) (token : Token) (tokens : list Token),
    length s <= m -> is_suffix s t -> length s < fuel ->
    1 <= n -> (isEOF token = false -> length s + 2 <= n) ->
    exists l',
      collect_tokens_loop fuel n token tokens (cursor t s)
      = Ok (tokens ++ (if isEOF token then [] else token :: all_tokens m s), l').
Proof.
  induction m as [|m IH]; intros s [|n] token tokens Hm Hs Hf Hn Hn'; try lia;
    cbn [collect_tokens_loop all_tokens];
    destruct (isEOF token) eqn:E; cbn [negb];
    try (eexists; unfold ret; now rewrite app_nil_r).
  - destruct s; [|simpl in Hm; lia].
    erewrite run_bind by (apply get_next_token_lex; assumption).
    cbn. destruct n; [specialize (Hn' eq_refl); simpl in Hn'; lia|].
    cbn. eexists. reflexivity.
  - erewrite run_bind by (apply get_next_token_lex; assumption).
    specialize (Hn' eq_refl).
    destruct (isEOF (fst (next_token s))) eqn:E'.
    + destruct n; [lia|]. cbn [collect_tokens_loop]. rewrite E'. cbn.
      eexists. reflexivity.
    + pose proof (next_token_progress s E') as Hp.
      destruct (IH (snd (next_token s)) n (fst (next_token s)) (tokens ++ [token]))
        as [l' Hl']; try lia; [suffix_ok|].
      rewrite Hl', E', <- app_assoc. eexists. reflexivity.
Qed.

Theorem tokenize_all_tokens (fuel : nat) (markdown : str) :
  length markdown < fuel ->
  tokenize fuel markdown = Ok (all_tokens (length markdown) markdown).
Proof.
  intros Hf. unfold tokenize. rewrite Lexer_new_cursor.
  erewrite run_bind by (apply get_next_token_lex; [apply is_suffix_refl | assumption]).
  destruct (isEOF (fst (next_token markdown))) eqn:E.
  - destruct fuel; [lia|]. cbn [collect_tokens_loop]. rewrite E. cbn.
    destruct markdown; cbn [length all_tokens]; [reflexivity|]. now rewrite E.
  - pose proof (next_token_progress markdown E) as Hp.
    destruct markdown as [|c md]; [simpl in Hp; lia|].
    destruct (collect_tokens_loop_all fuel (c :: md) (length md)
                (snd (next_token (c :: md))) fuel (fst (next_token (c :: md))) [])
      as [l' Hl']; try (simpl in *; lia); [suffix_ok|].
    rewrite Hl', E. cbn [app length all_tokens]. now rewrite E.
Qed.

(** ** The renderer raises nothing *)

Lemma find_from_range (c : ascii) :
  forall (s : str) (i : Z),
    find_from c s i = npos
    \/ (i <= find_from c s i < i + Z.of_nat (length s))%Z.
Proof.
  induction s as [|x s IH]; intros i; cbn [find_from length]; [now left|].
  destruct (x =? c); [right; lia|].
  destruct (IH (i + 1)%Z) as [H|H]; [now left | right; lia].
Qed.

Lemma substr_prefix_ok (s : str) (count : Z) :
  exists r, substr s 0 count = Ok r.
Proof.
  unfold substr. destruct (Z.ltb_spec (Z.of_nat (length s)) 0); [lia|eauto].
Qed.

Lemma substr_after_find_ok (s : str) (c : ascii) (count : Z) :
  exists r, substr s (size_add (find s c) 1) count = Ok r.
Proof.
  unfold substr, find.
  destruct (Z.ltb_spec (Z.of_nat (length s)) (size_add (find_from c s 0) 1))
    as [H|H]; [exfalso|eauto].
  revert H. unfold size_add.
  destruct (find_from_range c s 0) as [-> | Hr].
  - unfold npos, size_max. change ((2 ^ 64 - 1 + 1) mod 2 ^ 64)%Z with 0%Z. lia.
  - assert ((find_from c s 0 + 1) mod size_max <= find_from c s 0 + 1)%Z
      by (apply Z.mod_le; unfold size_max; lia).
    lia.
Qed.

Lemma tokenToHtml_total (token : Token) : exists html, tokenToHtml token = Ok html.
Proof.
  unfold tokenToHtml. destruct (getType token); eauto.
  - destruct (substr_prefix_ok (escapeHtml (getValue token))
                (find (escapeHtml (getValue token)) "|")) as [a ->].
    destruct (substr_after_find_ok (escapeHtml (getValue token)) "|" npos) as [b ->].
    cbn. eauto.
  - destruct (substr_prefix_ok (escapeHtml (getValue token))
                (find (escapeHtml (getValue token)) "|")) as [a ->].
    destruct (substr_after_find_ok (escapeHtml (getValue token)) "|" npos) as [b ->].
    cbn. eauto.
Qed.

Lemma tokensToHtml_loop_total (tokens : list Token) :
  forall r, exists r', tokensToHtml_loop tokens r = Ok r'.
Proof.
  induction tokens as [|token next IH]; intros r; cbn [tokensToHtml_loop]; eauto.
  destruct (tokenToHtml_total token) as [html ->]. cbn [rbind]. apply IH.
Qed.

Lemma tokensToHtml_total (tokens : list Token) :
  exists html, tokensToHtml tokens = Ok html.
Proof.
  unfold tokensToHtml.
  destruct (tokensToHtml_loop_total tokens
              {| output := []; inList := false; inParagraph := false |}) as [r ->].
  cbn [rbind]. eauto.
Qed.

Lemma parse_with_all_tokens (fuel : nat) (markdown : str) :
  length markdown < fuel ->
  parse_with fuel markdown = tokensToHtml (all_tokens (length markdown) markdown).
Proof.
  intros H. unfold parse_with. now rewrite tokenize_all_tokens.
Qed.

Lemma parse_all_tokens (markdown : str) :
  parse markdown = tokensToHtml (all_tokens (length markdown) markdown).
Proof. apply parse_with_all_tokens. lia. Qed.

Lemma tokens_of_all_tokens (markdown : str) :
  tokens_of markdown = Ok (all_tokens (length markdown) markdown).
Proof. apply tokenize_all_tokens. lia. Qed.

(** C1. For every input string, [Parser::parse] returns an HTML string: no
    loop of the lexer runs past the bound given by the input length (and
    any larger bound gives the same string), and no exception is raised.
    The empty input gives the empty output. *)
Theorem parse_total :
  (forall markdown : str,
      exists html : str,
        parse markdown = Ok html
        /\ forall fuel, length markdown < fuel -> parse_with fuel markdown = Ok html)
  /\ parse [] = Ok [].
Proof.
  split; [|reflexivity].
  intros markdown.
  destruct (tokensToHtml_total (all_tokens (length markdown) markdown)) as [html H].
  exists html. split.
  - now rewrite parse_all_tokens.
  - intros fuel Hf. now rewrite parse_with_all_tokens.
Qed.

(** ** Escaping *)

Lemma escape_char_raw (c : ascii) : is_special c = false -> escape_char c = [c].
Proof.
  unfold is_special, escape_char. intros H.
  repeat (apply orb_false_iff in H; destruct H as [H ?]).
  repeat match goal with E : (_ =? _) = false |- _ => rewrite E; clear E end.
  reflexivity.
Qed.

Lemma escape_char_special (c : ascii) :
  is_special c = true -> 4 <= length (escape_char c) /\ raw (escape_char c) = false.
Proof.
  unfold is_special, escape_char. intros H.
  destruct (c =? "<"); [cbn; split; [lia|reflexivity]|].
  destruct (c =? ">"); [cbn; split; [lia|reflexivity]|].
  destruct (c =? "&"); [cbn; split; [lia|reflexivity]|].
  destruct (c =? DQUOTE); [cbn; split; [lia|reflexivity]|].
  discriminate.
Qed.

Lemma escapeHtml_raw (s : str) : raw s = true -> escapeHtml s = s.
Proof.
  induction s as [|c s IH]; cbn [raw forallb escapeHtml]; [reflexivity|].
  intros H. apply andb_true_iff in H. destruct H as [Hc Hs].
  apply negb_true_iff in Hc. rewrite escape_char_raw by assumption.
  cbn. f_equal. now apply IH.
Qed.

Lemma escapeHtml_length (s : str) : length s <= length (escapeHtml s).
Proof.
  induction s as [|c s IH]; cbn [escapeHtml length]; [lia|].
  rewrite length_app. destruct (is_special c) eqn:E.
  - destruct (escape_char_special c E). lia.
  - rewrite escape_char_raw by assumption. cbn. lia.
Qed.

Lemma escapeHtml_same_length (s : str) :
  length (escapeHtml s) = length s -> raw s = true.
Proof.
  induction s as [|c s IH]; cbn [escapeHtml length raw forallb]; [reflexivity|].
  rewrite length_app. intros H. pose proof (escapeHtml_length s).
  destruct (is_special c) eqn:E.
  - destruct (escape_char_special c E). lia.
  - rewrite escape_char_raw in H by assumption. cbn in H. cbn [negb andb].
    apply IH. lia.
Qed.

Lemma escapeHtml_raw_inv (s : str) : raw (escapeHtml s) = true -> raw s = true.
Proof.
  induction s as [|c s IH]; cbn [escapeHtml raw forallb]; [reflexivity|].
  unfold raw. rewrite forallb_app. intros H.
  apply andb_true_iff in H. destruct H as [Hc Hs].
  destruct (is_special c) eqn:E.
  - destruct (escape_char_special c E) as [_ Hr]. unfold raw in Hr. congruence.
  - cbn [negb andb]. now apply IH.
Qed.

(** C3, as the code has it: escaping twice gives the same string as
    escaping once exactly for the strings without any of the characters
    [<], [>], [&] and the double quote, which escaping leaves as they are.
    Any other string is escaped again: the [&] of each entity written by the
    first pass is rewritten by the second. *)
Theorem escapeHtml_twice_iff_raw (s : str) :
  escapeHtml (escapeHtml s) = escapeHtml s <-> raw s = true.
Proof.
  split.
  - intros H. apply escapeHtml_raw_inv, escapeHtml_same_length. now rewrite H.
  - intros H. rewrite (escapeHtml_raw s H). exact (escapeHtml_raw s H).
Qed.

(** C3 fails on the string [&]: the first pass writes [&amp;], the second
    rewrites its [&] and gives [&amp;amp;]. *)
Lemma escapeHtml_not_idempotent :
  escapeHtml (lit "&") = lit "&amp;"
  /\ escapeHtml (escapeHtml (lit "&")) = lit "&amp;amp;"
  /\ escapeHtml (escapeHtml (lit "&")) <> escapeHtml (lit "&").
Proof. repeat split. discriminate. Qed.

(** ** Fixed inputs *)

(** C5, as the code has it: lexing [*outer **inner** outer*] gives three
    Italic tokens, [outer ], [inner] and [ outer].  The first span closes at
    the first [*]; the second [*] of each [**] then opens a span of its
    own. *)
Theorem nested_emphasis_tokens :
  tokens_of (lit "*outer **inner** outer*")
  = Ok [Tok ITALIC (lit "outer "); Tok ITALIC (lit "inner");
        Tok ITALIC (lit " outer")].
Proof. vm_compute. reflexivity. Qed.

(** C5 fails: the tokens after the first Italic token are not Text
    tokens. *)
Lemma nested_emphasis_rest_not_text :
  ~ exists rest : list Token,
      tokens_of (lit "*outer **inner** outer*")
      = Ok (Tok ITALIC (lit "outer ") :: rest)
      /\ Forall (fun token => getType token = TEXT) rest.
Proof.
  intros (rest & H & HT). vm_compute in H.
  injection H as <-. inversion HT as [|? ? Hty _]. discriminate Hty.
Qed.

(** C6. Rendering the mixed document [# Title\nSome **bold** text.\n- item]
    gives exactly a heading, a paragraph with the bold word and a list of
    one item:
    [<h1>Title</h1>\n<p>Some <strong>bold</strong> text.</p>\n<ul>\n<li>item</li>\n</ul>\n]. *)
Theorem mixed_document_html :
  parse (lit "# Title" ++ [LF] ++ lit "Some **bold** text." ++ [LF] ++ lit "- item")
  = Ok (lit "<h1>Title</h1>" ++ [LF]
        ++ lit "<p>Some <strong>bold</strong> text.</p>" ++ [LF]
        ++ lit "<ul>" ++ [LF]
        ++ lit "<li>item</li>" ++ [LF]
        ++ lit "</ul>" ++ [LF]).
Proof. vm_compute. reflexivity. Qed.

(** ** Plain text runs *)

Lemma neqb_true (a b : ascii) : neqb a b = true <-> a <> b.
Proof.
  unfold neqb. rewrite negb_true_iff. split.
  - intros H ->. now rewrite Ascii.eqb_refl in H.
  - intros H. now apply Ascii.eqb_neq.
Qed.

Lemma neqb_false (a b : ascii) : neqb a b = false <-> a = b.
Proof.
  unfold neqb. rewrite negb_false_iff. apply Ascii.eqb_eq.
Qed.

Lemma scan_text_run (r tail : str) :
  run_body r = true -> blank_or_end tail ->
  forall acc, scan_text acc (r ++ tail) = (acc ++ r, tail).
Proof.
  intros Hr Ht. induction r as [|c r IH]; intros acc.
  - rewrite app_nil_r. cbn [app].
    destruct Ht as [-> | (s' & ->)]; reflexivity.
  - cbn [run_body] in Hr.
    apply andb_true_iff in Hr. destruct Hr as [Hr Hb].
    apply andb_true_iff in Hr. destruct Hr as [Hc Hn].
    cbn [app scan_text]. unfold plain_char in Hc. rewrite Hc.
    assert (E : (c =? LF) && (head (r ++ tail) =? LF) = false).
    { destruct (c =? LF); [|reflexivity].
      destruct r as [|d r]; [discriminate|]. cbn.
      unfold neqb in Hn. now apply negb_true_iff in Hn. }
    rewrite E, IH by assumption. now rewrite <- app_assoc.
Qed.

Lemma run_body_last (r : str) (c : ascii) :
  run_body (r ++ [c]) = true -> neqb c LF = true.
Proof.
  induction r as [|x r IH]; cbn [app run_body]; intros H;
    apply andb_true_iff in H; destruct H as [H Hb];
    apply andb_true_iff in H; destruct H as [_ Hn].
  - unfold neqb. destruct (c =? LF); [discriminate|reflexivity].
  - now apply IH.
Qed.

Lemma trim_run_body (r : str) :
  run_body r = true -> trim_trailing_newlines r = r.
Proof.
  unfold trim_trailing_newlines.
  destruct r as [|c r _] using rev_ind; [reflexivity|].
  intros H. apply run_body_last in H. unfold neqb in H.
  apply negb_true_iff in H.
  rewrite rev_app_distr. cbn [rev app pop_back_newlines]. rewrite H.
  change (c :: rev r) with ([c] ++ rev r).
  now rewrite rev_app_distr, rev_involutive.
Qed.

Lemma plain_run_inv (r : str) :
  plain_run r = true ->
  run_body r = true /\ neqb (head r) LF = true /\ neqb (head r) NUL = true
  /\ is_markdown_char (head r) = false /\ r <> [].
Proof.
  destruct r as [|c r]; [discriminate|]. cbn [plain_run head hd].
  intros H. apply andb_true_iff in H. destruct H as [Hn Hb].
  repeat split; try assumption; try discriminate;
    cbn [run_body] in Hb; unfold plain_char in Hb;
    repeat (apply andb_true_iff in Hb; destruct Hb as [Hb ?]);
    try assumption.
  now apply negb_true_iff.
Qed.

Lemma scan_newlines_none (s : str) :
  neqb (head s) LF = true -> scan_newlines s = (None, s).
Proof.
  destruct s as [|c s]; [reflexivity|]. cbn [head hd scan_newlines].
  unfold neqb. intros H. apply negb_true_iff in H. now rewrite H.
Qed.

Lemma lex_dispatch_plain (s : str) :
  is_markdown_char (head s) = false ->
  lex_dispatch s
  = (Tok TEXT (trim_trailing_newlines (fst (scan_text [] s))), snd (scan_text [] s)).
Proof.
  unfold lex_dispatch, is_markdown_char. intros H.
  repeat (apply orb_false_iff in H; destruct H as [H ?]).
  repeat match goal with E : (_ =? _) = false |- _ => rewrite E; clear E end.
  reflexivity.
Qed.

Lemma head_app (r tail : str) : r <> [] -> head (r ++ tail) = head r.
Proof. destruct r; [contradiction|reflexivity]. Qed.

Lemma next_token_plain_run (r tail : str) :
  plain_run r = true -> blank_or_end tail ->
  next_token (r ++ tail) = (Tok TEXT r, tail).
Proof.
  intros Hr Ht. destruct (plain_run_inv r Hr) as (Hb & Hl & Hz & Hm & Hne).
  unfold next_token. rewrite head_app by assumption.
  unfold neqb in Hz. apply negb_true_iff in Hz. rewrite Hz.
  rewrite scan_newlines_none by now rewrite head_app.
  cbn [fst snd]. rewrite lex_dispatch_plain by now rewrite head_app.
  rewrite scan_text_run by assumption. cbn [fst snd app].
  now rewrite trim_run_body.
Qed.

Lemma next_token_after_blank_line (r : str) :
  plain_run r = true -> next_token (LF :: LF :: r) = (Tok TEXT r, []).
Proof.
  intros Hr. destruct (plain_run_inv r Hr) as (Hb & Hl & Hz & Hm & Hne).
  pose proof (next_token_plain_run r [] Hr (or_introl eq_refl)) as H.
  rewrite app_nil_r in H.
  unfold next_token in H |- *. cbn [head hd scan_newlines].
  change (LF =? NUL) with false. change (LF =? LF) with true.
  change (hd NUL r) with (head r).
  unfold neqb in Hz. apply negb_true_iff in Hz. rewrite Hz in H |- *.
  exact H.
Qed.

Lemma all_tokens_step (s : str) :
  all_tokens (length s) s
  = if isEOF (fst (next_token s)) then []
    else fst (next_token s)
         :: all_tokens (length (snd (next_token s))) (snd (next_token s)).
Proof.
  destruct s as [|c s]; [reflexivity|]. cbn [length all_tokens].
  destruct (isEOF (fst (next_token (c :: s)))) eqn:E; [reflexivity|].
  f_equal. apply all_tokens_bound; [|lia].
  apply next_token_progress in E. simpl in E. lia.
Qed.

Lemma all_tokens_plain_run (r : str) :
  plain_run r = true -> all_tokens (length r) r = [Tok TEXT r].
Proof.
  intros Hr. rewrite all_tokens_step.
  pose proof (next_token_plain_run r [] Hr (or_introl eq_refl)) as H.
  rewrite app_nil_r in H. rewrite H. reflexivity.
Qed.

Lemma tokensToHtml_one_text (v : str) :
  tokensToHtml [Tok TEXT v] = Ok (lit "<p>" ++ escapeHtml v ++ lit "</p>" ++ [LF]).
Proof. reflexivity. Qed.

(** C4, as the code has it: an input that is a plain text run (not empty,
    without marker characters and NUL bytes, with no newline at either end
    and no blank line) is rendered as its escaped text in one paragraph. *)
Theorem plain_run_paragraph (r : str) :
  plain_run r = true ->
  parse r = Ok (lit "<p>" ++ escapeHtml r ++ lit "</p>" ++ [LF]).
Proof.
  intros Hr. rewrite parse_all_tokens, all_tokens_plain_run by assumption.
  apply tokensToHtml_one_text.
Qed.

Lemma plain_run_paragraph_witness :
  parse (lit "Tom & Jerry") = Ok (lit "<p>Tom &amp; Jerry</p>" ++ [LF]).
Proof. apply (plain_run_paragraph (lit "Tom & Jerry")). reflexivity. Defined.

(** C4 fails on [a\n\nb], which is not empty, not only whitespace and has
    no marker character: the blank line is not in the output. *)
Lemma plain_text_blank_line_lost :
  let input := lit "a" ++ [LF; LF] ++ lit "b" in
  input <> []
  /\ forallb isspace input = false
  /\ existsb is_markdown_char input = false
  /\ parse input = Ok (lit "<p>ab</p>" ++ [LF])
  /\ parse input <> Ok (lit "<p>" ++ escapeHtml input ++ lit "</p>" ++ [LF]).
Proof. cbv zeta. repeat split; discriminate. Qed.

(** C10. Two plain text runs separated by a blank line give two Text
    tokens and one paragraph that holds both runs, escaped and joined, with
    the two newlines dropped; for [a\n\nb] it is [<p>ab</p>\n]. *)
Theorem blank_line_joins_runs (r1 r2 : str) :
  plain_run r1 = true -> plain_run r2 = true ->
  tokens_of (r1 ++ [LF; LF] ++ r2) = Ok [Tok TEXT r1; Tok TEXT r2]
  /\ parse (r1 ++ [LF; LF] ++ r2)
     = Ok (lit "<p>" ++ escapeHtml r1 ++ escapeHtml r2 ++ lit "</p>" ++ [LF]).
Proof.
  intros H1 H2.
  assert (E : all_tokens (length (r1 ++ [LF; LF] ++ r2)) (r1 ++ [LF; LF] ++ r2)
              = [Tok TEXT r1; Tok TEXT r2]).
  { rewrite all_tokens_step.
    rewrite next_token_plain_run by (try assumption; right; cbn; eauto).
    cbn [fst snd isEOF Tok app]. f_equal.
    rewrite all_tokens_step, next_token_after_blank_line by assumption.
    reflexivity. }
  split.
  - now rewrite tokens_of_all_tokens, E.
  - rewrite parse_all_tokens, E. cbn. now rewrite <- !app_assoc.
Qed.

Lemma blank_line_joins_runs_witness :
  tokens_of (lit "a" ++ [LF; LF] ++ lit "b") = Ok [Tok TEXT (lit "a"); Tok TEXT (lit "b")]
  /\ parse (lit "a" ++ [LF; LF] ++ lit "b") = Ok (lit "<p>ab</p>" ++ [LF]).
Proof. apply (blank_line_joins_runs (lit "a") (lit "b")); reflexivity. Defined.

(** ** Lines *)

Lemma scan_until_free (delimiter : ascii) (a tail : str) :
  free_of delimiter a = true -> stops_at delimiter tail = true ->
  scan_until delimiter (a ++ tail) = (a, tail).
Proof.
  intros Ha Ht. induction a as [|c a IH]; cbn [app].
  - destruct tail as [|x tail]; [reflexivity|]. cbn [scan_until].
    unfold stops_at in Ht. cbn [head hd] in Ht.
    apply negb_true_iff in Ht. now rewrite Ht.
  - cbn [free_of forallb] in Ha. apply andb_true_iff in Ha.
    destruct Ha as [Hc Ha]. cbn [scan_until]. rewrite Hc.
    now rewrite IH by assumption.
Qed.

Lemma free_of_repeat_hash (n : nat) : free_of LF (repeat "#" n) = true.
Proof. induction n; [reflexivity|exact IHn]. Qed.

Lemma free_of_app (delimiter : ascii) (a b : str) :
  free_of delimiter (a ++ b) = free_of delimiter a && free_of delimiter b.
Proof. apply forallb_app. Qed.

Lemma scan_hashes_repeat (x : str) :
  neqb (head x) "#" = true ->
  forall (j : nat) (level : Z),
    (level <= 6)%Z ->
    scan_hashes level (repeat "#" j ++ x)
    = ((level + Z.of_nat (Nat.min j (Z.to_nat (6 - level))))%Z,
       repeat "#" (j - Z.to_nat (6 - level)) ++ x).
Proof.
  intros Hx. induction j as [|j IH]; intros level Hl.
  - cbn [repeat app Nat.min Nat.sub Z.of_nat]. rewrite Z.add_0_r.
    destruct x as [|c x]; [reflexivity|]. cbn [scan_hashes].
    cbn [head hd] in Hx. unfold neqb in Hx. apply negb_true_iff in Hx.
    now rewrite Hx.
  - cbn [repeat app scan_hashes]. change ("#" =? "#") with true. cbn [andb].
    destruct (Z.ltb_spec level 6) as [Hlt|Hge].
    + rewrite IH by lia.
      replace (Z.to_nat (6 - level)) with (S (Z.to_nat (6 - (level + 1)))) by lia.
      cbn [Nat.min Nat.sub]. f_equal. lia.
    + replace (Z.to_nat (6 - level)) with 0 by lia.
      cbn [Nat.min Nat.sub Z.of_nat repeat app]. now rewrite Z.add_0_r.
Qed.

Lemma lex_heading_no_space (k : nat) (rest tail : str) :
  free_of LF rest = true -> neqb (head rest) "#" = true ->
  isspace (head (rest ++ tail)) = false -> stops_at LF tail = true ->
  lex_heading (repeat "#" (S k) ++ rest ++ tail)
  = (Tok TEXT (repeat "#" (S k) ++ rest), drop_newline tail).
Proof.
  intros Hr Hh Hs Ht. unfold lex_heading. cbn [repeat app tl].
  assert (Hx : neqb (head (rest ++ tail)) "#" = true).
  { destruct rest as [|c rest]; [|exact Hh]. cbn [app].
    unfold stops_at in Ht. apply negb_true_iff in Ht.
    unfold neqb in *. destruct (head tail =? "#") eqn:E; [|reflexivity].
    apply Ascii.eqb_eq in E. rewrite E in Ht. discriminate. }
  rewrite (scan_hashes_repeat (rest ++ tail) Hx k 1) by lia. cbn [fst snd].
  change (Z.to_nat (6 - 1)) with 5.
  assert (Hsp : isspace (head (repeat "#" (k - 5) ++ rest ++ tail)) = false).
  { destruct (k - 5); [exact Hs|reflexivity]. }
  rewrite Hsp. cbn [negb].
  rewrite app_assoc, scan_until_free;
    [| rewrite free_of_app, free_of_repeat_hash; exact Hr | exact Ht].
  cbn [fst snd]. f_equal. f_equal. unfold hashes.
  rewrite app_assoc, <- repeat_app.
  replace (Z.to_nat (1 + Z.of_nat (Nat.min k 5)) + (k - 5)) with (S k) by lia.
  reflexivity.
Qed.

Lemma next_token_heading_no_space (k : nat) (rest tail : str) :
  free_of LF rest = true -> neqb (head rest) "#" = true ->
  isspace (head (rest ++ tail)) = false -> stops_at LF tail = true ->
  next_token (repeat "#" (S k) ++ rest ++ tail)
  = (Tok TEXT (repeat "#" (S k) ++ rest), drop_newline tail).
Proof.
  intros Hr Hh Hs Ht. rewrite <- lex_heading_no_space by assumption.
  reflexivity.
Qed.

(** ** Tags in the output *)

Lemma lt_never_before_app (d : ascii) (a b : str) :
  lt_never_before d a = true -> lt_never_before d b = true ->
  lt_never_before d (a ++ b) = true.
Proof.
  intros Ha Hb. induction a as [|c a IH]; [exact Hb|].
  cbn [app lt_never_before] in *. apply andb_true_iff in Ha.
  destruct Ha as [Hc Ha]. rewrite IH by assumption. rewrite andb_true_r.
  destruct (c =? "<"); [|reflexivity]. destruct a; [discriminate|exact Hc].
Qed.

Lemma lt_never_before_suffix (d : ascii) (a b : str) :
  lt_never_before d (a ++ b) = true -> lt_never_before d b = true.
Proof.
  induction a as [|c a IH]; [trivial|]. cbn [app lt_never_before].
  intros H. apply andb_true_iff in H. now apply IH.
Qed.

Lemma lt_never_before_occurs (d : ascii) (p s : str) :
  lt_never_before d s = true -> ~ occurs_in ("<" :: d :: p) s.
Proof.
  intros H (a & b & ->). apply lt_never_before_suffix in H.
  cbn in H. unfold neqb in H. rewrite Ascii.eqb_refl in H. discriminate.
Qed.

Lemma no_lt_never_before (d : ascii) (s : str) :
  no_lt s = true -> lt_never_before d s = true.
Proof.
  induction s as [|c s IH]; [reflexivity|]. cbn [no_lt forallb lt_never_before].
  intros H. apply andb_true_iff in H. destruct H as [Hc Hs].
  unfold neqb in Hc. apply negb_true_iff in Hc. rewrite Hc. now apply IH.
Qed.

Lemma no_lt_app (a b : str) : no_lt (a ++ b) = no_lt a && no_lt b.
Proof. apply forallb_app. Qed.

Lemma escape_char_no_lt (c : ascii) : no_lt (escape_char c) = true.
Proof.
  unfold escape_char. destruct (c =? "<") eqn:E; [reflexivity|].
  destruct (c =? ">"); [reflexivity|]. destruct (c =? "&"); [reflexivity|].
  destruct (c =? DQUOTE); [reflexivity|].
  cbn. unfold neqb. now rewrite E.
Qed.

Lemma escapeHtml_no_lt (s : str) : no_lt (escapeHtml s) = true.
Proof.
  induction s as [|c s IH]; [reflexivity|]. cbn [escapeHtml].
  now rewrite no_lt_app, escape_char_no_lt, IH.
Qed.

Lemma paragraph_of_text_no_tag (d : ascii) (v : str) :
  neqb "p" d = true -> neqb "/" d = true ->
  lt_never_before d (lit "<p>" ++ escapeHtml v ++ lit "</p>" ++ [LF]) = true.
Proof.
  intros Hp Hs. apply lt_never_before_app; [cbn; now rewrite Hp|].
  apply lt_never_before_app; [apply no_lt_never_before, escapeHtml_no_lt|].
  cbn. now rewrite Hs.
Qed.

Lemma all_tokens_single (s : str) (token : Token) :
  next_token s = (token, []) -> isEOF token = false ->
  all_tokens (length s) s = [token].
Proof.
  intros H He. rewrite all_tokens_step, H. cbn [fst snd]. now rewrite He.
Qed.

Lemma cursor_lexer_at (consumed s : str) :
  cursor (consumed ++ s) s = lexer_at (consumed ++ s) (length consumed).
Proof. unfold cursor. f_equal. rewrite length_app. lia. Qed.

(** C8. A line that begins with a run of [#] not followed by whitespace,
    [#Invalid] for one, is lexed as one Text token that holds the run and
    the rest of the line (up to the line break, or to the end of input:
    the end of the text or a NUL byte); the cursor is then past the line
    break.  An input that is just this line is rendered as this text,
    escaped, in a paragraph, and the output has no heading tag. *)
Theorem heading_without_space_is_text (k : nat) (rest tail : str) :
  free_of LF rest = true ->
  neqb (head rest) "#" = true ->
  isspace (head (rest ++ tail)) = false ->
  stops_at LF tail = true ->
  let line := repeat "#" (S k) ++ rest in
  (forall fuel, length (line ++ tail) < fuel ->
     get_next_token fuel (Lexer_new (line ++ tail))
     = Ok (Tok TEXT line,
           lexer_at (line ++ tail)
             (length line + (if head tail =? LF then 1 else 0))))
  /\ parse line = Ok (lit "<p>" ++ escapeHtml line ++ lit "</p>" ++ [LF])
  /\ forall html, parse line = Ok html -> ~ occurs_in (lit "<h") html.
Proof.
  intros Hr Hh Hs Ht line.
  assert (E : parse line = Ok (lit "<p>" ++ escapeHtml line ++ lit "</p>" ++ [LF])).
  { rewrite parse_all_tokens.
    rewrite (all_tokens_single line (Tok TEXT line));
      [apply tokensToHtml_one_text | | reflexivity].
    subst line.
    pose proof (next_token_heading_no_space k rest [] Hr Hh) as H.
    rewrite !app_nil_r in H. apply H; [|reflexivity].
    destruct rest as [|c rest]; [reflexivity|].
    rewrite <- Hs. reflexivity. }
  split; [|split].
  - intros fuel Hf. rewrite Lexer_new_cursor.
    rewrite get_next_token_lex by (auto using is_suffix_refl).
    subst line. rewrite <- app_assoc.
    rewrite next_token_heading_no_space by assumption. cbn [fst snd].
    f_equal. f_equal. rewrite app_assoc.
    unfold drop_newline. destruct (head tail =? LF) eqn:El.
    + destruct tail as [|c tail]; [discriminate|]. cbn [tl head hd] in *.
      replace ((repeat "#" (S k) ++ rest) ++ c :: tail)
        with (((repeat "#" (S k) ++ rest) ++ [c]) ++ tail)
        by now rewrite <- app_assoc.
      rewrite cursor_lexer_at. f_equal. rewrite length_app. reflexivity.
    + rewrite cursor_lexer_at. f_equal. lia.
  - exact E.
  - intros html H. rewrite E in H. injection H as <-.
    apply (lt_never_before_occurs "h" []).
    now apply paragraph_of_text_no_tag.
Qed.

Lemma heading_without_space_is_text_witness :
  (forall fuel, length (lit "#Invalid") < fuel ->
     get_next_token fuel (Lexer_new (lit "#Invalid"))
     = Ok (Tok TEXT (lit "#Invalid"), lexer_at (lit "#Invalid") 8))
  /\ parse (lit "#Invalid") = Ok (lit "<p>#Invalid</p>" ++ [LF])
  /\ forall html, parse (lit "#Invalid") = Ok html -> ~ occurs_in (lit "<h") html.
Proof.
  apply (heading_without_space_is_text 0 (lit "Invalid") []); reflexivity.
Defined.

(** ** Links *)

Lemma head_app_bracket (t more : str) :
  (head (t ++ "]" :: more) =? "[") = (head t =? "[").
Proof. destruct t; reflexivity. Qed.

Lemma scan_link_text_ok (more : str) :
  forall (m : nat) (t : str) (depth : nat) (text : str),
    length t <= m -> link_text_ok depth t = true ->
    scan_link_text text (Z.of_nat (S depth)) (t ++ "]" :: more)
    = ((text ++ unescape_brackets t, 0%Z), more).
Proof.
  induction m as [|m IH]; intros [|c t] depth text Hm Hok;
    try (simpl in Hm; lia).
  - cbn [link_text_ok] in Hok. apply Nat.eqb_eq in Hok. subst depth.
    cbn. now rewrite app_nil_r.
  - cbn [link_text_ok] in Hok. apply Nat.eqb_eq in Hok. subst depth.
    cbn. now rewrite app_nil_r.
  - cbn [link_text_ok] in Hok. apply andb_true_iff in Hok.
    destruct Hok as [Hc Hok].
    cbn [app scan_link_text unescape_brackets]. rewrite Hc.
    rewrite head_app_bracket.
    destruct ((c =? BACKSLASH) && (head t =? "[")) eqn:E.
    + destruct t as [|d t]; [discriminate|]. cbn [app].
      rewrite IH by (try assumption; simpl in Hm; lia).
      cbn [head hd] in E. apply andb_true_iff in E. destruct E as [_ E].
      now rewrite <- app_assoc.
    + destruct (c =? "[") eqn:Eo.
      * apply Ascii.eqb_eq in Eo. subst c. change ("[" =? "]") with false.
        cbn [andb].
        replace (Z.of_nat (S depth) + 1)%Z with (Z.of_nat (S (S depth))) by lia.
        rewrite IH by (try assumption; simpl in Hm; lia).
        now rewrite <- app_assoc.
      * destruct (c =? "]") eqn:Ec.
        -- destruct depth as [|depth]; [discriminate|].
           replace (Z.of_nat (S (S depth)) - 1)%Z with (Z.of_nat (S depth)) by lia.
           replace (Z.of_nat (S depth) =? 0)%Z with false
             by (symmetry; apply Z.eqb_neq; lia).
           cbn [andb].
           rewrite IH by (try assumption; simpl in Hm; lia).
           now rewrite <- app_assoc.
        -- cbn [andb].
           rewrite IH by (try assumption; simpl in Hm; lia).
           now rewrite <- app_assoc.
Qed.

Lemma stops_at_LF_inv (tail : str) :
  stops_at LF tail = true -> head tail = NUL \/ head tail = LF.
Proof.
  unfold stops_at. intros H. apply negb_true_iff in H.
  apply andb_false_iff in H. destruct H as [H|H].
  - apply andb_false_iff in H. destruct H as [H|H]; apply neqb_false in H; auto.
  - apply neqb_false in H; auto.
Qed.

Lemma lex_link_unclosed_url (t u tail : str) :
  link_text_ok 0 t = true -> free_of ")" u = true -> stops_at LF tail = true ->
  lex_link ("[" :: t ++ lit "](" ++ u ++ tail)
  = (Tok TEXT (lit "[" ++ unescape_brackets t ++ lit "](" ++ u), tail).
Proof.
  intros Ht Hu Hl. unfold lex_link. cbn [tl].
  change (lit "](" ++ u ++ tail) with ("]" :: "(" :: u ++ tail).
  pose proof (scan_link_text_ok ("(" :: u ++ tail) (length t) t 0 []
                (le_n _) Ht) as Hscan.
  change (Z.of_nat 1) with 1%Z in Hscan. rewrite Hscan.
  cbn [fst snd app head hd tl]. change (0 >? 0)%Z with false.
  change (neqb "(" "(") with false. cbv iota.
  assert (Hs : stops_at ")" tail = true).
  { unfold stops_at. destruct (stops_at_LF_inv tail Hl) as [-> | ->]; reflexivity. }
  rewrite scan_until_free by assumption. cbn [fst snd].
  assert (Hn : neqb (head tail) ")" = true).
  { destruct (stops_at_LF_inv tail Hl) as [-> | ->]; reflexivity. }
  rewrite Hn. reflexivity.
Qed.

Lemma next_token_unclosed_url (t u tail : str) :
  link_text_ok 0 t = true -> free_of ")" u = true -> stops_at LF tail = true ->
  next_token ("[" :: t ++ lit "](" ++ u ++ tail)
  = (Tok TEXT (lit "[" ++ unescape_brackets t ++ lit "](" ++ u), tail).
Proof.
  intros Ht Hu Hl. rewrite <- lex_link_unclosed_url by assumption. reflexivity.
Qed.

Lemma unescape_brackets_no_backslash (t : str) :
  existsb (Ascii.eqb BACKSLASH) t = false -> unescape_brackets t = t.
Proof.
  induction t as [|c t IH]; [reflexivity|]. cbn [existsb unescape_brackets].
  intros H. apply orb_false_iff in H. destruct H as [Hc Ht].
  rewrite Ascii.eqb_sym in Hc. rewrite Hc. cbn [andb]. now rewrite IH.
Qed.

(** C9. A link whose bracketed text [t] is balanced and followed by [(],
    and whose URL part [u] runs to the end of the line or of the input
    without a [)], is lexed as one Text token with payload [[t](u], where an
    escaped bracket [\[] of [t] is written [[]; without a backslash in [t]
    the payload is the source text itself.  The cursor is then behind [u].
    An input that is just this link is rendered as the payload, escaped, in
    a paragraph, with no [<a] tag. *)
Theorem unclosed_link_url_is_text (t u tail : str) :
  link_text_ok 0 t = true ->
  free_of ")" u = true ->
  stops_at LF tail = true ->
  let source := lit "[" ++ t ++ lit "](" ++ u in
  let payload := lit "[" ++ unescape_brackets t ++ lit "](" ++ u in
  (forall fuel, length (source ++ tail) < fuel ->
     get_next_token fuel (Lexer_new (source ++ tail))
     = Ok (Tok TEXT payload, lexer_at (source ++ tail) (length source)))
  /\ parse source = Ok (lit "<p>" ++ escapeHtml payload ++ lit "</p>" ++ [LF])
  /\ (forall html, parse source = Ok html -> ~ occurs_in (lit "<a") html)
  /\ (existsb (Ascii.eqb BACKSLASH) t = false -> payload = source).
Proof.
  intros Ht Hu Hl source payload.
  assert (Es : forall tail', source ++ tail' = "[" :: t ++ lit "](" ++ u ++ tail').
  { intros tail'. subst source. cbn [lit list_ascii_of_string app].
    now rewrite <- !app_assoc. }
  assert (E : parse source
              = Ok (lit "<p>" ++ escapeHtml payload ++ lit "</p>" ++ [LF])).
  { rewrite parse_all_tokens.
    rewrite (all_tokens_single source (Tok TEXT payload));
      [apply tokensToHtml_one_text | | reflexivity].
    rewrite <- (app_nil_r source), Es.
    now apply next_token_unclosed_url. }
  repeat split.
  - intros fuel Hf. rewrite Lexer_new_cursor.
    rewrite get_next_token_lex by (auto using is_suffix_refl).
    replace (next_token (source ++ tail)) with (Tok TEXT payload, tail)
      by (rewrite Es; symmetry; now apply next_token_unclosed_url).
    cbn [fst snd]. now rewrite cursor_lexer_at.
  - exact E.
  - intros html H. rewrite E in H. injection H as <-.
    apply (lt_never_before_occurs "a" []).
    now apply paragraph_of_text_no_tag.
  - intros Hb. subst payload source.
    now rewrite unescape_brackets_no_backslash.
Qed.

Lemma unclosed_link_url_is_text_witness :
  (forall fuel, length (lit "[a](http://x") < fuel ->
     get_next_token fuel (Lexer_new (lit "[a](http://x"))
     = Ok (Tok TEXT (lit "[a](http://x"), lexer_at (lit "[a](http://x") 12))
  /\ parse (lit "[a](http://x") = Ok (lit "<p>[a](http://x</p>" ++ [LF])
  /\ (forall html, parse (lit "[a](http://x") = Ok html ->
      ~ occurs_in (lit "<a") html)
  /\ (existsb (Ascii.eqb BACKSLASH) (lit "a") = false ->
      lit "[a](http://x" = lit "[a](http://x").
Proof.
  apply (unclosed_link_url_is_text (lit "a") (lit "http://x") []); reflexivity.
Defined.

(** ** Inputs without a closing double asterisk *)

Lemma no_double_star_suffix (a b : str) :
  is_suffix a b -> no_double_star b = true -> no_double_star a = true.
Proof.
  intros [pre ->]. induction pre as [|c pre IH]; [trivial|].
  cbn [app no_double_star]. intros H. apply andb_true_iff in H. now apply IH.
Qed.

Lemma no_double_star_head (s : str) :
  no_double_star s = true -> (head s =? "*") && (head (tl s) =? "*") = false.
Proof.
  destruct s as [|c s]; [reflexivity|]. cbn [no_double_star head hd tl].
  intros H. apply andb_true_iff in H. destruct H as [H _].
  now apply negb_true_iff in H.
Qed.

Lemma heading_token_not_bold (level : Z) (content : str) :
  not_bold (heading_token level content).
Proof.
  unfold not_bold, heading_token.
  repeat match goal with
         | |- context [match ?x with _ => _ end] => destruct x
         end; discriminate.
Qed.

Lemma lex_heading_not_bold (s : str) : not_bold (fst (lex_heading s)).
Proof.
  unfold lex_heading.
  destruct (negb (isspace (head (snd (scan_hashes 1 (tl s)))))); cbn [fst].
  - discriminate.
  - apply heading_token_not_bold.
Qed.

Lemma scan_italic_not_bold (s content : str) :
  not_bold (fst (scan_italic content s)).
Proof.
  revert content. induction s as [|c s IH]; intros content; cbn [scan_italic].
  - discriminate.
  - destruct (neqb c NUL && neqb c LF); [|discriminate].
    destruct (c =? "*"); [discriminate|apply IH].
Qed.

Lemma lex_link_not_bold (s : str) : not_bold (fst (lex_link s)).
Proof.
  unfold lex_link.
  repeat match goal with |- context [if ?b then _ else _] => destruct b end;
    discriminate.
Qed.

Lemma lex_image_not_bold (s : str) : not_bold (fst (lex_image s)).
Proof.
  unfold lex_image.
  repeat match goal with |- context [if ?b then _ else _] => destruct b end;
    discriminate.
Qed.

Lemma lex_list_not_bold (s : str) : not_bold (fst (lex_list s)).
Proof.
  unfold lex_list. destruct (negb (isspace (head (tl s)))); discriminate.
Qed.

Lemma lex_emphasis_not_bold (s : str) :
  (head (tl s) =? "*") = false -> not_bold (fst (lex_emphasis s)).
Proof.
  unfold lex_emphasis. intros ->. apply scan_italic_not_bold.
Qed.

Lemma lex_dispatch_not_bold (s : str) :
  no_double_star s = true -> not_bold (fst (lex_dispatch s)).
Proof.
  intros H. unfold lex_dispatch.
  destruct (head s =? "#"); [apply lex_heading_not_bold|].
  destruct (head s =? "*") eqn:E.
  { apply lex_emphasis_not_bold. apply no_double_star_head in H.
    now rewrite E in H. }
  destruct (head s =? "["); [apply lex_link_not_bold|].
  destruct (head s =? "!"); [apply lex_image_not_bold|].
  destruct (head s =? "-"); [apply lex_list_not_bold|].
  discriminate.
Qed.

Lemma scan_newlines_eof (s : str) (token : Token) :
  fst (scan_newlines s) = Some token -> token = createEOF.
Proof.
  induction s as [|c s IH]; cbn [scan_newlines]; [discriminate|].
  destruct (c =? LF); [|discriminate].
  destruct (head s =? NUL); [|exact IH].
  cbn. now intros [= <-].
Qed.

Lemma next_token_not_bold (s : str) :
  no_double_star s = true -> not_bold (fst (next_token s)).
Proof.
  intros H. unfold next_token.
  destruct (head s =? NUL); [discriminate|].
  destruct (fst (scan_newlines s)) as [eof|] eqn:E; cbn [fst].
  - apply scan_newlines_eof in E. subst eof. discriminate.
  - apply lex_dispatch_not_bold.
    apply (no_double_star_suffix _ s); [suffix_ok | exact H].
Qed.

Lemma all_tokens_not_bold (n : nat) :
  forall s : str, no_double_star s = true -> Forall not_bold (all_tokens n s).
Proof.
  induction n as [|n IH]; intros s H; cbn [all_tokens]; [constructor|].
  destruct (isEOF (fst (next_token s))); constructor.
  - now apply next_token_not_bold.
  - apply IH. apply (no_double_star_suffix _ s); [suffix_ok | exact H].
Qed.

Lemma next_token_unclosed_bold (content tail : str) :
  free_of "*" content = true -> stops_at "*" tail = true ->
  (head tail =? "*") && (head (tl tail) =? "*") = false ->
  next_token (lit "**" ++ content ++ tail)
  = (Tok TEXT (lit "**" ++ content ++ (if head tail =? "*" then lit "*" else [])),
     tail).
Proof.
  intros Hc Ht Hd. unfold next_token. cbn [lit list_ascii_of_string app head hd].
  change ("*" =? NUL) with false. cbv iota. cbn [scan_newlines].
  change ("*" =? LF) with false. cbv iota. cbn [fst snd].
  unfold lex_dispatch. cbn [head hd]. change ("*" =? "#") with false.
  change ("*" =? "*") with true. cbv iota.
  unfold lex_emphasis. cbn [tl head hd]. change ("*" =? "*") with true. cbv iota.
  rewrite scan_until_free by assumption. cbn [fst snd]. now rewrite Hd.
Qed.

(** ** The output of token lists without a Bold token *)

Lemma no_lt_firstn (n : nat) (s : str) : no_lt s = true -> no_lt (firstn n s) = true.
Proof.
  revert n. induction s as [|c s IH]; intros [|n]; try reflexivity.
  cbn [firstn no_lt forallb]. intros H. apply andb_true_iff in H.
  destruct H as [-> H]. now apply IH.
Qed.

Lemma no_lt_skipn (n : nat) (s : str) : no_lt s = true -> no_lt (skipn n s) = true.
Proof.
  revert n. induction s as [|c s IH]; intros [|n]; try trivial.
  cbn [skipn no_lt forallb]. intros H. apply andb_true_iff in H.
  destruct H as [_ H]. now apply IH.
Qed.

Lemma substr_no_lt (s r : str) (p count : Z) :
  substr s p count = Ok r -> no_lt s = true -> no_lt r = true.
Proof.
  unfold substr. destruct (Z.of_nat (length s) <? p)%Z; [discriminate|].
  intros [= <-] H. now apply no_lt_firstn, no_lt_skipn.
Qed.

Ltac no_strong_pieces :=
  repeat first
    [ assumption
    | reflexivity
    | apply lt_never_before_app
    | apply no_lt_never_before; first [assumption | apply escapeHtml_no_lt] ].

Lemma tokenToHtml_no_strong (token : Token) (html : str) :
  tokenToHtml token = Ok html -> not_bold token ->
  lt_never_before "s" html = true.
Proof.
  unfold tokenToHtml, not_bold. intros H Hb.
  destruct (getType token); try contradiction;
    try (injection H as <-; no_strong_pieces).
  - destruct (substr (escapeHtml (getValue token)) 0 _) as [a| |] eqn:Ea;
      try discriminate.
    destruct (substr (escapeHtml (getValue token)) (size_add _ 1) npos)
      as [b| |] eqn:Eb; try discriminate.
    cbn [rbind] in H. injection H as <-.
    apply substr_no_lt in Ea; [|apply escapeHtml_no_lt].
    apply substr_no_lt in Eb; [|apply escapeHtml_no_lt].
    no_strong_pieces.
  - destruct (substr (escapeHtml (getValue token)) 0 _) as [a| |] eqn:Ea;
      try discriminate.
    destruct (substr (escapeHtml (getValue token)) (size_add _ 1) npos)
      as [b| |] eqn:Eb; try discriminate.
    cbn [rbind] in H. injection H as <-.
    apply substr_no_lt in Ea; [|apply escapeHtml_no_lt].
    apply substr_no_lt in Eb; [|apply escapeHtml_no_lt].
    no_strong_pieces.
Qed.

Lemma wrap_list_no_strong (type : TokenType) (r : RenderState) :
  lt_never_before "s" (output r) = true ->
  lt_never_before "s" (output (wrap_list type r)) = true.
Proof.
  intros H. unfold wrap_list.
  destruct (TokenType_eqb type LIST), (inParagraph r) eqn:Ep, (inList r) eqn:El;
    cbn; rewrite ?El; cbn; no_strong_pieces.
Qed.

Lemma wrap_paragraph_no_strong (type : TokenType) (r : RenderState) :
  lt_never_before "s" (output r) = true ->
  lt_never_before "s" (output (wrap_paragraph type r)) = true.
Proof.
  intros H. unfold wrap_paragraph.
  repeat match goal with |- context [if ?b then _ else _] => destruct b end;
    cbn; no_strong_pieces.
Qed.

Lemma close_paragraph_no_strong (next : list Token) (r : RenderState) :
  lt_never_before "s" (output r) = true ->
  lt_never_before "s" (output (close_paragraph next r)) = true.
Proof.
  intros H. unfold close_paragraph.
  repeat match goal with |- context [if ?b then _ else _] => destruct b end;
    cbn; no_strong_pieces.
Qed.

Lemma tokensToHtml_loop_no_strong (tokens : list Token) :
  forall r r',
    tokensToHtml_loop tokens r = Ok r' -> Forall not_bold tokens ->
    lt_never_before "s" (output r) = true ->
    lt_never_before "s" (output r') = true.
Proof.
  induction tokens as [|token next IH]; intros r r' H Hb Hr;
    cbn [tokensToHtml_loop] in H.
  - now injection H as <-.
  - inversion Hb as [|? ? Hb1 Hb2]; subst.
    destruct (tokenToHtml token) as [html| |] eqn:E; try discriminate.
    cbn [rbind] in H. apply (IH _ _ H Hb2).
    apply close_paragraph_no_strong. cbn [emit output].
    apply lt_never_before_app.
    + now apply wrap_paragraph_no_strong, wrap_list_no_strong.
    + now apply (tokenToHtml_no_strong token).
Qed.

Lemma tokensToHtml_no_strong (tokens : list Token) (html : str) :
  tokensToHtml tokens = Ok html -> Forall not_bold tokens ->
  ~ occurs_in (lit "<strong>") html.
Proof.
  unfold tokensToHtml. intros H Hb.
  destruct (tokensToHtml_loop tokens _) as [r| |] eqn:E; try discriminate.
  cbn [rbind] in H. injection H as <-.
  apply (lt_never_before_occurs "s" (lit "trong>")).
  apply tokensToHtml_loop_no_strong in E; [|assumption|reflexivity].
  destruct (inList r), (inParagraph r) eqn:Ep; cbn; rewrite ?Ep; cbn;
    no_strong_pieces.
Qed.

(** ** The output only grows *)

Lemma wrap_list_extends (type : TokenType) (r : RenderState) :
  exists more, output (wrap_list type r) = output r ++ more.
Proof.
  unfold wrap_list.
  destruct (TokenType_eqb type LIST), (inParagraph r) eqn:Ep, (inList r) eqn:El;
    cbn; rewrite ?El; cbn; rewrite <- ?app_assoc;
    try (eexists; reflexivity);
    exists []; now rewrite app_nil_r.
Qed.

Lemma wrap_paragraph_extends (type : TokenType) (r : RenderState) :
  exists more, output (wrap_paragraph type r) = output r ++ more.
Proof.
  unfold wrap_paragraph.
  repeat match goal with |- context [if ?b then _ else _] => destruct b end;
    cbn; try (eexists; reflexivity); exists []; now rewrite app_nil_r.
Qed.

Lemma close_paragraph_extends (next : list Token) (r : RenderState) :
  exists more, output (close_paragraph next r) = output r ++ more.
Proof.
  unfold close_paragraph.
  repeat match goal with |- context [if ?b then _ else _] => destruct b end;
    cbn; try (eexists; reflexivity); exists []; now rewrite app_nil_r.
Qed.

Lemma tokensToHtml_loop_extends (tokens : list Token) :
  forall r r',
    tokensToHtml_loop tokens r = Ok r' ->
    exists more, output r' = output r ++ more.
Proof.
  induction tokens as [|token next IH]; intros r r' H;
    cbn [tokensToHtml_loop] in H.
  - injection H as <-. exists []. now rewrite app_nil_r.
  - destruct (tokenToHtml token) as [html| |] eqn:E; try discriminate.
    cbn [rbind] in H. destruct (IH _ _ H) as [m1 ->].
    destruct (close_paragraph_extends next
                (emit html (wrap_paragraph (getType token)
                              (wrap_list (getType token) r)))) as [m2 ->].
    cbn [emit output].
    destruct (wrap_paragraph_extends (getType token)
                (wrap_list (getType token) r)) as [m3 ->].
    destruct (wrap_list_extends (getType token) r) as [m4 ->].
    rewrite <- !app_assoc. eexists; reflexivity.
Qed.

Lemma tokensToHtml_text_first (v : str) (others : list Token) (html : str) :
  tokensToHtml (Tok TEXT v :: others) = Ok html ->
  exists more, html = lit "<p>" ++ escapeHtml v ++ more.
Proof.
  unfold tokensToHtml. cbn [tokensToHtml_loop].
  change (tokenToHtml (Tok TEXT v)) with (Ok (escapeHtml v)). cbn [rbind].
  set (r1 := close_paragraph others _).
  assert (H1 : exists m, output r1 = lit "<p>" ++ escapeHtml v ++ m).
  { subst r1. unfold close_paragraph. cbn.
    destruct others as [|next others]; [|destruct (isBlockElement (getType next))];
      cbn; try (eexists; reflexivity).
    exists []. now rewrite app_nil_r. }
  destruct H1 as [m1 H1]. clearbody r1.
  destruct (tokensToHtml_loop others r1) as [r| |] eqn:E; try discriminate.
  apply tokensToHtml_loop_extends in E. destruct E as [m2 E].
  cbn [rbind]. intros [= <-].
  destruct (inList r), (inParagraph r) eqn:Ep; cbn; rewrite ?Ep; cbn;
    rewrite E, H1; rewrite <- ?app_assoc; cbn [app]; eexists; reflexivity.
Qed.

Lemma scan_until_spec (delimiter : ascii) (s : str) :
  s = fst (scan_until delimiter s) ++ snd (scan_until delimiter s)
  /\ free_of delimiter (fst (scan_until delimiter s)) = true
  /\ stops_at delimiter (snd (scan_until delimiter s)) = true.
Proof.
  induction s as [|c s (IH1 & IH2 & IH3)]; [repeat split|].
  cbn [scan_until].
  destruct (neqb c NUL && neqb c delimiter && neqb c LF) eqn:E; cbn [fst snd].
  - repeat split.
    + cbn [app]. now f_equal.
    + cbn [free_of forallb]. now rewrite E.
    + exact IH3.
  - repeat split. unfold stops_at. cbn [head hd]. now rewrite E.
Qed.

Lemma escapeHtml_app (a b : str) :
  escapeHtml (a ++ b) = escapeHtml a ++ escapeHtml b.
Proof.
  induction a as [|c a IH]; [reflexivity|]. cbn [app escapeHtml].
  now rewrite IH, app_assoc.
Qed.

(** C7. An input that starts with [**] and whose bold span [content] runs
    to a line break, to the end of input or to a single [*], so that no
    [**] closes it ([**bold] is such an input).  The lexer emits a Text
    token: the two asterisks, the span, and one more [*] when the span
    stopped at one.  When no two adjacent asterisks follow the span either,
    no token of the input is a Bold token, the output begins with a
    paragraph that opens with the two asterisks as text, and [<strong>]
    occurs nowhere in it. *)
Theorem unclosed_bold_is_text (content tail : str) :
  free_of "*" content = true ->
  stops_at "*" tail = true ->
  (head tail =? "*") && (head (tl tail) =? "*") = false ->
  let input := lit "**" ++ content ++ tail in
  let first :=
    Tok TEXT (lit "**" ++ content ++ (if head tail =? "*" then lit "*" else [])) in
  (forall fuel, length input < fuel ->
     get_next_token fuel (Lexer_new input)
     = Ok (first, lexer_at input (2 + length content)))
  /\ (no_double_star tail = true ->
      exists (others : list Token) (html : str),
        tokens_of input = Ok (first :: others)
        /\ Forall not_bold others
        /\ parse input = Ok html
        /\ (exists more, html = lit "<p>**" ++ escapeHtml content ++ more)
        /\ ~ occurs_in (lit "<strong>") html).
Proof.
  intros Hc Ht Hd input first.
  assert (Hn : next_token input = (first, tail))
    by now apply next_token_unclosed_bold.
  split.
  - intros fuel Hf. rewrite Lexer_new_cursor.
    rewrite get_next_token_lex by (auto using is_suffix_refl).
    rewrite Hn. cbn [fst snd]. f_equal. f_equal. subst input.
    rewrite app_assoc, cursor_lexer_at. f_equal.
  - intros H. set (others := all_tokens (length tail) tail).
    assert (E : all_tokens (length input) input = first :: others)
      by (rewrite all_tokens_step, Hn; reflexivity).
    assert (Hb : Forall not_bold others) by now apply all_tokens_not_bold.
    destruct (tokensToHtml_total (first :: others)) as [html Hhtml].
    exists others, html. repeat split; try assumption.
    + now rewrite tokens_of_all_tokens, E.
    + now rewrite parse_all_tokens, E.
    + destruct (tokensToHtml_text_first _ _ _ Hhtml) as [more ->].
      rewrite !escapeHtml_app, <- !app_assoc.
      cbn [lit list_ascii_of_string app escapeHtml].
      change (escape_char "*") with ["*"]. cbn [app]. eexists; reflexivity.
    + apply (tokensToHtml_no_strong (first :: others)); [assumption|].
      constructor; [discriminate|assumption].
Qed.

Lemma unclosed_bold_is_text_witness :
  (forall fuel, length (lit "**bold") < fuel ->
     get_next_token fuel (Lexer_new (lit "**bold"))
     = Ok (Tok TEXT (lit "**bold"), lexer_at (lit "**bold") 6))
  /\ (no_double_star [] = true ->
      exists (others : list Token) (html : str),
        tokens_of (lit "**bold") = Ok (Tok TEXT (lit "**bold") :: others)
        /\ Forall not_bold others
        /\ parse (lit "**bold") = Ok html
        /\ (exists more, html = lit "<p>**" ++ escapeHtml (lit "bold") ++ more)
        /\ ~ occurs_in (lit "<strong>") html).
Proof.
  apply (unclosed_bold_is_text (lit "bold") []); reflexivity.
Defined.

(** The input [**bold] as a whole. *)
Lemma unclosed_bold_example :
  tokens_of (lit "**bold") = Ok [Tok TEXT (lit "**bold")]
  /\ parse (lit "**bold") = Ok (lit "<p>**bold</p>" ++ [LF]).
Proof. split; reflexivity. Qed.

(** ** What a fallback token holds *)

Lemma scan_hashes_split (s : str) :
  forall level : Z,
    (1 <= level <= 6)%Z ->
    exists j : nat,
      s = repeat "#" j ++ snd (scan_hashes level s)
      /\ fst (scan_hashes level s) = (level + Z.of_nat j)%Z
      /\ (fst (scan_hashes level s) <= 6)%Z.
Proof.
  induction s as [|c s IH]; intros level Hl; cbn [scan_hashes].
  - exists 0. cbn. repeat split; lia.
  - destruct (c =? "#") eqn:Ec; cbn [andb].
    + destruct (Z.ltb_spec level 6) as [Hlt|Hge].
      * destruct (IH (level + 1)%Z) as (j & H1 & H2 & H3); [lia|].
        exists (S j). apply Ascii.eqb_eq in Ec. subst c. cbn [repeat app].
        repeat split; [now f_equal | lia | lia].
      * exists 0. cbn. repeat split; lia.
    + exists 0. cbn. repeat split; lia.
Qed.

Lemma heading_token_not_text (level : Z) (content : str) :
  (1 <= level <= 6)%Z -> getType (heading_token level content) <> TEXT.
Proof.
  intros H.
  assert (C : (level = 1 \/ level = 2 \/ level = 3 \/ level = 4 \/ level = 5
               \/ level = 6)%Z) by lia.
  repeat (destruct C as [-> | C]; [discriminate|]). subst. discriminate.
Qed.

Lemma next_token_marker (s : str) :
  is_markdown_char (head s) = true -> next_token s = lex_dispatch s.
Proof.
  intros H. unfold next_token.
  destruct (head s =? NUL) eqn:E0.
  { apply Ascii.eqb_eq in E0. rewrite E0 in H. discriminate. }
  rewrite scan_newlines_none; [reflexivity|].
  apply neqb_true. intros E. rewrite E in H. discriminate.
Qed.

(** A step of the pure lexer, read at the lexer that stands behind [pre]. *)
Lemma get_next_token_at (fuel : nat) (pre consumed tail : str) (token : Token) :
  next_token (consumed ++ tail) = (token, tail) ->
  length (consumed ++ tail) < fuel ->
  get_next_token fuel (lexer_at (pre ++ consumed ++ tail) (length pre))
  = Ok (token, lexer_at (pre ++ consumed ++ tail) (length pre + length consumed)).
Proof.
  intros Hn Hf. rewrite <- cursor_lexer_at.
  rewrite get_next_token_lex by (try assumption; now exists pre).
  rewrite Hn. cbn [fst snd]. f_equal. f_equal.
  rewrite app_assoc, cursor_lexer_at. f_equal. apply length_app.
Qed.

Lemma get_next_token_line (fuel : nat) (pre line tail : str) (token : Token) :
  next_token (line ++ tail) = (token, drop_newline tail) ->
  length (line ++ tail) < fuel ->
  get_next_token fuel (lexer_at (pre ++ line ++ tail) (length pre))
  = Ok (token,
        lexer_at (pre ++ line ++ tail)
          (length pre + length line + (if head tail =? LF then 1 else 0))).
Proof.
  intros Hn Hf. rewrite <- cursor_lexer_at.
  rewrite get_next_token_lex by (try assumption; now exists pre).
  rewrite Hn. cbn [fst snd]. f_equal. f_equal.
  unfold cursor, drop_newline. f_equal. rewrite !length_app.
  destruct (head tail =? LF) eqn:E.
  - destruct tail as [|c tail]; [discriminate|]. simpl. lia.
  - lia.
Qed.

Lemma stops_at_LF_not (tail : str) (c : ascii) :
  stops_at LF tail = true -> c <> NUL -> c <> LF -> neqb (head tail) c = true.
Proof.
  intros H H0 H1. apply neqb_true.
  destruct (stops_at_LF_inv tail H) as [-> | ->]; congruence.
Qed.

Lemma stops_at_LF_any (tail : str) (delimiter : ascii) :
  stops_at LF tail = true -> stops_at delimiter tail = true.
Proof.
  intros H. unfold stops_at.
  destruct (stops_at_LF_inv tail H) as [-> | ->]; cbn;
    now rewrite ?andb_false_r.
Qed.

Lemma lex_heading_fallback (k : nat) (rest tail : str) :
  free_of LF rest = true -> neqb (head rest) "#" = true ->
  (6 <=? k)%nat || negb (isspace (head (rest ++ tail))) = true ->
  stops_at LF tail = true ->
  lex_heading (repeat "#" (S k) ++ rest ++ tail)
  = (Tok TEXT (repeat "#" (S k) ++ rest), drop_newline tail).
Proof.
  intros Hr Hh Hs Ht. unfold lex_heading. cbn [repeat app tl].
  assert (Hx : neqb (head (rest ++ tail)) "#" = true).
  { destruct rest as [|c rest]; [|exact Hh]. cbn [app].
    apply stops_at_LF_not; [exact Ht|discriminate|discriminate]. }
  rewrite (scan_hashes_repeat (rest ++ tail) Hx k 1) by lia. cbn [fst snd].
  change (Z.to_nat (6 - 1)) with 5.
  assert (Hsp : isspace (head (repeat "#" (k - 5) ++ rest ++ tail)) = false).
  { destruct (k - 5) as [|j] eqn:Ej; [|reflexivity]. cbn [repeat app].
    apply orb_true_iff in Hs. destruct Hs as [Hs|Hs].
    - apply Nat.leb_le in Hs. lia.
    - now apply negb_true_iff in Hs. }
  rewrite Hsp. cbn [negb].
  rewrite app_assoc, scan_until_free;
    [| rewrite free_of_app, free_of_repeat_hash; exact Hr | exact Ht].
  cbn [fst snd]. f_equal. f_equal. unfold hashes.
  rewrite app_assoc, <- repeat_app.
  replace (Z.to_nat (1 + Z.of_nat (Nat.min k 5)) + (k - 5)) with (S k) by lia.
  reflexivity.
Qed.

Lemma lex_list_fallback (rest tail : str) :
  free_of LF rest = true -> isspace (head (rest ++ tail)) = false ->
  stops_at LF tail = true ->
  lex_list ("-" :: rest ++ tail) = (Tok TEXT ("-" :: rest), drop_newline tail).
Proof.
  intros Hr Hs Ht. unfold lex_list. cbn [tl]. rewrite Hs. cbn [negb].
  now rewrite scan_until_free by assumption.
Qed.

Lemma lex_emphasis_unclosed_bold (content tail : str) :
  free_of "*" content = true -> stops_at LF tail = true ->
  lex_emphasis (lit "**" ++ content ++ tail) = (Tok TEXT (lit "**" ++ content), tail).
Proof.
  intros Hc Ht. unfold lex_emphasis. cbn [lit list_ascii_of_string app tl head hd].
  change ("*" =? "*") with true. cbv iota.
  rewrite scan_until_free by (try assumption; now apply stops_at_LF_any).
  cbn [fst snd].
  pose proof (stops_at_LF_not tail "*" Ht) as Hn. unfold neqb in Hn.
  rewrite negb_true_iff in Hn. rewrite Hn by discriminate.
  cbn [andb]. now rewrite app_nil_r.
Qed.

Lemma scan_italic_unclosed (content tail : str) :
  free_of "*" content = true -> stops_at LF tail = true ->
  forall acc : str,
    scan_italic acc (content ++ tail) = (Tok TEXT (lit "*" ++ acc ++ content), tail).
Proof.
  intros Hc Ht. induction content as [|c content IH]; intros acc; cbn [app].
  - rewrite app_nil_r. destruct tail as [|d tail]; [reflexivity|].
    cbn [scan_italic].
    destruct (stops_at_LF_inv (d :: tail) Ht) as [E|E]; cbn [head hd] in E;
      subst d; reflexivity.
  - cbn [free_of forallb] in Hc. apply andb_true_iff in Hc. destruct Hc as [Hc0 Hc].
    apply andb_true_iff in Hc0. destruct Hc0 as [Hc0 Hl].
    apply andb_true_iff in Hc0. destruct Hc0 as [H0 Hs].
    cbn [scan_italic]. rewrite H0, Hl. cbn [andb].
    unfold neqb in Hs. apply negb_true_iff in Hs. rewrite Hs.
    rewrite IH by assumption. now rewrite <- app_assoc.
Qed.

Lemma lex_emphasis_unclosed_italic (content tail : str) :
  free_of "*" content = true -> stops_at LF tail = true ->
  lex_emphasis ("*" :: content ++ tail) = (Tok TEXT ("*" :: content), tail).
Proof.
  intros Hc Ht. unfold lex_emphasis. cbn [tl].
  assert (Hh : (head (content ++ tail) =? "*") = false).
  { destruct content as [|c content]; cbn [app head hd].
    - pose proof (stops_at_LF_not tail "*" Ht) as Hn. unfold neqb in Hn.
      rewrite negb_true_iff in Hn. apply Hn; discriminate.
    - cbn [free_of forallb] in Hc. apply andb_true_iff in Hc. destruct Hc as [Hc0 _].
      apply andb_true_iff in Hc0. destruct Hc0 as [Hc0 _].
      apply andb_true_iff in Hc0. destruct Hc0 as [_ Hs].
      unfold neqb in Hs. now apply negb_true_iff in Hs. }
  rewrite Hh. now rewrite scan_italic_unclosed by assumption.
Qed.

Lemma head_app_NUL (t tail : str) (c : ascii) :
  head tail = NUL -> (head (t ++ tail) =? c) = (head t =? c).
Proof.
  intros H. destruct t as [|d t]; [|reflexivity]. cbn [app]. now rewrite H.
Qed.

(** The loop of [handle_link] on a text whose brackets never balance: it
    runs to the end of input and leaves with a positive count. *)
Lemma scan_link_text_open (tail : str) :
  head tail = NUL ->
  forall (m : nat) (t : str) (depth : nat) (text : str),
    length t <= m -> link_text_open depth t = true ->
    exists bracket_count : Z,
      (0 < bracket_count)%Z
      /\ scan_link_text text (Z.of_nat (S depth)) (t ++ tail)
         = ((text ++ unescape_brackets t, bracket_count), tail).
Proof.
  intros Hn.
  induction m as [|m IH]; intros [|c t] depth text Hm Hok;
    try (simpl in Hm; lia).
  - exists (Z.of_nat (S depth)). split; [lia|]. cbn [app unescape_brackets].
    rewrite app_nil_r. destruct tail as [|d tail]; [reflexivity|].
    cbn [head hd] in Hn. subst d. reflexivity.
  - exists (Z.of_nat (S depth)). split; [lia|]. cbn [app unescape_brackets].
    rewrite app_nil_r. destruct tail as [|d tail]; [reflexivity|].
    cbn [head hd] in Hn. subst d. reflexivity.
  - cbn [link_text_open] in Hok. apply andb_true_iff in Hok.
    destruct Hok as [Hc Hok].
    cbn [app scan_link_text unescape_brackets]. rewrite Hc.
    rewrite (head_app_NUL t tail "[" Hn).
    destruct ((c =? BACKSLASH) && (head t =? "[")) eqn:E.
    + destruct t as [|d t]; [discriminate|]. cbn [app].
      destruct (IH t depth (text ++ ["["])) as (bc & Hbc & Hs);
        [simpl in Hm; lia | exact Hok |].
      exists bc. split; [exact Hbc|]. rewrite Hs. now rewrite <- app_assoc.
    + destruct (c =? "[") eqn:Eo.
      * apply Ascii.eqb_eq in Eo. subst c. change ("[" =? "]") with false.
        cbn [andb].
        replace (Z.of_nat (S depth) + 1)%Z with (Z.of_nat (S (S depth))) by lia.
        destruct (IH t (S depth) (text ++ ["["])) as (bc & Hbc & Hs);
          [simpl in Hm; lia | exact Hok |].
        exists bc. split; [exact Hbc|]. rewrite Hs. now rewrite <- app_assoc.
      * destruct (c =? "]") eqn:Ec.
        -- destruct depth as [|depth]; [discriminate|].
           replace (Z.of_nat (S (S depth)) - 1)%Z with (Z.of_nat (S depth)) by lia.
           replace (Z.of_nat (S depth) =? 0)%Z with false
             by (symmetry; apply Z.eqb_neq; lia).
           cbn [andb].
           destruct (IH t depth (text ++ [c])) as (bc & Hbc & Hs);
             [simpl in Hm; lia | exact Hok |].
           exists bc. split; [exact Hbc|]. rewrite Hs. now rewrite <- app_assoc.
        -- cbn [andb].
           destruct (IH t depth (text ++ [c])) as (bc & Hbc & Hs);
             [simpl in Hm; lia | exact Hok |].
           exists bc. split; [exact Hbc|]. rewrite Hs. now rewrite <- app_assoc.
Qed.

Lemma lex_link_unbalanced (t tail : str) :
  link_text_open 0 t = true -> head tail = NUL ->
  lex_link ("[" :: t ++ tail) = (Tok TEXT ("[" :: unescape_brackets t), tail).
Proof.
  intros Ht Hn. unfold lex_link. cbn [tl].
  destruct (scan_link_text_open tail Hn (length t) t 0 [] (le_n _) Ht)
    as (bc & Hbc & Hs).
  change (Z.of_nat 1) with 1%Z in Hs. rewrite Hs. cbn [fst snd app].
  destruct (Z.gtb_spec bc 0) as [_|H]; [reflexivity|lia].
Qed.

Lemma lex_link_no_url (t tail : str) :
  link_text_ok 0 t = true -> neqb (head tail) "(" = true ->
  lex_link ("[" :: t ++ "]" :: tail)
  = (Tok TEXT ("[" :: unescape_brackets t ++ lit "]"), tail).
Proof.
  intros Ht Hn. unfold lex_link. cbn [tl].
  pose proof (scan_link_text_ok tail (length t) t 0 [] (le_n _) Ht) as Hs.
  change (Z.of_nat 1) with 1%Z in Hs. rewrite Hs. cbn [fst snd app].
  change (0 >? 0)%Z with false. cbv iota. now rewrite Hn.
Qed.

Lemma lex_image_of_link (s : str) (value : str) (s' : str) :
  lex_link ("[" :: s) = (Tok TEXT value, s') ->
  lex_image ("!" :: "[" :: s) = (Tok TEXT ("!" :: value), s').
Proof.
  intros H. unfold lex_image. cbn [tl head hd].
  change (neqb "[" "[") with false. cbv iota. now rewrite H.
Qed.

Lemma lex_image_alone (tail : str) :
  neqb (head tail) "[" = true ->
  lex_image ("!" :: tail) = (Tok TEXT (lit "!"), tail).
Proof. intros H. unfold lex_image. cbn [tl]. now rewrite H. Qed.

Lemma lex_dispatch_hash (s : str) : lex_dispatch ("#" :: s) = lex_heading ("#" :: s).
Proof. reflexivity. Qed.

Lemma lex_dispatch_star (s : str) : lex_dispatch ("*" :: s) = lex_emphasis ("*" :: s).
Proof. reflexivity. Qed.

Lemma lex_dispatch_bracket (s : str) : lex_dispatch ("[" :: s) = lex_link ("[" :: s).
Proof. reflexivity. Qed.

Lemma lex_dispatch_bang (s : str) : lex_dispatch ("!" :: s) = lex_image ("!" :: s).
Proof. reflexivity. Qed.

Lemma lex_dispatch_dash (s : str) : lex_dispatch ("-" :: s) = lex_list ("-" :: s).
Proof. reflexivity. Qed.

Lemma source_marker (m : Malformed) (tail : str) :
  is_markdown_char (head (source m ++ tail)) = true.
Proof. destruct m as [| | | |[|]|[|]|[|]|]; reflexivity. Qed.

(** The fallback of every malformed construct, on the unread input. *)
Lemma next_token_malformed (m : Malformed) (tail : str) :
  malformed_at m tail = true ->
  next_token (source m ++ tail) = (Tok TEXT (payload m), after_fallback m tail).
Proof.
  intros H. rewrite next_token_marker by apply source_marker.
  unfold after_fallback.
  destruct m as [k rest|rest|content|content|image t|image t|image t u|];
    cbn [malformed_at] in H; cbn [source payload ends_line];
    repeat (apply andb_true_iff in H; let H' := fresh "H" in destruct H as [H H']).
  - rewrite <- app_assoc. cbn [repeat app]. rewrite lex_dispatch_hash.
    now apply (lex_heading_fallback k).
  - cbn [lit list_ascii_of_string app]. rewrite lex_dispatch_dash.
    apply lex_list_fallback; try assumption. now apply negb_true_iff.
  - rewrite <- app_assoc. cbn [lit list_ascii_of_string app].
    rewrite lex_dispatch_star. now apply lex_emphasis_unclosed_bold.
  - cbn [lit list_ascii_of_string app]. rewrite lex_dispatch_star.
    now apply lex_emphasis_unclosed_italic.
  - assert (Hl : lex_link ("[" :: t ++ tail)
                 = (Tok TEXT ("[" :: unescape_brackets t), tail))
      by (apply lex_link_unbalanced; [assumption | now apply Ascii.eqb_eq]).
    destruct image; cbn [bang lit list_ascii_of_string app].
    + rewrite lex_dispatch_bang. now apply lex_image_of_link.
    + now rewrite lex_dispatch_bracket.
  - assert (Hl : lex_link ("[" :: t ++ "]" :: tail)
                 = (Tok TEXT ("[" :: unescape_brackets t ++ lit "]"), tail))
      by (apply lex_link_no_url; assumption).
    destruct image; cbn [bang lit list_ascii_of_string app];
      rewrite <- app_assoc; cbn [app].
    + rewrite lex_dispatch_bang. now apply lex_image_of_link.
    + now rewrite lex_dispatch_bracket.
  - assert (Hl : lex_link ("[" :: t ++ lit "](" ++ u ++ tail)
                 = (Tok TEXT (lit "[" ++ unescape_brackets t ++ lit "](" ++ u), tail))
      by (apply lex_link_unclosed_url; assumption).
    destruct image; cbn [bang lit list_ascii_of_string app] in *;
      rewrite <- !app_assoc; cbn [app]; rewrite <- ?app_assoc; cbn [app].
    + rewrite lex_dispatch_bang. now apply lex_image_of_link.
    + now rewrite lex_dispatch_bracket.
  - cbn [lit list_ascii_of_string app]. rewrite lex_dispatch_bang.
    now apply lex_image_alone.
Qed.

Lemma unescape_brackets_length (m : nat) :
  forall t : str, length t <= m ->
    length (unescape_brackets t) <= length t
    /\ (has_escaped_bracket t = true -> length (unescape_brackets t) < length t).
Proof.
  induction m as [|m IH]; intros [|c t] Hm; try (simpl in Hm; lia).
  - split; [reflexivity|discriminate].
  - split; [reflexivity|discriminate].
  - cbn [unescape_brackets has_escaped_bracket].
    destruct ((c =? BACKSLASH) && (head t =? "[")) eqn:E.
    + destruct t as [|d t]; [now rewrite andb_false_r in E|].
      destruct (IH t) as [Hle _]; [simpl in Hm; lia|].
      cbn [length]. split; [lia|intros _; lia].
    + destruct (IH t) as [Hle Hlt]; [simpl in Hm; lia|].
      cbn [length orb]. split; [lia|]. intros H. specialize (Hlt H). lia.
Qed.

Lemma unescape_brackets_id (t : str) :
  has_escaped_bracket t = false -> unescape_brackets t = t.
Proof.
  induction t as [|c t IH]; [reflexivity|]. cbn [has_escaped_bracket].
  intros H. apply orb_false_iff in H. destruct H as [Hc Ht].
  cbn [unescape_brackets]. rewrite Hc. now rewrite IH.
Qed.

Lemma unescape_brackets_changes (t x : str) :
  unescape_brackets t ++ x = t ++ x -> has_escaped_bracket t = false.
Proof.
  intros H. apply app_inv_tail in H.
  destruct (has_escaped_bracket t) eqn:E; [|reflexivity].
  destruct (unescape_brackets_length (length t) t (le_n _)) as [_ Hlt].
  specialize (Hlt E). rewrite H in Hlt. lia.
Qed.

Lemma payload_is_source (m : Malformed) :
  payload m = source m <-> has_escaped_bracket (bracket_text m) = false.
Proof.
  destruct m as [k rest|rest|content|content|image t|image t|image t u|];
    cbn [payload source bracket_text]; try (split; reflexivity).
  - split.
    + intros H. apply app_inv_head in H. apply app_inv_head in H.
      apply (unescape_brackets_changes t []). now rewrite !app_nil_r.
    + intros H. now rewrite unescape_brackets_id.
  - split.
    + intros H. apply app_inv_head in H. apply app_inv_head in H.
      now apply unescape_brackets_changes in H.
    + intros H. now rewrite unescape_brackets_id.
  - split.
    + intros H. apply app_inv_head in H. apply app_inv_head in H.
      now apply unescape_brackets_changes in H.
    + intros H. now rewrite unescape_brackets_id.
Qed.

(** C2, as the code has it.  A malformed construct [m], wherever it
    stands in the text, is lexed as one Text token.  The token holds the
    source characters of the construct in their order, with one change:
    the link handler writes an escaped bracket [\[] of the bracketed text
    as [[].  So the payload is the source text exactly when the bracketed
    text has no escaped bracket; a [\[] anywhere else is kept.  The cursor
    is left behind the construct, or behind the line break that ends it for
    a heading and a list item.  The bold fallback that stops at a single
    [*] is not among the constructs. *)
Theorem fallback_text_is_source (m : Malformed) (pre tail : str) :
  malformed_at m tail = true ->
  (forall fuel : nat, length (source m ++ tail) < fuel ->
     get_next_token fuel (lexer_at (pre ++ source m ++ tail) (length pre))
     = Ok (Tok TEXT (payload m),
           lexer_at (pre ++ source m ++ tail)
             (length pre + length (source m)
              + (if ends_line m && (head tail =? LF) then 1 else 0))))
  /\ (payload m = source m <-> has_escaped_bracket (bracket_text m) = false).
Proof.
  intros H. split; [|apply payload_is_source].
  intros fuel Hf. pose proof (next_token_malformed m tail H) as Hn.
  unfold after_fallback in Hn. destruct (ends_line m); cbn [andb].
  - now apply get_next_token_line.
  - rewrite Nat.add_0_r. now apply get_next_token_at.
Qed.

Lemma fallback_text_is_source_witness :
  (forall fuel : nat,
     length (lit "[a\[b] c") < fuel ->
     get_next_token fuel (lexer_at (lit "x [a\[b] c") 2)
     = Ok (Tok TEXT (lit "[a[b]"), lexer_at (lit "x [a\[b] c") 8))
  /\ (lit "[a[b]" = lit "[a\[b]" <-> has_escaped_bracket (lit "a\[b") = false).
Proof.
  apply (fallback_text_is_source (LinkNoUrl false (lit "a\[b")) (lit "x ") (lit " c")).
  reflexivity.
Defined.

(** Some malformed constructs, evaluated: each is one Text token that
    holds the source; the escaped bracket of a heading line is kept. *)
Lemma fallback_examples :
  tokens_of (lit "-x") = Ok [Tok TEXT (lit "-x")]
  /\ tokens_of (lit "[text]") = Ok [Tok TEXT (lit "[text]")]
  /\ tokens_of (lit "[a") = Ok [Tok TEXT (lit "[a")]
  /\ tokens_of (lit "![a") = Ok [Tok TEXT (lit "![a")]
  /\ tokens_of (lit "#a\[b") = Ok [Tok TEXT (lit "#a\[b")].
Proof. repeat split; reflexivity. Qed.

(** ** Every Text token at a marker is a fallback *)

Lemma repeat_hash_split (x : str) :
  exists (n : nat) (x' : str), x = repeat "#" n ++ x' /\ neqb (head x') "#" = true.
Proof.
  induction x as [|c x (n & x' & IH1 & IH2)]; [now exists 0, []|].
  destruct (c =? "#") eqn:E.
  - apply Ascii.eqb_eq in E. subst c. exists (S n), x'. cbn [repeat app].
    split; [now f_equal|exact IH2].
  - exists 0, (c :: x). split; [reflexivity|]. unfold neqb. cbn [head hd].
    now rewrite E.
Qed.

Lemma stops_at_not_delimiter (delimiter : ascii) (tail : str) :
  stops_at delimiter tail = true -> neqb (head tail) delimiter = true ->
  stops_at LF tail = true.
Proof.
  unfold stops_at. intros H Hd. rewrite Hd in H.
  destruct (neqb (head tail) NUL); [|reflexivity].
  destruct (neqb (head tail) LF); [discriminate|reflexivity].
Qed.

Lemma scan_hashes_stop (s : str) :
  forall level : Z,
    (fst (scan_hashes level s) < 6)%Z ->
    neqb (head (snd (scan_hashes level s))) "#" = true.
Proof.
  induction s as [|c s IH]; intros level; cbn [scan_hashes]; [reflexivity|].
  destruct ((c =? "#") && (level <? 6)%Z) eqn:E; [apply IH|].
  cbn [fst snd head hd]. intros Hl. apply andb_false_iff in E.
  destruct E as [E|E]; [unfold neqb; now rewrite E|].
  apply Z.ltb_ge in E. lia.
Qed.

Lemma lex_heading_text_cases (s0 : str) :
  getType (fst (lex_heading ("#" :: s0))) = TEXT ->
  exists (m : Malformed) (tail : str),
    "#" :: s0 = source m ++ tail /\ malformed_at m tail = true.
Proof.
  unfold lex_heading. cbn [tl].
  destruct (scan_hashes_split s0 1) as (j & H1 & H2 & H3); [lia|].
  set (s1 := snd (scan_hashes 1 s0)) in *. rewrite H2 in *.
  destruct (negb (isspace (head s1))) eqn:Es; cbn [fst snd].
  2:{ intros Ht. exfalso. revert Ht. apply heading_token_not_text. lia. }
  intros _. destruct (scan_until_spec LF s1) as (Hs & Hfree & Hstop).
  set (line := fst (scan_until LF s1)) in *.
  set (tail := snd (scan_until LF s1)) in *.
  destruct (repeat_hash_split line) as (n & rest & Hl & Hh).
  assert (Hr : free_of LF rest = true).
  { rewrite Hl, free_of_app in Hfree. now apply andb_true_iff in Hfree. }
  exists (HeadingNoSpace (j + n) rest), tail. cbn [source malformed_at]. split.
  - rewrite <- app_assoc. cbn [repeat app]. f_equal.
    rewrite repeat_app, <- app_assoc, H1, Hs, Hl, <- app_assoc. reflexivity.
  - rewrite Hr, Hh, Hstop. cbn [andb]. rewrite andb_true_r.
    destruct n as [|n].
    + cbn [repeat app] in Hl. subst rest. rewrite <- Hs, Es. apply orb_true_r.
    + assert (E5 : j = 5).
      { assert (Hj : j < 5 -> False); [|lia]. intros Hj.
        assert (Hx : neqb (head s1) "#" = true)
          by (apply scan_hashes_stop; lia).
        rewrite Hs, Hl in Hx. cbn [repeat app head hd] in Hx. discriminate. }
      subst j. replace (6 <=? 5 + S n)%nat with true
        by (symmetry; apply Nat.leb_le; lia).
      reflexivity.
Qed.

Lemma lex_list_text_cases (s0 : str) :
  getType (fst (lex_list ("-" :: s0))) = TEXT ->
  exists (m : Malformed) (tail : str),
    "-" :: s0 = source m ++ tail /\ malformed_at m tail = true.
Proof.
  unfold lex_list. cbn [tl].
  destruct (negb (isspace (head s0))) eqn:Es; cbn [fst]; [|discriminate].
  intros _. destruct (scan_until_spec LF s0) as (Hs & Hfree & Hstop).
  exists (ListNoSpace (fst (scan_until LF s0))), (snd (scan_until LF s0)).
  cbn [source malformed_at lit list_ascii_of_string app]. split.
  - now f_equal.
  - now rewrite Hfree, Hstop, <- Hs, Es.
Qed.

Lemma scan_italic_text_cases (s : str) :
  forall acc : str,
    getType (fst (scan_italic acc s)) = TEXT ->
    exists content : str,
      s = content ++ snd (scan_italic acc s)
      /\ free_of "*" content = true
      /\ stops_at LF (snd (scan_italic acc s)) = true.
Proof.
  induction s as [|c s IH]; intros acc; cbn [scan_italic].
  - intros _. now exists [].
  - destruct (neqb c NUL && neqb c LF) eqn:E.
    + destruct (c =? "*") eqn:Es; [discriminate|].
      intros Ht. destruct (IH _ Ht) as (content & H1 & H2 & H3).
      exists (c :: content). split; [cbn [app]; now f_equal|].
      split; [|exact H3]. cbn [free_of forallb]. fold (free_of "*" content).
      rewrite H2, andb_true_r. apply andb_true_iff in E. destruct E as [E0 El].
      rewrite E0, El. unfold neqb. now rewrite Es.
    + intros _. exists []. split; [reflexivity|]. split; [reflexivity|].
      unfold stops_at. cbn [head hd fst snd].
      apply andb_false_iff in E. destruct E as [E|E]; rewrite E; cbn;
        now rewrite ?andb_false_r.
Qed.

Lemma lex_emphasis_text_cases (s0 : str) :
  getType (fst (lex_emphasis ("*" :: s0))) = TEXT ->
  (exists (m : Malformed) (tail : str),
     "*" :: s0 = source m ++ tail /\ malformed_at m tail = true)
  \/ bold_slip ("*" :: s0).
Proof.
  unfold lex_emphasis. cbn [tl].
  destruct (head s0 =? "*") eqn:E.
  - destruct s0 as [|d s00]; [discriminate|]. cbn [head hd] in E.
    apply Ascii.eqb_eq in E. subst d. cbn [tl].
    destruct (scan_until_spec "*" s00) as (Hs & Hfree & Hstop).
    set (content := fst (scan_until "*" s00)) in *.
    set (s1 := snd (scan_until "*" s00)) in *.
    destruct ((head s1 =? "*") && (head (tl s1) =? "*")) eqn:Eb; cbn [fst];
      [discriminate|]. intros _.
    destruct (head s1 =? "*") eqn:E1.
    + right. destruct s1 as [|x tail]; [discriminate|]. cbn [head hd tl] in *.
      apply Ascii.eqb_eq in E1. subst x. exists content, tail.
      split; [cbn [lit list_ascii_of_string app]; now rewrite <- Hs|].
      split; [exact Hfree|]. change ("*" =? "*") with true in Eb.
      cbn [andb] in Eb. unfold neqb. now rewrite Eb.
    + left. exists (BoldUnclosed content), s1.
      cbn [source malformed_at]. split.
      * rewrite <- app_assoc. cbn [lit list_ascii_of_string app]. now rewrite <- Hs.
      * rewrite Hfree. cbn [andb].
        apply (stops_at_not_delimiter "*"); [exact Hstop|].
        unfold neqb. now rewrite E1.
  - intros Ht. left. destruct (scan_italic_text_cases s0 [] Ht) as (content & H1 & H2 & H3).
    exists (ItalicUnclosed content), (snd (scan_italic [] s0)).
    cbn [source malformed_at lit list_ascii_of_string app]. split.
    + now f_equal.
    + now rewrite H2, H3.
Qed.

(** The loop of [handle_link], whatever the input: it leaves at the end
    of input with a positive count, behind a text whose brackets never
    balance, or with count 0 behind the []] that closes a balanced text. *)
Lemma scan_link_text_cases :
  forall (m : nat) (s : str) (depth : nat) (text : str),
    length s <= m ->
    let r := scan_link_text text (Z.of_nat (S depth)) s in
    ((0 < snd (fst r))%Z
     /\ exists t : str,
          s = t ++ snd r /\ link_text_open depth t = true /\ head (snd r) = NUL)
    \/ (snd (fst r) = 0%Z
        /\ exists t : str, s = t ++ "]" :: snd r /\ link_text_ok depth t = true).
Proof.
  induction m as [|m IH]; intros [|c s] depth text Hm;
    try (simpl in Hm; lia); cbn [scan_link_text]; cbv zeta.
  - left. cbn [fst snd]. split; [lia|]. now exists [].
  - left. cbn [fst snd]. split; [lia|]. now exists [].
  - destruct (neqb c NUL) eqn:E0.
    2:{ left. cbn [fst snd]. split; [lia|]. exists []. split; [reflexivity|].
        split; [reflexivity|]. now apply neqb_false in E0. }
    destruct ((c =? BACKSLASH) && (head s =? "[")) eqn:E.
    + destruct s as [|d s]; [now rewrite andb_false_r in E|].
      specialize (IH s depth (text ++ ["["])). cbv zeta in IH.
      destruct IH as [(Hp & t & H1 & H2 & H3) | (Hz & t & H1 & H2)];
        [simpl in Hm; lia | left | right].
      * split; [exact Hp|]. exists (c :: d :: t).
        split; [cbn [app]; now do 2 f_equal|]. split; [|exact H3].
        cbn [link_text_open head hd]. cbn [head hd] in E. now rewrite E0, E.
      * split; [exact Hz|]. exists (c :: d :: t).
        split; [cbn [app]; now do 2 f_equal|].
        cbn [link_text_ok head hd]. cbn [head hd] in E. now rewrite E0, E.
    + assert (Ehead : forall t rest, s = t ++ rest ->
                (head rest =? "[") = false ->
                (c =? BACKSLASH) && (head t =? "[") = false).
      { intros t rest -> Hr. destruct t as [|x t]; [|exact E].
        now rewrite andb_false_r. }
      destruct (c =? "[") eqn:Eo.
      * apply Ascii.eqb_eq in Eo. subst c. change ("[" =? "]") with false.
        cbn [andb].
        replace (Z.of_nat (S depth) + 1)%Z with (Z.of_nat (S (S depth))) by lia.
        specialize (IH s (S depth) (text ++ ["["])). cbv zeta in IH.
        destruct IH as [(Hp & t & H1 & H2 & H3) | (Hz & t & H1 & H2)];
          [simpl in Hm; lia | left | right].
        -- split; [exact Hp|]. exists ("[" :: t).
           split; [cbn [app]; now f_equal|]. split; [|exact H3].
           cbn [link_text_open]. change (neqb "[" NUL) with true.
           change ("[" =? BACKSLASH) with false. cbn [andb].
           change ("[" =? "[") with true. exact H2.
        -- split; [exact Hz|]. exists ("[" :: t).
           split; [cbn [app]; now f_equal|].
           cbn [link_text_ok]. change (neqb "[" NUL) with true.
           change ("[" =? BACKSLASH) with false. cbn [andb].
           change ("[" =? "[") with true. exact H2.
      * destruct (c =? "]") eqn:Ec.
        -- apply Ascii.eqb_eq in Ec. subst c. cbn [andb].
           destruct depth as [|depth].
           ++ change (Z.of_nat 1 - 1 =? 0)%Z with true. cbv iota.
              right. cbn [fst snd]. split; [reflexivity|]. now exists [].
           ++ replace (Z.of_nat (S (S depth)) - 1)%Z with (Z.of_nat (S depth)) by lia.
              replace (Z.of_nat (S depth) =? 0)%Z with false
                by (symmetry; apply Z.eqb_neq; lia).
              specialize (IH s depth (text ++ ["]"])). cbv zeta in IH.
              destruct IH as [(Hp & t & H1 & H2 & H3) | (Hz & t & H1 & H2)];
                [simpl in Hm; lia | left | right].
              ** split; [exact Hp|]. exists ("]" :: t).
                 split; [cbn [app]; now f_equal|]. split; [|exact H3].
                 cbn [link_text_open]. exact H2.
              ** split; [exact Hz|]. exists ("]" :: t).
                 split; [cbn [app]; now f_equal|].
                 cbn [link_text_ok]. exact H2.
        -- cbn [andb].
           specialize (IH s depth (text ++ [c])). cbv zeta in IH.
           destruct IH as [(Hp & t & H1 & H2 & H3) | (Hz & t & H1 & H2)];
             [simpl in Hm; lia | left | right].
           ++ split; [exact Hp|]. exists (c :: t).
              split; [cbn [app]; now f_equal|]. split; [|exact H3].
              cbn [link_text_open]. rewrite E0, Eo, Ec.
              rewrite (Ehead t _ H1); [exact H2|]. rewrite H3. reflexivity.
           ++ split; [exact Hz|]. exists (c :: t).
              split; [cbn [app]; now f_equal|].
              cbn [link_text_ok]. rewrite E0, Eo, Ec.
              rewrite (Ehead t _ H1); [exact H2|]. reflexivity.
Qed.

Lemma lex_link_text_cases (s0 : str) (image : bool) :
  getType (fst (lex_link ("[" :: s0))) = TEXT ->
  exists (m : Malformed) (tail : str),
    bang image ++ "[" :: s0 = source m ++ tail /\ malformed_at m tail = true.
Proof.
  unfold lex_link. cbn [tl].
  pose proof (scan_link_text_cases (length s0) s0 0 [] (le_n _)) as Hc.
  cbv zeta in Hc. change (Z.of_nat 1) with 1%Z in Hc.
  set (text := fst (fst (scan_link_text [] 1 s0))) in *.
  set (bc := snd (fst (scan_link_text [] 1 s0))) in *.
  set (s1 := snd (scan_link_text [] 1 s0)) in *.
  destruct Hc as [(Hp & t & H1 & H2 & H3) | (Hz & t & H1 & H2)].
  - intros _. exists (LinkUnbalanced image t), s1.
    cbn [source malformed_at]. split.
    + rewrite <- !app_assoc. cbn [lit list_ascii_of_string app]. now rewrite <- H1.
    + rewrite H2, H3. reflexivity.
  - rewrite Hz. change (0 >? 0)%Z with false. cbv iota.
    destruct (neqb (head s1) "(") eqn:Ep; cbn [fst].
    + intros _. exists (LinkNoUrl image t), s1.
      cbn [source malformed_at]. split.
      * rewrite <- !app_assoc. cbn [lit list_ascii_of_string app]. now rewrite <- H1.
      * now rewrite H2, Ep.
    + destruct s1 as [|p s2]; [discriminate|]. cbn [head hd] in Ep.
      apply neqb_false in Ep. subst p. cbn [tl].
      destruct (scan_until_spec ")" s2) as (Hs & Hfree & Hstop).
      set (url := fst (scan_until ")" s2)) in *.
      set (s3 := snd (scan_until ")" s2)) in *.
      destruct (neqb (head s3) ")") eqn:En; cbn [fst]; [|discriminate].
      intros _. exists (LinkUrlUnclosed image t url), s3.
      cbn [source malformed_at]. split.
      * rewrite <- !app_assoc. cbn [lit list_ascii_of_string app].
        now rewrite <- Hs, <- H1.
      * rewrite H2, Hfree. cbn [andb].
        now apply (stops_at_not_delimiter ")").
Qed.

Lemma lex_link_type (s : str) :
  getType (fst (lex_link s)) = TEXT \/ getType (fst (lex_link s)) = LINK.
Proof.
  unfold lex_link.
  repeat match goal with |- context [if ?b then _ else _] => destruct b end;
    auto.
Qed.

Lemma lex_image_text_cases (s0 : str) :
  getType (fst (lex_image ("!" :: s0))) = TEXT ->
  exists (m : Malformed) (tail : str),
    "!" :: s0 = source m ++ tail /\ malformed_at m tail = true.
Proof.
  unfold lex_image. cbn [tl].
  destruct (neqb (head s0) "[") eqn:E; cbn [fst].
  - intros _. exists BangAlone, s0. now split.
  - destruct s0 as [|b s1]; [discriminate|]. cbn [head hd] in E.
    apply neqb_false in E. subst b.
    destruct (TokenType_eqb (getType (fst (lex_link ("[" :: s1)))) LINK) eqn:El;
      cbn [fst]; [discriminate|]. intros _.
    apply (lex_link_text_cases s1 true).
    destruct (lex_link_type ("[" :: s1)) as [Ht|Ht]; [exact Ht|].
    rewrite Ht in El. discriminate.
Qed.

(** Every Text token that the lexer returns at a marker is the fallback
    of a malformed construct, or the bold fallback that stopped at a single
    [*]: the constructs of [Malformed] are all the fallbacks there are. *)
Lemma text_at_marker_is_fallback (fuel : nat) (pre s : str) (token : Token)
      (l : Lexer) :
  length s < fuel ->
  is_markdown_char (head s) = true ->
  get_next_token fuel (lexer_at (pre ++ s) (length pre)) = Ok (token, l) ->
  getType token = TEXT ->
  (exists (m : Malformed) (tail : str),
     s = source m ++ tail /\ malformed_at m tail = true)
  \/ bold_slip s.
Proof.
  intros Hf Hm H Ht. rewrite <- cursor_lexer_at in H.
  rewrite get_next_token_lex in H by (try assumption; now exists pre).
  rewrite next_token_marker in H by assumption. injection H as <- _.
  destruct s as [|c s0]; [discriminate|].
  unfold lex_dispatch in Ht. cbn [head hd] in *.
  destruct (c =? "#") eqn:E1.
  { apply Ascii.eqb_eq in E1. subst c. left. now apply lex_heading_text_cases. }
  destruct (c =? "*") eqn:E2.
  { apply Ascii.eqb_eq in E2. subst c. now apply lex_emphasis_text_cases. }
  destruct (c =? "[") eqn:E3.
  { apply Ascii.eqb_eq in E3. subst c. left.
    apply (lex_link_text_cases s0 false Ht). }
  destruct (c =? "!") eqn:E4.
  { apply Ascii.eqb_eq in E4. subst c. left. now apply lex_image_text_cases. }
  destruct (c =? "-") eqn:E5.
  { apply Ascii.eqb_eq in E5. subst c. left. now apply lex_list_text_cases. }
  unfold is_markdown_char in Hm. rewrite E1, E2, E3, E4, E5 in Hm. discriminate.
Qed.

(** The unclosed italic span [*italic], evaluated. *)
Lemma unclosed_italic_example :
  get_next_token 8 (lexer_at (lit "*italic") 0)
  = Ok (Tok TEXT (lit "*italic"), lexer_at (lit "*italic") 7).
Proof. reflexivity. Qed.

(** C2 fails on [[a\[b]: the brackets never balance, the fallback token
    holds [[a[b], and the backslash of the source is lost. *)
Lemma escaped_bracket_backslash_lost :
  tokens_of (lit "[a\[b") = Ok [Tok TEXT (lit "[a[b")]
  /\ concat (map getValue [Tok TEXT (lit "[a[b")]) <> lit "[a\[b".
Proof. split; [reflexivity|discriminate]. Qed.

(** The bold fallback that stops at a single [*] writes the [*] into its
    token and leaves the cursor on it, so the next token starts with the
    same [*]: [**a*b] gives the texts [**a*] and [*b]. *)
Lemma bold_fallback_repeats_star :
  tokens_of (lit "**a*b") = Ok [Tok TEXT (lit "**a*"); Tok TEXT (lit "*b")]
  /\ parse (lit "**a*b") = Ok (lit "<p>**a**b</p>" ++ [LF]).
Proof. split; reflexivity. Qed.

(** ** Well-formed constructs *)

Lemma all_tokens_cons (s s' : str) (token : Token) :
  next_token s = (token, s') -> isEOF token = false ->
  all_tokens (length s) s = token :: all_tokens (length s') s'.
Proof.
  intros H He. rewrite all_tokens_step, H. cbn [fst snd]. now rewrite He.
Qed.

Lemma scan_spaces_run (ws x : str) :
  forallb inline_space ws = true -> inline_space (head x) = false ->
  scan_spaces (ws ++ x) = x.
Proof.
  intros Hw Hx. induction ws as [|c ws IH]; cbn [app].
  - destruct x as [|d x]; [reflexivity|]. cbn [scan_spaces].
    cbn [head hd] in Hx. unfold inline_space in Hx. now rewrite Hx.
  - cbn [forallb] in Hw. apply andb_true_iff in Hw. destruct Hw as [Hc Hw].
    cbn [scan_spaces]. unfold inline_space in Hc. rewrite Hc. now apply IH.
Qed.

Lemma heading_token_type (k : nat) (content : str) :
  1 <= k <= 6 -> heading_token (Z.of_nat k) content = Tok (heading_type k) content.
Proof.
  intros H. assert (C : k = 1 \/ k = 2 \/ k = 3 \/ k = 4 \/ k = 5 \/ k = 6) by lia.
  repeat (destruct C as [-> | C]; [reflexivity|]). now subst.
Qed.

Lemma next_token_heading (k : nat) (ws content tail : str) :
  1 <= k <= 6 -> ws <> [] -> forallb inline_space ws = true ->
  free_of LF content = true -> inline_space (head (content ++ tail)) = false ->
  stops_at LF tail = true ->
  next_token (repeat "#" k ++ ws ++ content ++ tail)
  = (Tok (heading_type k) content, drop_newline tail).
Proof.
  intros Hk Hne Hw Hc Hi Ht.
  destruct k as [|k]; [lia|]. destruct ws as [|w ws]; [contradiction|].
  assert (Hw0 : inline_space w = true).
  { cbn [forallb] in Hw. now apply andb_true_iff in Hw. }
  assert (Hwh : neqb w "#" = true).
  { apply neqb_true. intros ->. discriminate. }
  assert (Hx : scan_spaces ((w :: ws) ++ content ++ tail) = content ++ tail)
    by now apply scan_spaces_run.
  pose proof (scan_hashes_repeat ((w :: ws) ++ content ++ tail) Hwh k 1) as Hh.
  assert (Hsp : isspace (head ((w :: ws) ++ content ++ tail)) = true).
  { unfold inline_space in Hw0. now apply andb_true_iff in Hw0. }
  set (x := (w :: ws) ++ content ++ tail) in *.
  unfold next_token. cbn [repeat app head hd].
  change ("#" =? NUL) with false. cbv iota. cbn [scan_newlines].
  change ("#" =? LF) with false. cbv iota. cbn [fst snd].
  unfold lex_dispatch. cbn [head hd]. change ("#" =? "#") with true. cbv iota.
  unfold lex_heading. cbn [tl].
  rewrite Hh by lia.
  cbn [fst snd]. change (Z.to_nat (6 - 1)) with 5.
  replace (k - 5) with 0 by lia. cbn [repeat app].
  rewrite Hsp. cbn [negb]. rewrite Hx.
  rewrite scan_until_free by assumption. cbn [fst snd].
  replace (1 + Z.of_nat (Nat.min k 5))%Z with (Z.of_nat (S k)) by lia.
  now rewrite heading_token_type by lia.
Qed.

Lemma tokensToHtml_heading (k : nat) (content : str) :
  1 <= k <= 6 ->
  tokensToHtml [Tok (heading_type k) content]
  = Ok (lit "<h" ++ [level_digit k] ++ lit ">" ++ escapeHtml content
        ++ lit "</h" ++ [level_digit k] ++ lit ">" ++ [LF]).
Proof.
  intros H. assert (C : k = 1 \/ k = 2 \/ k = 3 \/ k = 4 \/ k = 5 \/ k = 6) by lia.
  repeat (destruct C as [-> | C]; [reflexivity|]). now subst.
Qed.

(** X1. A heading line: one to six [#], a run of whitespace without a line
    break, and the heading text up to the end of the line.  Wherever it
    stands in the text, the lexer emits the heading token of that level
    with the text as payload and passes the line break; an input that is
    just this line is rendered as [<hk>text</hk>] and a line break, the text
    escaped. *)
Theorem heading_line_token (k : nat) (pre ws content tail : str) :
  1 <= k <= 6 ->
  ws <> [] -> forallb inline_space ws = true ->
  free_of LF content = true ->
  inline_space (head (content ++ tail)) = false ->
  stops_at LF tail = true ->
  let line := repeat "#" k ++ ws ++ content in
  (forall fuel, length (line ++ tail) < fuel ->
     get_next_token fuel (lexer_at (pre ++ line ++ tail) (length pre))
     = Ok (Tok (heading_type k) content,
           lexer_at (pre ++ line ++ tail)
             (length pre + length line + (if head tail =? LF then 1 else 0))))
  /\ parse line
     = Ok (lit "<h" ++ [level_digit k] ++ lit ">" ++ escapeHtml content
           ++ lit "</h" ++ [level_digit k] ++ lit ">" ++ [LF]).
Proof.
  intros Hk Hne Hw Hc Hi Ht line. split.
  - intros fuel Hf. apply get_next_token_line; [|exact Hf].
    subst line. rewrite <- !app_assoc. now apply next_token_heading.
  - rewrite parse_all_tokens.
    rewrite (all_tokens_single line (Tok (heading_type k) content));
      [now apply tokensToHtml_heading | | reflexivity].
    pose proof (next_token_heading k ws content [] Hk Hne Hw Hc) as Hn.
    rewrite !app_nil_r in Hn. subst line. apply Hn; [|reflexivity].
    destruct content as [|c content]; [reflexivity|exact Hi].
Qed.

Lemma heading_line_token_witness :
  (forall fuel, length (lit "## Title" ++ [LF] ++ lit "x") < fuel ->
     get_next_token fuel
       (lexer_at (lit "a" ++ [LF] ++ lit "## Title" ++ [LF] ++ lit "x") 2)
     = Ok (Tok H2 (lit "Title"),
           lexer_at (lit "a" ++ [LF] ++ lit "## Title" ++ [LF] ++ lit "x") 11))
  /\ parse (lit "## Title") = Ok (lit "<h2>Title</h2>" ++ [LF]).
Proof.
  apply (heading_line_token 2 (lit "a" ++ [LF]) (lit " ") (lit "Title")
           ([LF] ++ lit "x")); try reflexivity; try lia; discriminate.
Defined.

Lemma next_token_bold (content tail : str) :
  free_of "*" content = true ->
  next_token (lit "**" ++ content ++ lit "**" ++ tail) = (Tok BOLD content, tail).
Proof.
  intros Hc. unfold next_token. cbn [lit list_ascii_of_string app head hd].
  change ("*" =? NUL) with false. cbv iota. cbn [scan_newlines].
  change ("*" =? LF) with false. cbv iota. cbn [fst snd].
  unfold lex_dispatch. cbn [head hd]. change ("*" =? "#") with false.
  change ("*" =? "*") with true. cbv iota.
  unfold lex_emphasis. cbn [tl head hd]. change ("*" =? "*") with true. cbv iota.
  rewrite scan_until_free by (try assumption; reflexivity). reflexivity.
Qed.

(** X2. A bold span: [**], a text without [*] and line break, and [**].
    Wherever it stands, the lexer emits a Bold token with the text as
    payload and stands behind the closing [**]; an input that is just the
    span is rendered as a paragraph holding [<strong>text</strong>]. *)
Theorem bold_span_token (pre content tail : str) :
  free_of "*" content = true ->
  let span := lit "**" ++ content ++ lit "**" in
  (forall fuel, length (span ++ tail) < fuel ->
     get_next_token fuel (lexer_at (pre ++ span ++ tail) (length pre))
     = Ok (Tok BOLD content,
           lexer_at (pre ++ span ++ tail) (length pre + length span)))
  /\ parse span
     = Ok (lit "<p><strong>" ++ escapeHtml content ++ lit "</strong></p>" ++ [LF]).
Proof.
  intros Hc span.
  assert (Hn : forall tail', next_token (span ++ tail') = (Tok BOLD content, tail')).
  { intros tail'. subst span. rewrite <- !app_assoc. now apply next_token_bold. }
  split.
  - intros fuel Hf. now apply get_next_token_at.
  - rewrite parse_all_tokens, (all_tokens_single span (Tok BOLD content));
      [ | rewrite <- (app_nil_r span); apply Hn | reflexivity].
    cbn. now rewrite <- !app_assoc.
Qed.

Lemma bold_span_token_witness :
  (forall fuel, length (lit "**bold**" ++ lit " text.") < fuel ->
     get_next_token fuel (lexer_at (lit "This is " ++ lit "**bold**" ++ lit " text.") 8)
     = Ok (Tok BOLD (lit "bold"),
           lexer_at (lit "This is " ++ lit "**bold**" ++ lit " text.") 16))
  /\ parse (lit "**bold**") = Ok (lit "<p><strong>bold</strong></p>" ++ [LF]).
Proof.
  apply (bold_span_token (lit "This is ") (lit "bold") (lit " text.")). reflexivity.
Defined.

Lemma scan_italic_closed (content tail : str) :
  free_of "*" content = true ->
  forall acc, scan_italic acc (content ++ "*" :: tail) = (Tok ITALIC (acc ++ content), tail).
Proof.
  intros Hc. induction content as [|c content IH]; intros acc.
  - cbn. now rewrite app_nil_r.
  - cbn [free_of forallb] in Hc. apply andb_true_iff in Hc. destruct Hc as [Hc0 Hc].
    apply andb_true_iff in Hc0. destruct Hc0 as [Hc0 Hl].
    apply andb_true_iff in Hc0. destruct Hc0 as [Hz Hs].
    cbn [app scan_italic]. rewrite Hz, Hl. cbn [andb].
    unfold neqb in Hs. apply negb_true_iff in Hs. rewrite Hs.
    rewrite IH by assumption. now rewrite <- app_assoc.
Qed.

Lemma next_token_italic (content tail : str) :
  content <> [] -> free_of "*" content = true ->
  next_token (lit "*" ++ content ++ lit "*" ++ tail) = (Tok ITALIC content, tail).
Proof.
  intros Hne Hc. destruct content as [|c content]; [contradiction|].
  assert (Hs : (c =? "*") = false).
  { cbn [free_of forallb] in Hc. apply andb_true_iff in Hc. destruct Hc as [Hc0 _].
    apply andb_true_iff in Hc0. destruct Hc0 as [Hc0 _].
    apply andb_true_iff in Hc0. destruct Hc0 as [_ Hs].
    unfold neqb in Hs. now apply negb_true_iff in Hs. }
  unfold next_token. cbn [lit list_ascii_of_string app head hd].
  change ("*" =? NUL) with false. cbv iota. cbn [scan_newlines].
  change ("*" =? LF) with false. cbv iota. cbn [fst snd].
  unfold lex_dispatch. cbn [head hd]. change ("*" =? "#") with false.
  change ("*" =? "*") with true. cbv iota.
  unfold lex_emphasis. cbn [tl head hd]. rewrite Hs.
  change (c :: content ++ "*" :: tail) with ((c :: content) ++ "*" :: tail).
  now rewrite scan_italic_closed.
Qed.

(** X3. An italic span: [*], a non-empty text without [*] and line break,
    and [*].  Wherever it stands, the lexer emits an Italic token with the
    text as payload and stands behind the closing [*]; an input that is
    just the span is rendered as a paragraph holding [<em>text</em>]. *)
Theorem italic_span_token (pre content tail : str) :
  content <> [] -> free_of "*" content = true ->
  let span := lit "*" ++ content ++ lit "*" in
  (forall fuel, length (span ++ tail) < fuel ->
     get_next_token fuel (lexer_at (pre ++ span ++ tail) (length pre))
     = Ok (Tok ITALIC content,
           lexer_at (pre ++ span ++ tail) (length pre + length span)))
  /\ parse span = Ok (lit "<p><em>" ++ escapeHtml content ++ lit "</em></p>" ++ [LF]).
Proof.
  intros Hne Hc span.
  assert (Hn : forall tail', next_token (span ++ tail') = (Tok ITALIC content, tail')).
  { intros tail'. subst span. rewrite <- !app_assoc. now apply next_token_italic. }
  split.
  - intros fuel Hf. now apply get_next_token_at.
  - rewrite parse_all_tokens, (all_tokens_single span (Tok ITALIC content));
      [ | rewrite <- (app_nil_r span); apply Hn | reflexivity].
    cbn. now rewrite <- !app_assoc.
Qed.

Lemma italic_span_token_witness :
  (forall fuel, length (lit "*italic*" ++ lit " text.") < fuel ->
     get_next_token fuel (lexer_at (lit "This is " ++ lit "*italic*" ++ lit " text.") 8)
     = Ok (Tok ITALIC (lit "italic"),
           lexer_at (lit "This is " ++ lit "*italic*" ++ lit " text.") 16))
  /\ parse (lit "*italic*") = Ok (lit "<p><em>italic</em></p>" ++ [LF]).
Proof.
  apply (italic_span_token (lit "This is ") (lit "italic") (lit " text."));
    [discriminate | reflexivity].
Defined.

(** ** The composite payload of links and images *)

Lemma find_from_first_bar (a b : str) :
  has_bar a = false ->
  forall i, find_from "|" (a ++ "|" :: b) i = (i + Z.of_nat (length a))%Z.
Proof.
  intros Ha. induction a as [|c a IH]; intros i.
  - cbn. lia.
  - cbn [has_bar existsb] in Ha. apply orb_false_iff in Ha. destruct Ha as [Hc Ha].
    cbn [app find_from length]. rewrite Ascii.eqb_sym, Hc.
    rewrite IH by assumption. lia.
Qed.

Lemma find_from_no_bar (s : str) :
  has_bar s = false -> forall i, find_from "|" s i = npos.
Proof.
  intros Hs. induction s as [|c s IH]; intros i; [reflexivity|].
  cbn [has_bar existsb] in Hs. apply orb_false_iff in Hs. destruct Hs as [Hc Hs].
  cbn [find_from]. rewrite Ascii.eqb_sym, Hc. now apply IH.
Qed.

Lemma escape_char_no_bar (c : ascii) :
  ("|" =? c) = false -> has_bar (escape_char c) = false.
Proof.
  intros H. unfold escape_char.
  destruct (c =? "<"); [reflexivity|]. destruct (c =? ">"); [reflexivity|].
  destruct (c =? "&"); [reflexivity|]. destruct (c =? DQUOTE); [reflexivity|].
  unfold has_bar. cbn [existsb]. now rewrite H.
Qed.

Lemma escapeHtml_no_bar (s : str) :
  has_bar s = false -> has_bar (escapeHtml s) = false.
Proof.
  induction s as [|c s IH]; [reflexivity|]. cbn [has_bar existsb escapeHtml].
  intros H. apply orb_false_iff in H. destruct H as [Hc Hs].
  unfold has_bar. rewrite existsb_app. apply orb_false_iff. split.
  - now apply escape_char_no_bar.
  - now apply IH.
Qed.

Lemma substr_before_bar (a b : str) :
  substr (a ++ "|" :: b) 0 (Z.of_nat (length a)) = Ok a.
Proof.
  unfold substr. rewrite length_app. cbn [length].
  destruct (Z.ltb_spec (Z.of_nat (length a + S (length b))) 0) as [H|H]; [lia|].
  rewrite Z.sub_0_r, Z.min_l by lia. rewrite Nat2Z.id.
  cbn [Z.to_nat skipn]. rewrite firstn_app, Nat.sub_diag, firstn_all. cbn [firstn].
  now rewrite app_nil_r.
Qed.

Lemma substr_after_bar (a b : str) :
  (Z.of_nat (length (a ++ "|" :: b)) < size_max)%Z ->
  substr (a ++ "|" :: b) (size_add (Z.of_nat (length a)) 1) npos = Ok b.
Proof.
  intros Hlen. rewrite length_app in Hlen. cbn [length] in Hlen.
  unfold size_add. rewrite Z.mod_small by lia.
  unfold substr. rewrite length_app. cbn [length].
  destruct (Z.ltb_spec (Z.of_nat (length a + S (length b)))
              (Z.of_nat (length a) + 1)) as [H|H]; [lia|].
  rewrite Z.min_r by (unfold npos; lia).
  replace (Z.to_nat (Z.of_nat (length a) + 1)) with (length a + 1) by lia.
  replace (Z.to_nat (Z.of_nat (length a + S (length b)) - (Z.of_nat (length a) + 1)))
    with (length b) by lia.
  rewrite skipn_app. rewrite skipn_all2 by lia.
  replace (length a + 1 - length a) with 1 by lia. cbn [skipn app].
  now rewrite firstn_all.
Qed.

Lemma substr_whole (s : str) (count : Z) :
  (Z.of_nat (length s) <= count)%Z -> substr s 0 count = Ok s.
Proof.
  intros H. unfold substr.
  destruct (Z.ltb_spec (Z.of_nat (length s)) 0) as [H0|H0]; [lia|].
  rewrite Z.sub_0_r, Z.min_r by lia. rewrite Nat2Z.id.
  cbn [Z.to_nat skipn]. now rewrite firstn_all.
Qed.

Lemma tokenToHtml_split (type : TokenType) (text url : str) :
  has_bar text = false ->
  (Z.of_nat (length (escapeHtml (text ++ lit "|" ++ url))) < size_max)%Z ->
  let content := escapeHtml (text ++ lit "|" ++ url) in
  substr content 0 (find content "|") = Ok (escapeHtml text)
  /\ substr content (size_add (find content "|") 1) npos = Ok (escapeHtml url).
Proof.
  intros Hb Hlen. cbv zeta.
  rewrite escapeHtml_app in *. cbn [lit list_ascii_of_string app escapeHtml] in *.
  change (escape_char "|") with ["|"] in *. cbn [app] in *.
  unfold find. rewrite find_from_first_bar by now apply escapeHtml_no_bar.
  cbn [Z.add]. now rewrite substr_before_bar, substr_after_bar by assumption.
Qed.

Lemma tokenToHtml_link (text url : str) :
  has_bar text = false ->
  (Z.of_nat (length (escapeHtml (text ++ lit "|" ++ url))) < size_max)%Z ->
  tokenToHtml (Tok LINK (text ++ lit "|" ++ url))
  = Ok (lit "<a href=" ++ [DQUOTE] ++ escapeHtml url ++ [DQUOTE] ++ lit ">"
        ++ escapeHtml text ++ lit "</a>").
Proof.
  intros Hb Hlen. destruct (tokenToHtml_split LINK text url Hb Hlen) as [H1 H2].
  unfold tokenToHtml. cbn [Tok getType getValue]. now rewrite H1, H2.
Qed.

Lemma tokenToHtml_image (text url : str) :
  has_bar text = false ->
  (Z.of_nat (length (escapeHtml (text ++ lit "|" ++ url))) < size_max)%Z ->
  tokenToHtml (Tok IMAGE (text ++ lit "|" ++ url))
  = Ok (lit "<img src=" ++ [DQUOTE] ++ escapeHtml url ++ [DQUOTE] ++ lit " alt="
        ++ [DQUOTE] ++ escapeHtml text ++ [DQUOTE] ++ lit ">").
Proof.
  intros Hb Hlen. destruct (tokenToHtml_split IMAGE text url Hb Hlen) as [H1 H2].
  unfold tokenToHtml. cbn [Tok getType getValue]. now rewrite H1, H2.
Qed.

(** X4. The payload of a Link or Image token is split at its first [|]:
    for a payload [text|url] whose [text] has no [|] (and whose escaped
    length fits [size_t]) the Link is rendered as
    [<a href="url">text</a>] and the Image as [<img src="url" alt="text">],
    both parts escaped.  A [|] in [url] stays in the URL. *)
Theorem link_payload_split (text url : str) :
  has_bar text = false ->
  (Z.of_nat (length (escapeHtml (text ++ lit "|" ++ url))) < size_max)%Z ->
  tokenToHtml (Tok LINK (text ++ lit "|" ++ url))
  = Ok (lit "<a href=" ++ [DQUOTE] ++ escapeHtml url ++ [DQUOTE] ++ lit ">"
        ++ escapeHtml text ++ lit "</a>")
  /\ tokenToHtml (Tok IMAGE (text ++ lit "|" ++ url))
     = Ok (lit "<img src=" ++ [DQUOTE] ++ escapeHtml url ++ [DQUOTE] ++ lit " alt="
           ++ [DQUOTE] ++ escapeHtml text ++ [DQUOTE] ++ lit ">").
Proof.
  intros Hb Hlen. split.
  - now apply tokenToHtml_link.
  - now apply tokenToHtml_image.
Qed.

Lemma link_payload_split_witness :
  tokenToHtml (Tok LINK (lit "OpenAI" ++ lit "|" ++ lit "https://openai.com"))
  = Ok (lit "<a href=" ++ [DQUOTE] ++ lit "https://openai.com" ++ [DQUOTE]
        ++ lit ">" ++ lit "OpenAI" ++ lit "</a>")
  /\ tokenToHtml (Tok IMAGE (lit "OpenAI" ++ lit "|" ++ lit "https://openai.com"))
     = Ok (lit "<img src=" ++ [DQUOTE] ++ lit "https://openai.com" ++ [DQUOTE]
           ++ lit " alt=" ++ [DQUOTE] ++ lit "OpenAI" ++ [DQUOTE] ++ lit ">").
Proof.
  apply (link_payload_split (lit "OpenAI") (lit "https://openai.com"));
    [reflexivity | unfold size_max; simpl; lia].
Defined.

(** X5. A Link or Image payload without any [|]: [find] gives [npos],
    [npos + 1] wraps to 0, and both parts of the tag are the whole payload;
    nothing is thrown. *)
Theorem link_payload_without_bar (value : str) :
  has_bar value = false ->
  (Z.of_nat (length (escapeHtml value)) < size_max)%Z ->
  tokenToHtml (Tok LINK value)
  = Ok (lit "<a href=" ++ [DQUOTE] ++ escapeHtml value ++ [DQUOTE] ++ lit ">"
        ++ escapeHtml value ++ lit "</a>")
  /\ tokenToHtml (Tok IMAGE value)
     = Ok (lit "<img src=" ++ [DQUOTE] ++ escapeHtml value ++ [DQUOTE] ++ lit " alt="
           ++ [DQUOTE] ++ escapeHtml value ++ [DQUOTE] ++ lit ">").
Proof.
  intros Hb Hlen. unfold tokenToHtml. cbn [Tok getType getValue].
  unfold find. rewrite find_from_no_bar by now apply escapeHtml_no_bar.
  change (size_add npos 1) with 0%Z.
  rewrite !substr_whole by (unfold npos; lia).
  split; reflexivity.
Qed.

Lemma link_payload_without_bar_witness :
  tokenToHtml (Tok LINK (lit "x"))
  = Ok (lit "<a href=" ++ [DQUOTE] ++ lit "x" ++ [DQUOTE] ++ lit ">x</a>")
  /\ tokenToHtml (Tok IMAGE (lit "x"))
     = Ok (lit "<img src=" ++ [DQUOTE] ++ lit "x" ++ [DQUOTE] ++ lit " alt="
           ++ [DQUOTE] ++ lit "x" ++ [DQUOTE] ++ lit ">").
Proof.
  apply (link_payload_without_bar (lit "x")); [reflexivity | unfold size_max; simpl; lia].
Defined.

(** ** Links, images and list items *)

(** Brings nested appends to one right-nested list. *)
Ltac flatten_app :=
  repeat (rewrite <- app_assoc || rewrite <- app_comm_cons); cbn [app].

Lemma next_token_link (t u tail : str) :
  link_text_ok 0 t = true -> free_of ")" u = true ->
  next_token (lit "[" ++ t ++ lit "](" ++ u ++ lit ")" ++ tail)
  = (Tok LINK (unescape_brackets t ++ lit "|" ++ u), tail).
Proof.
  intros Ht Hu. unfold next_token. cbn [lit list_ascii_of_string app head hd].
  change ("[" =? NUL) with false. cbv iota. cbn [scan_newlines].
  change ("[" =? LF) with false. cbv iota. cbn [fst snd].
  unfold lex_dispatch, lex_link. cbn [head hd tl].
  change ("[" =? "#") with false. change ("[" =? "*") with false.
  change ("[" =? "[") with true. cbv iota.
  pose proof (scan_link_text_ok ("(" :: u ++ ")" :: tail) (length t) t 0 []
                (le_n _) Ht) as Hscan.
  change (Z.of_nat 1) with 1%Z in Hscan. rewrite Hscan.
  cbn [fst snd app head hd tl]. change (0 >? 0)%Z with false.
  change (neqb "(" "(") with false. cbv iota.
  rewrite scan_until_free by (try assumption; reflexivity).
  reflexivity.
Qed.

Lemma next_token_image (t u tail : str) :
  link_text_ok 0 t = true -> free_of ")" u = true ->
  next_token (lit "![" ++ t ++ lit "](" ++ u ++ lit ")" ++ tail)
  = (Tok IMAGE (unescape_brackets t ++ lit "|" ++ u), tail).
Proof.
  intros Ht Hu.
  pose proof (next_token_link t u tail Ht Hu) as Hl.
  unfold next_token in Hl |- *. cbn [lit list_ascii_of_string app head hd] in Hl |- *.
  change ("[" =? NUL) with false in Hl. change ("!" =? NUL) with false.
  cbv iota in Hl |- *. cbn [scan_newlines] in Hl |- *.
  change ("[" =? LF) with false in Hl. change ("!" =? LF) with false.
  cbv iota in Hl |- *. cbn [fst snd] in Hl |- *.
  unfold lex_dispatch in Hl |- *. cbn [head hd] in Hl |- *.
  change ("[" =? "#") with false in Hl. change ("[" =? "*") with false in Hl.
  change ("[" =? "[") with true in Hl. cbv iota in Hl.
  change ("!" =? "#") with false. change ("!" =? "*") with false.
  change ("!" =? "[") with false. change ("!" =? "!") with true. cbv iota.
  unfold lex_image. cbn [tl head hd]. change (neqb "[" "[") with false. cbv iota.
  now rewrite Hl.
Qed.

(** X6. A link [[t](u)]: a balanced bracketed text [t] directly followed
    by a parenthesised [u] without [)] and line break.  Wherever it stands,
    the lexer emits a Link token with payload [t|u] (an escaped [\[] of [t]
    written [[]) and stands behind the [)].  When [t] has no [|], an input
    that is just the link is rendered as a paragraph holding
    [<a href="u">t</a>]. *)
Theorem link_token (pre t u tail : str) :
  link_text_ok 0 t = true -> free_of ")" u = true ->
  let source := lit "[" ++ t ++ lit "](" ++ u ++ lit ")" in
  let payload := unescape_brackets t ++ lit "|" ++ u in
  (forall fuel, length (source ++ tail) < fuel ->
     get_next_token fuel (lexer_at (pre ++ source ++ tail) (length pre))
     = Ok (Tok LINK payload,
           lexer_at (pre ++ source ++ tail) (length pre + length source)))
  /\ (has_bar (unescape_brackets t) = false ->
      (Z.of_nat (length (escapeHtml payload)) < size_max)%Z ->
      parse source
      = Ok (lit "<p><a href=" ++ [DQUOTE] ++ escapeHtml u ++ [DQUOTE] ++ lit ">"
            ++ escapeHtml (unescape_brackets t) ++ lit "</a></p>" ++ [LF])).
Proof.
  intros Ht Hu source payload.
  assert (Hn : forall tail', next_token (source ++ tail') = (Tok LINK payload, tail')).
  { intros tail'. subst source. rewrite <- !app_assoc. now apply next_token_link. }
  split.
  - intros fuel Hf. now apply get_next_token_at.
  - intros Hb Hlen.
    rewrite parse_all_tokens, (all_tokens_single source (Tok LINK payload));
      [ | rewrite <- (app_nil_r source); apply Hn | reflexivity].
    unfold tokensToHtml. cbn [tokensToHtml_loop]. subst payload.
    rewrite tokenToHtml_link by assumption. cbn. now flatten_app.
Qed.

Lemma link_token_witness :
  (forall fuel, length (lit "[link](http://example.com)" ++ lit ".") < fuel ->
     get_next_token fuel
       (lexer_at (lit "This is a " ++ lit "[link](http://example.com)" ++ lit ".") 10)
     = Ok (Tok LINK (lit "link|http://example.com"),
           lexer_at (lit "This is a " ++ lit "[link](http://example.com)" ++ lit ".") 36))
  /\ (has_bar (lit "link") = false ->
      (Z.of_nat (length (escapeHtml (lit "link|http://example.com"))) < size_max)%Z ->
      parse (lit "[link](http://example.com)")
      = Ok (lit "<p><a href=" ++ [DQUOTE] ++ lit "http://example.com" ++ [DQUOTE]
            ++ lit ">link</a></p>" ++ [LF])).
Proof.
  apply (link_token (lit "This is a ") (lit "link") (lit "http://example.com")
           (lit ".")); reflexivity.
Defined.

(** X7. An image [![t](u)] is lexed as the link behind the [!] and gives
    an Image token with the same payload [t|u]; an input that is just the
    image is rendered as a paragraph holding [<img src="u" alt="t">].  A
    [!] that no [[] follows is a Text token [!] of its own. *)
Theorem image_token (pre t u tail : str) :
  link_text_ok 0 t = true -> free_of ")" u = true ->
  let source := lit "![" ++ t ++ lit "](" ++ u ++ lit ")" in
  let payload := unescape_brackets t ++ lit "|" ++ u in
  (forall fuel, length (source ++ tail) < fuel ->
     get_next_token fuel (lexer_at (pre ++ source ++ tail) (length pre))
     = Ok (Tok IMAGE payload,
           lexer_at (pre ++ source ++ tail) (length pre + length source)))
  /\ (has_bar (unescape_brackets t) = false ->
      (Z.of_nat (length (escapeHtml payload)) < size_max)%Z ->
      parse source
      = Ok (lit "<p><img src=" ++ [DQUOTE] ++ escapeHtml u ++ [DQUOTE]
            ++ lit " alt=" ++ [DQUOTE] ++ escapeHtml (unescape_brackets t)
            ++ [DQUOTE] ++ lit "></p>" ++ [LF]))
  /\ (forall fuel rest, neqb (head rest) "[" = true -> length (lit "!" ++ rest) < fuel ->
      get_next_token fuel (lexer_at (pre ++ lit "!" ++ rest) (length pre))
      = Ok (Tok TEXT (lit "!"), lexer_at (pre ++ lit "!" ++ rest) (length pre + 1))).
Proof.
  intros Ht Hu source payload.
  assert (Hn : forall tail', next_token (source ++ tail') = (Tok IMAGE payload, tail')).
  { intros tail'. subst source. rewrite <- !app_assoc. now apply next_token_image. }
  split; [|split].
  - intros fuel Hf. now apply get_next_token_at.
  - intros Hb Hlen.
    rewrite parse_all_tokens, (all_tokens_single source (Tok IMAGE payload));
      [ | rewrite <- (app_nil_r source); apply Hn | reflexivity].
    unfold tokensToHtml. cbn [tokensToHtml_loop]. subst payload.
    rewrite tokenToHtml_image by assumption. cbn. now flatten_app.
  - intros fuel rest Hr Hf.
    apply (get_next_token_at fuel pre (lit "!") rest); [|exact Hf].
    unfold next_token, lex_dispatch, lex_image. cbn. now rewrite Hr.
Qed.

Lemma image_token_witness :
  (forall fuel, length (lit "![Alt text](image.png)" ++ lit ".") < fuel ->
     get_next_token fuel
       (lexer_at (lit "An image " ++ lit "![Alt text](image.png)" ++ lit ".") 9)
     = Ok (Tok IMAGE (lit "Alt text|image.png"),
           lexer_at (lit "An image " ++ lit "![Alt text](image.png)" ++ lit ".") 31))
  /\ (has_bar (lit "Alt text") = false ->
      (Z.of_nat (length (escapeHtml (lit "Alt text|image.png"))) < size_max)%Z ->
      parse (lit "![Alt text](image.png)")
      = Ok (lit "<p><img src=" ++ [DQUOTE] ++ lit "image.png" ++ [DQUOTE]
            ++ lit " alt=" ++ [DQUOTE] ++ lit "Alt text" ++ [DQUOTE]
            ++ lit "></p>" ++ [LF]))
  /\ (forall fuel rest, neqb (head rest) "[" = true -> length (lit "!" ++ rest) < fuel ->
      get_next_token fuel (lexer_at (lit "An image " ++ lit "!" ++ rest) 9)
      = Ok (Tok TEXT (lit "!"), lexer_at (lit "An image " ++ lit "!" ++ rest) 10)).
Proof.
  apply (image_token (lit "An image ") (lit "Alt text") (lit "image.png") (lit "."));
    reflexivity.
Defined.

Lemma next_token_list_item (w : ascii) (content tail : str) :
  isspace w = true -> free_of LF content = true -> stops_at LF tail = true ->
  next_token ("-" :: w :: content ++ tail) = (Tok LIST content, drop_newline tail).
Proof.
  intros Hw Hc Ht. unfold next_token. cbn [head hd].
  change ("-" =? NUL) with false. cbv iota. cbn [scan_newlines].
  change ("-" =? LF) with false. cbv iota. cbn [fst snd].
  unfold lex_dispatch, lex_list. cbn [head hd tl]. rewrite Hw. cbn [negb].
  now rewrite scan_until_free by assumption.
Qed.

(** X8. A list item: [-], one whitespace character, and the item text up
    to the end of the line.  The lexer emits a ListItem token with the text
    as payload and passes the line break.  The handler skips exactly one
    whitespace character, whichever it is: further blanks stay in the
    payload, and when the character is a line break the item text is the
    next line. *)
Theorem list_item_token (pre : str) (w : ascii) (content tail : str) :
  isspace w = true -> free_of LF content = true -> stops_at LF tail = true ->
  let line := "-" :: w :: content in
  forall fuel, length (line ++ tail) < fuel ->
    get_next_token fuel (lexer_at (pre ++ line ++ tail) (length pre))
    = Ok (Tok LIST content,
          lexer_at (pre ++ line ++ tail)
            (length pre + length line + (if head tail =? LF then 1 else 0))).
Proof.
  intros Hw Hc Ht line fuel Hf. apply get_next_token_line; [|exact Hf].
  now apply next_token_list_item.
Qed.

Lemma list_item_token_witness :
  (forall fuel, length (lit "- Item 1" ++ [LF] ++ lit "- Item 2") < fuel ->
     get_next_token fuel (lexer_at (lit "- Item 1" ++ [LF] ++ lit "- Item 2") 0)
     = Ok (Tok LIST (lit "Item 1"),
           lexer_at (lit "- Item 1" ++ [LF] ++ lit "- Item 2") 9))
  /\ (forall fuel, length ("-" :: LF :: lit "next line") < fuel ->
      get_next_token fuel (lexer_at ("-" :: LF :: lit "next line") 0)
      = Ok (Tok LIST (lit "next line"), lexer_at ("-" :: LF :: lit "next line") 11)).
Proof.
  split.
  - apply (list_item_token [] " " (lit "Item 1") ([LF] ++ lit "- Item 2"));
      reflexivity.
  - apply (list_item_token [] LF (lit "next line") []); reflexivity.
Defined.

(** ** Invariants of the lexer *)

Lemma lexer_at_cursor (t : str) (n : nat) :
  n <= length t -> lexer_at t n = cursor t (skipn n t).
Proof.
  intros H. unfold cursor. f_equal. rewrite length_skipn. lia.
Qed.

Lemma is_suffix_skipn (t : str) (n : nat) : is_suffix (skipn n t) t.
Proof. exists (firstn n t). symmetry. apply firstn_skipn. Qed.

(** X9. The lexer keeps its cursor well formed.  Started at a position
    within the text with [current_char] in step, [get_next_token] returns a
    token and leaves the text unchanged, [current_char] in step and the
    position within the text; the position never moves back, and it moves
    forward whenever the token is not the end-of-input token. *)
Theorem get_next_token_advances (fuel : nat) (t : str) (n : nat) :
  n <= length t -> length t - n < fuel ->
  exists (token : Token) (n' : nat),
    get_next_token fuel (lexer_at t n) = Ok (token, lexer_at t n')
    /\ n <= n' <= length t
    /\ (isEOF token = false -> n < n').
Proof.
  intros Hn Hf. rewrite lexer_at_cursor by assumption.
  pose proof (is_suffix_skipn t n) as Hs.
  assert (Hl : length (skipn n t) = length t - n) by apply length_skipn.
  rewrite get_next_token_lex by (try assumption; lia).
  set (s := skipn n t) in *.
  pose proof (next_token_suffix s s (is_suffix_refl s)) as Hs'.
  apply is_suffix_length in Hs'.
  exists (fst (next_token s)), (length t - length (snd (next_token s))).
  split; [reflexivity|]. split; [lia|].
  intros He. apply next_token_progress in He. lia.
Qed.

Lemma get_next_token_advances_witness :
  exists (token : Token) (n' : nat),
    get_next_token 20 (lexer_at (lit "# Title" ++ [LF] ++ lit "- item") 8)
    = Ok (token, lexer_at (lit "# Title" ++ [LF] ++ lit "- item") n')
    /\ 8 <= n' <= length (lit "# Title" ++ [LF] ++ lit "- item")
    /\ (isEOF token = false -> 8 < n').
Proof.
  apply (get_next_token_advances 20 (lit "# Title" ++ [LF] ++ lit "- item") 8);
    simpl; lia.
Defined.

Lemma lex_dispatch_not_eof (s : str) : isEOF (fst (lex_dispatch s)) = false.
Proof.
  unfold lex_dispatch.
  destruct (head s =? "#").
  { unfold lex_heading.
    destruct (negb (isspace (head (snd (scan_hashes 1 (tl s))))));
      cbn [fst]; [reflexivity|].
    unfold heading_token.
    repeat match goal with
           | |- context [match ?x with _ => _ end] => destruct x
           end; reflexivity. }
  destruct (head s =? "*").
  { unfold lex_emphasis.
    destruct (head (tl s) =? "*").
    - match goal with |- context [if ?b then _ else _] => destruct b end;
        reflexivity.
    - generalize (@nil ascii). generalize (tl s). clear.
      intros s. induction s as [|c s IH]; intros acc; cbn [scan_italic];
        [reflexivity|].
      destruct (neqb c NUL && neqb c LF); [|reflexivity].
      destruct (c =? "*"); [reflexivity|apply IH]. }
  destruct (head s =? "[").
  { unfold lex_link.
    repeat match goal with |- context [if ?b then _ else _] => destruct b end;
      reflexivity. }
  destruct (head s =? "!").
  { unfold lex_image.
    repeat match goal with |- context [if ?b then _ else _] => destruct b end;
      reflexivity. }
  destruct (head s =? "-").
  { unfold lex_list. destruct (negb (isspace (head (tl s)))); reflexivity. }
  reflexivity.
Qed.

Lemma next_token_eof (s : str) :
  isEOF (fst (next_token s)) = true ->
  fst (next_token s) = createEOF /\ head (snd (next_token s)) = NUL.
Proof.
  unfold next_token. destruct (head s =? NUL) eqn:E0.
  - intros _. split; [reflexivity|]. now apply Ascii.eqb_eq.
  - destruct (fst (scan_newlines s)) as [eof|] eqn:E.
    + intros _. cbn [fst snd]. split; [now apply (scan_newlines_eof s)|].
      clear E0. revert eof E. induction s as [|c s IH]; intros eof;
        cbn [scan_newlines]; [discriminate|].
      destruct (c =? LF); [|discriminate].
      destruct (head s =? NUL) eqn:E1; [|apply IH].
      intros _. cbn [snd]. now apply Ascii.eqb_eq.
    + destruct (scan_newlines_stops s) as [H0 H1];
        [unfold neqb; now rewrite E0 | exact E |].
      intros He. now rewrite lex_dispatch_not_eof in He.
Qed.

(** X10. The end of input is final: once [get_next_token] has returned the
    end-of-input token, every further call, whatever its bound, returns it
    again and leaves the lexer as it is. *)
Theorem end_of_input_is_final (fuel : nat) (t : str) (n : nat)
        (token : Token) (l : Lexer) :
  n <= length t -> length t - n < fuel ->
  get_next_token fuel (lexer_at t n) = Ok (token, l) ->
  isEOF token = true ->
  token = createEOF
  /\ forall fuel', get_next_token fuel' l = Ok (createEOF, l).
Proof.
  intros Hn Hf H He. rewrite lexer_at_cursor in H by assumption.
  pose proof (is_suffix_skipn t n) as Hs.
  assert (Hl : length (skipn n t) = length t - n) by apply length_skipn.
  rewrite get_next_token_lex in H by (try assumption; lia).
  injection H as <- <-.
  destruct (next_token_eof _ He) as [H1 H2]. split; [exact H1|].
  intros fuel'. unfold get_next_token.
  rewrite run_cur by suffix_ok. rewrite H2. reflexivity.
Qed.

Lemma end_of_input_is_final_witness :
  createEOF = createEOF
  /\ forall fuel',
       get_next_token fuel' (lexer_at (lit "a" ++ [LF; LF]) 3)
       = Ok (createEOF, lexer_at (lit "a" ++ [LF; LF]) 3).
Proof.
  apply (end_of_input_is_final 5 (lit "a" ++ [LF; LF]) 1 createEOF
           (lexer_at (lit "a" ++ [LF; LF]) 3)); try reflexivity; simpl; lia.
Defined.

Lemma scan_italic_value (s : str) :
  forall acc, getType (fst (scan_italic acc s)) = TEXT ->
              getValue (fst (scan_italic acc s)) <> [].
Proof.
  induction s as [|c s IH]; intros acc; cbn [scan_italic]; [discriminate|].
  destruct (neqb c NUL && neqb c LF); [|discriminate].
  destruct (c =? "*"); [discriminate|apply IH].
Qed.

Lemma scan_text_acc (s : str) :
  forall acc, exists more, fst (scan_text acc s) = acc ++ more.
Proof.
  induction s as [|c s IH]; intros acc; cbn [scan_text].
  - exists []. now rewrite app_nil_r.
  - destruct (neqb c NUL && negb (is_markdown_char c)).
    + destruct ((c =? LF) && (head s =? LF)).
      * exists []. now rewrite app_nil_r.
      * destruct (IH (acc ++ [c])) as [more ->]. exists (c :: more).
        now rewrite <- app_assoc.
    + exists []. now rewrite app_nil_r.
Qed.

Lemma pop_back_newlines_keeps (x : str) (c : ascii) :
  (c =? LF) = false -> pop_back_newlines (x ++ [c]) <> [].
Proof.
  intros Hc. induction x as [|d x IH]; cbn [app pop_back_newlines].
  - rewrite Hc. discriminate.
  - destruct (d =? LF); [exact IH|discriminate].
Qed.

Lemma trim_keeps_first (c : ascii) (more : str) :
  (c =? LF) = false -> trim_trailing_newlines (c :: more) <> [].
Proof.
  intros Hc. unfold trim_trailing_newlines. cbn [rev].
  intros H. apply (f_equal (@rev ascii)) in H. rewrite rev_involutive in H.
  now apply (pop_back_newlines_keeps (rev more) c).
Qed.

Lemma hashes_not_nil (level : Z) : (1 <= level)%Z -> hashes level <> [].
Proof.
  intros H. unfold hashes. destruct (Z.to_nat level) eqn:E; [lia|discriminate].
Qed.

Lemma lex_dispatch_text_value (s : str) :
  neqb (head s) NUL = true -> neqb (head s) LF = true ->
  getType (fst (lex_dispatch s)) = TEXT -> getValue (fst (lex_dispatch s)) <> [].
Proof.
  intros H0 H1. unfold lex_dispatch.
  destruct (head s =? "#") eqn:E1.
  { unfold lex_heading.
    destruct (scan_hashes_split (tl s) 1) as (j & _ & Hl & Hle); [lia|].
    destruct (negb (isspace (head (snd (scan_hashes 1 (tl s)))))); cbn [fst].
    - intros _. cbn [Tok getValue]. intros H. apply app_eq_nil in H.
      destruct H as [H _]. revert H. apply hashes_not_nil. lia.
    - intros Ht. exfalso. revert Ht. apply heading_token_not_text. lia. }
  destruct (head s =? "*") eqn:E2.
  { unfold lex_emphasis. destruct (head (tl s) =? "*").
    - match goal with |- context [if ?b then _ else _] => destruct b end;
        discriminate.
    - apply scan_italic_value. }
  destruct (head s =? "[") eqn:E3.
  { unfold lex_link.
    repeat match goal with |- context [if ?b then _ else _] => destruct b end;
      discriminate. }
  destruct (head s =? "!") eqn:E4.
  { unfold lex_image.
    repeat match goal with |- context [if ?b then _ else _] => destruct b end;
      discriminate. }
  destruct (head s =? "-") eqn:E5.
  { unfold lex_list. destruct (negb (isspace (head (tl s)))); discriminate. }
  intros _. cbn [fst Tok getValue].
  rewrite scan_text_step;
    [| assumption | assumption | unfold is_markdown_char; now rewrite E1, E2, E3, E4, E5].
  destruct (scan_text_acc (tl s) [head s]) as [more ->]. cbn [app].
  apply trim_keeps_first. unfold neqb in H1. now apply negb_true_iff in H1.
Qed.

Lemma next_token_text_value (s : str) :
  isEOF (fst (next_token s)) = false ->
  getType (fst (next_token s)) = TEXT -> getValue (fst (next_token s)) <> [].
Proof.
  unfold next_token. destruct (head s =? NUL) eqn:E0; [discriminate|].
  destruct (fst (scan_newlines s)) as [eof|] eqn:E.
  - cbn [fst]. apply scan_newlines_eof in E. subst eof. discriminate.
  - intros _. destruct (scan_newlines_stops s) as [H0 H1];
      [unfold neqb; now rewrite E0 | exact E |].
    now apply lex_dispatch_text_value.
Qed.

(** X11. Only the end-of-input token is a Text token with an empty
    payload: a Text token that [get_next_token] returns before the end of
    input holds at least one character. *)
Theorem text_token_not_empty (fuel : nat) (t : str) (n : nat)
        (token : Token) (l : Lexer) :
  n <= length t -> length t - n < fuel ->
  get_next_token fuel (lexer_at t n) = Ok (token, l) ->
  isEOF token = false -> getType token = TEXT ->
  getValue token <> [].
Proof.
  intros Hn Hf H He Ht. rewrite lexer_at_cursor in H by assumption.
  assert (Hl : length (skipn n t) = length t - n) by apply length_skipn.
  rewrite get_next_token_lex in H by (try apply is_suffix_skipn; lia).
  injection H as <- <-. now apply next_token_text_value.
Qed.

Lemma text_token_not_empty_witness : getValue (Tok TEXT (lit "#")) <> [].
Proof.
  apply (text_token_not_empty 2 (lit "#") 0 (Tok TEXT (lit "#")) (lexer_at (lit "#") 1));
    try reflexivity; simpl; lia.
Defined.

Lemma all_tokens_length (n : nat) :
  forall s : str, length (all_tokens n s) <= length s.
Proof.
  induction n as [|n IH]; intros s; cbn [all_tokens]; [simpl; lia|].
  destruct (isEOF (fst (next_token s))) eqn:E; [simpl; lia|].
  apply next_token_progress in E. specialize (IH (snd (next_token s))).
  cbn [length]. lia.
Qed.

Lemma all_tokens_not_eof (n : nat) :
  forall s : str, Forall (fun token => isEOF token = false) (all_tokens n s).
Proof.
  induction n as [|n IH]; intros s; cbn [all_tokens]; [constructor|].
  destruct (isEOF (fst (next_token s))) eqn:E; constructor; auto.
Qed.

(** X12. The token vector that [Parser::parse] builds has at most as many
    tokens as the input has characters, and the end-of-input token is not
    among them. *)
Theorem token_count_bound (markdown : str) :
  exists tokens : list Token,
    tokens_of markdown = Ok tokens
    /\ length tokens <= length markdown
    /\ Forall (fun token => isEOF token = false) tokens.
Proof.
  exists (all_tokens (length markdown) markdown). split; [|split].
  - apply tokens_of_all_tokens.
  - apply all_tokens_length.
  - apply all_tokens_not_eof.
Qed.

Lemma next_token_newlines_only (n : nat) (tail : str) :
  head tail = NUL -> isEOF (fst (next_token (repeat LF n ++ tail))) = true.
Proof.
  intros Ht. unfold next_token. destruct n as [|n].
  - cbn [repeat app]. now rewrite Ht.
  - cbn [repeat app head hd]. change (LF =? NUL) with false. cbv iota.
    assert (E : fst (scan_newlines (LF :: repeat LF n ++ tail)) = Some createEOF).
    { induction n as [|n IH]; cbn [repeat app scan_newlines];
        change (LF =? LF) with true; cbv iota.
      - now rewrite Ht.
      - cbn [head hd]. change (LF =? NUL) with false. cbv iota. exact IH. }
    now rewrite E.
Qed.

(** X13. An input without content, that is any number of line breaks
    followed by the end of the text or by a NUL byte, gives no token and
    the empty output. *)
Theorem blank_input_empty_output (n : nat) (tail : str) :
  head tail = NUL ->
  tokens_of (repeat LF n ++ tail) = Ok [] /\ parse (repeat LF n ++ tail) = Ok [].
Proof.
  intros Ht.
  assert (E : all_tokens (length (repeat LF n ++ tail)) (repeat LF n ++ tail) = []).
  { rewrite all_tokens_step. now rewrite next_token_newlines_only. }
  split.
  - now rewrite tokens_of_all_tokens, E.
  - now rewrite parse_all_tokens, E.
Qed.

Lemma blank_input_empty_output_witness :
  tokens_of (repeat LF 3 ++ []) = Ok [] /\ parse (repeat LF 3 ++ []) = Ok [].
Proof. apply (blank_input_empty_output 3 []). reflexivity. Defined.

(** ** A NUL byte ends the input *)

Section Truncation.

Variable b : str.

Lemma head_before_NUL (a : str) : head (a ++ NUL :: b) = head a.
Proof. now destruct a. Qed.

Lemma tl_before_NUL (a : str) : a <> [] -> tl (a ++ NUL :: b) = tl a ++ NUL :: b.
Proof. destruct a; [contradiction|reflexivity]. Qed.

Lemma head_eq_not_nil (a : str) (c : ascii) :
  (head a =? c) = true -> c <> NUL -> a <> [].
Proof.
  intros H Hc ->. cbn [head hd] in H. apply Ascii.eqb_eq in H. congruence.
Qed.

Lemma scan_until_before_NUL (delimiter : ascii) (a : str) :
  scan_until delimiter (a ++ NUL :: b)
  = (fst (scan_until delimiter a), snd (scan_until delimiter a) ++ NUL :: b).
Proof.
  induction a as [|c a IH]; [reflexivity|]. cbn [app scan_until].
  destruct (neqb c NUL && neqb c delimiter && neqb c LF); [|reflexivity].
  now rewrite IH.
Qed.

Lemma drop_newline_before_NUL (a : str) :
  drop_newline (a ++ NUL :: b) = drop_newline a ++ NUL :: b.
Proof.
  unfold drop_newline. rewrite head_before_NUL.
  destruct (head a =? LF) eqn:E; [|reflexivity].
  apply tl_before_NUL. now apply (head_eq_not_nil a LF).
Qed.

Lemma scan_hashes_before_NUL (a : str) :
  forall level,
    scan_hashes level (a ++ NUL :: b)
    = (fst (scan_hashes level a), snd (scan_hashes level a) ++ NUL :: b).
Proof.
  induction a as [|c a IH]; intros level; [reflexivity|]. cbn [app scan_hashes].
  destruct ((c =? "#") && (level <? 6)%Z); [apply IH|reflexivity].
Qed.

Lemma scan_spaces_before_NUL (a : str) :
  scan_spaces (a ++ NUL :: b) = scan_spaces a ++ NUL :: b.
Proof.
  induction a as [|c a IH]; [reflexivity|]. cbn [app scan_spaces].
  destruct (isspace c && neqb c LF); [apply IH|reflexivity].
Qed.

Lemma scan_italic_before_NUL (a : str) :
  forall acc,
    scan_italic acc (a ++ NUL :: b)
    = (fst (scan_italic acc a), snd (scan_italic acc a) ++ NUL :: b).
Proof.
  induction a as [|c a IH]; intros acc; [reflexivity|]. cbn [app scan_italic].
  destruct (neqb c NUL && neqb c LF); [|reflexivity].
  destruct (c =? "*"); [reflexivity|apply IH].
Qed.

Lemma scan_link_text_before_NUL :
  forall (m : nat) (a text : str) (bracket_count : Z),
    length a <= m ->
    scan_link_text text bracket_count (a ++ NUL :: b)
    = (fst (scan_link_text text bracket_count a),
       snd (scan_link_text text bracket_count a) ++ NUL :: b).
Proof.
  induction m as [|m IH]; intros [|c a] text bc Hm; try (simpl in Hm; lia);
    try reflexivity.
  cbn [app scan_link_text]. destruct (neqb c NUL); [|reflexivity].
  rewrite head_before_NUL.
  destruct ((c =? BACKSLASH) && (head a =? "[")) eqn:E.
  - destruct a as [|d a]; [now rewrite andb_false_r in E|]. cbn [app].
    apply IH. simpl in Hm. lia.
  - match goal with |- context [(_ =? "]") && ?x] => destruct ((c =? "]") && x) end;
      [reflexivity|].
    apply IH. simpl in Hm. lia.
Qed.

Lemma scan_newlines_before_NUL (a : str) :
  scan_newlines (a ++ NUL :: b) = (fst (scan_newlines a), snd (scan_newlines a) ++ NUL :: b).
Proof.
  induction a as [|c a IH]; [reflexivity|]. cbn [app scan_newlines].
  destruct (c =? LF); [|reflexivity]. rewrite head_before_NUL.
  destruct (head a =? NUL); [reflexivity|apply IH].
Qed.

Lemma scan_text_before_NUL (a : str) :
  forall acc,
    scan_text acc (a ++ NUL :: b) = (fst (scan_text acc a), snd (scan_text acc a) ++ NUL :: b).
Proof.
  induction a as [|c a IH]; intros acc; [reflexivity|]. cbn [app scan_text].
  destruct (neqb c NUL && negb (is_markdown_char c)); [|reflexivity].
  rewrite head_before_NUL.
  destruct ((c =? LF) && (head a =? LF)); [reflexivity|apply IH].
Qed.

Lemma lex_heading_before_NUL (a : str) :
  a <> [] ->
  lex_heading (a ++ NUL :: b) = (fst (lex_heading a), snd (lex_heading a) ++ NUL :: b).
Proof.
  intros Ha. unfold lex_heading. rewrite tl_before_NUL by assumption.
  rewrite scan_hashes_before_NUL. cbn [fst snd]. rewrite head_before_NUL.
  destruct (negb (isspace (head (snd (scan_hashes 1 (tl a)))))).
  - rewrite scan_until_before_NUL. cbn [fst snd].
    now rewrite drop_newline_before_NUL.
  - rewrite scan_spaces_before_NUL, scan_until_before_NUL. cbn [fst snd].
    now rewrite drop_newline_before_NUL.
Qed.

Lemma lex_emphasis_before_NUL (a : str) :
  a <> [] ->
  lex_emphasis (a ++ NUL :: b) = (fst (lex_emphasis a), snd (lex_emphasis a) ++ NUL :: b).
Proof.
  intros Ha. unfold lex_emphasis. rewrite tl_before_NUL by assumption.
  rewrite head_before_NUL.
  destruct (head (tl a) =? "*") eqn:E; [|apply scan_italic_before_NUL].
  rewrite tl_before_NUL by (apply (head_eq_not_nil _ "*"); [exact E|discriminate]).
  rewrite scan_until_before_NUL. cbn [fst snd]. rewrite head_before_NUL.
  set (s1 := snd (scan_until "*" (tl (tl a)))).
  destruct (head s1 =? "*") eqn:E1; [|reflexivity].
  assert (H1 : s1 <> []) by (apply (head_eq_not_nil _ "*"); [exact E1|discriminate]).
  rewrite tl_before_NUL by assumption. rewrite head_before_NUL.
  destruct (head (tl s1) =? "*") eqn:E2; [|reflexivity].
  cbn [andb fst snd]. f_equal.
  apply tl_before_NUL. apply (head_eq_not_nil _ "*"); [exact E2|discriminate].
Qed.

Lemma lex_link_before_NUL (a : str) :
  a <> [] ->
  lex_link (a ++ NUL :: b) = (fst (lex_link a), snd (lex_link a) ++ NUL :: b).
Proof.
  intros Ha. unfold lex_link. rewrite tl_before_NUL by assumption.
  rewrite (scan_link_text_before_NUL (length (tl a))) by lia. cbn [fst snd].
  set (r := scan_link_text [] 1 (tl a)).
  destruct (snd (fst r) >? 0)%Z; [reflexivity|].
  rewrite head_before_NUL.
  destruct (neqb (head (snd r)) "(") eqn:E; [reflexivity|].
  apply neqb_false in E.
  rewrite tl_before_NUL by (intros H; rewrite H in E; discriminate).
  rewrite scan_until_before_NUL. cbn [fst snd]. rewrite head_before_NUL.
  set (s2 := snd (scan_until ")" (tl (snd r)))).
  destruct (neqb (head s2) ")") eqn:E2; [reflexivity|].
  apply neqb_false in E2. cbn [fst snd]. f_equal.
  apply tl_before_NUL. intros H. rewrite H in E2. discriminate.
Qed.

Lemma lex_image_before_NUL (a : str) :
  a <> [] ->
  lex_image (a ++ NUL :: b) = (fst (lex_image a), snd (lex_image a) ++ NUL :: b).
Proof.
  intros Ha. unfold lex_image. rewrite tl_before_NUL by assumption.
  rewrite head_before_NUL.
  destruct (neqb (head (tl a)) "[") eqn:E; [reflexivity|].
  apply neqb_false in E.
  rewrite lex_link_before_NUL by (intros H; rewrite H in E; discriminate).
  cbn [fst snd]. destruct (TokenType_eqb _ LINK); reflexivity.
Qed.

Lemma lex_list_before_NUL (a : str) :
  a <> [] ->
  lex_list (a ++ NUL :: b) = (fst (lex_list a), snd (lex_list a) ++ NUL :: b).
Proof.
  intros Ha. unfold lex_list. rewrite tl_before_NUL by assumption.
  rewrite head_before_NUL.
  destruct (isspace (head (tl a))) eqn:E; cbn [negb].
  - rewrite tl_before_NUL by (intros H; rewrite H in E; discriminate).
    rewrite scan_until_before_NUL. cbn [fst snd].
    now rewrite drop_newline_before_NUL.
  - rewrite scan_until_before_NUL. cbn [fst snd].
    now rewrite drop_newline_before_NUL.
Qed.

Lemma lex_dispatch_before_NUL (a : str) :
  a <> [] ->
  lex_dispatch (a ++ NUL :: b) = (fst (lex_dispatch a), snd (lex_dispatch a) ++ NUL :: b).
Proof.
  intros Ha. unfold lex_dispatch. rewrite head_before_NUL.
  destruct (head a =? "#"); [now apply lex_heading_before_NUL|].
  destruct (head a =? "*"); [now apply lex_emphasis_before_NUL|].
  destruct (head a =? "["); [now apply lex_link_before_NUL|].
  destruct (head a =? "!"); [now apply lex_image_before_NUL|].
  destruct (head a =? "-"); [now apply lex_list_before_NUL|].
  now rewrite scan_text_before_NUL.
Qed.

Lemma next_token_before_NUL (a : str) :
  next_token (a ++ NUL :: b) = (fst (next_token a), snd (next_token a) ++ NUL :: b).
Proof.
  unfold next_token. rewrite head_before_NUL.
  destruct (head a =? NUL) eqn:E0; [reflexivity|].
  rewrite scan_newlines_before_NUL. cbn [fst snd].
  destruct (fst (scan_newlines a)) as [eof|] eqn:E; [reflexivity|].
  apply lex_dispatch_before_NUL.
  destruct (scan_newlines_stops a) as [H0 _];
    [unfold neqb; now rewrite E0 | exact E |].
  intros H. rewrite H in H0. discriminate.
Qed.

Lemma all_tokens_before_NUL (n : nat) :
  forall a : str, all_tokens n (a ++ NUL :: b) = all_tokens n a.
Proof.
  induction n as [|n IH]; intros a; cbn [all_tokens]; [reflexivity|].
  rewrite next_token_before_NUL. cbn [fst snd].
  destruct (isEOF (fst (next_token a))); [reflexivity|]. now rewrite IH.
Qed.

End Truncation.

(** X14. A NUL byte ends the input: the lexer takes it as the end of the
    text, so an input gives the same tokens and the same output as its part
    before the first NUL byte. *)
Theorem input_ends_at_NUL (a b : str) :
  tokens_of (a ++ NUL :: b) = tokens_of a
  /\ parse (a ++ NUL :: b) = parse a.
Proof.
  assert (E : all_tokens (length (a ++ NUL :: b)) (a ++ NUL :: b)
              = all_tokens (length a) a).
  { rewrite all_tokens_before_NUL. apply all_tokens_bound; [|lia].
    rewrite length_app. lia. }
  split.
  - now rewrite !tokens_of_all_tokens, E.
  - now rewrite !parse_all_tokens, E.
Qed.

(** ** What escaping guarantees *)

Lemma escape_char_cases (c : ascii) :
  (c = "<" /\ escape_char c = lit "&lt;")
  \/ (c = ">" /\ escape_char c = lit "&gt;")
  \/ (c = "&" /\ escape_char c = lit "&amp;")
  \/ (c = DQUOTE /\ escape_char c = lit "&quot;")
  \/ (is_special c = false /\ escape_char c = [c]).
Proof.
  unfold escape_char, is_special.
  destruct (c =? "<") eqn:E1; [left; apply Ascii.eqb_eq in E1; auto|].
  destruct (c =? ">") eqn:E2; [right; left; apply Ascii.eqb_eq in E2; auto|].
  destruct (c =? "&") eqn:E3; [do 2 right; left; apply Ascii.eqb_eq in E3; auto|].
  destruct (c =? DQUOTE) eqn:E4; [do 3 right; left; apply Ascii.eqb_eq in E4; auto|].
  do 4 right. auto.
Qed.

Lemma is_special_amp (c : ascii) : is_special c = false -> (c =? "&") = false.
Proof.
  unfold is_special. intros H.
  repeat (apply orb_false_iff in H; destruct H as [H ?]). assumption.
Qed.

Lemma is_special_markup (c : ascii) : is_special c = false -> is_markup c = false.
Proof.
  unfold is_special, is_markup. intros H.
  repeat (apply orb_false_iff in H; destruct H as [H ?]).
  repeat match goal with E : (_ =? _) = false |- _ => rewrite E; clear E end.
  reflexivity.
Qed.

(** X15. Escaped text is inert: it holds no [<], no [>] and no double
    quote, and each [&] in it begins one of the entities [&lt;], [&gt;],
    [&amp;] and [&quot;]. *)
Theorem escapeHtml_inert (s : str) :
  forallb (fun c => negb (is_markup c)) (escapeHtml s) = true
  /\ entities_only (escapeHtml s) = true.
Proof.
  induction s as [|c s [IH1 IH2]]; [split; reflexivity|]. cbn [escapeHtml].
  destruct (escape_char_cases c)
    as [[_ ->] | [[_ ->] | [[_ ->] | [[_ ->] | [Hc ->]]]]];
    try (split; [exact IH1 | exact IH2]).
  split.
  - cbn [app forallb]. now rewrite is_special_markup, IH1.
  - cbn [app entities_only]. now rewrite is_special_amp, IH2.
Qed.

(** X16. Escaping loses nothing: two strings with the same escaped form
    are the same string. *)
Theorem escapeHtml_injective (a b : str) :
  escapeHtml a = escapeHtml b -> a = b.
Proof.
  revert b. induction a as [|c a IH]; intros [|d b] H.
  - reflexivity.
  - exfalso. cbn [escapeHtml] in H.
    destruct (escape_char_cases d)
      as [[_ E] | [[_ E] | [[_ E] | [[_ E] | [_ E]]]]];
      rewrite E in H; discriminate.
  - exfalso. cbn [escapeHtml] in H.
    destruct (escape_char_cases c)
      as [[_ E] | [[_ E] | [[_ E] | [[_ E] | [_ E]]]]];
      rewrite E in H; discriminate.
  - cbn [escapeHtml] in H.
    destruct (escape_char_cases c)
      as [[Hc E] | [[Hc E] | [[Hc E] | [[Hc E] | [Hc E]]]]];
      destruct (escape_char_cases d)
        as [[Hd F] | [[Hd F] | [[Hd F] | [[Hd F] | [Hd F]]]]];
      rewrite E, F in H; cbn [lit list_ascii_of_string app] in H;
      try discriminate;
      try (subst c d; f_equal; apply IH;
           repeat (injection H as H); exact H);
      try (injection H as Hx _; subst; discriminate).
    injection H as -> H. f_equal. now apply IH.
Qed.

Lemma escapeHtml_injective_witness : lit "a<b" = lit "a<b".
Proof. apply (escapeHtml_injective (lit "a<b") (lit "a<b")). reflexivity. Defined.

(** ** Lists and paragraphs *)

Lemma render_list_item (v : str) (next : list Token) (r : RenderState) :
  inParagraph r = false ->
  close_paragraph next
    (emit (list_item_html v) (wrap_paragraph LIST (wrap_list LIST r)))
  = {| output := output r ++ (if inList r then [] else open_ul) ++ list_item_html v;
       inList := true;
       inParagraph := false |}.
Proof.
  destruct r as [o l p]. cbn [inParagraph]. intros ->.
  destruct l; unfold close_paragraph, wrap_paragraph, wrap_list, emit,
    set_inList, set_inParagraph; cbn; f_equal; now rewrite <- ?app_assoc.
Qed.

Lemma tokensToHtml_loop_list_items (items : list str) :
  forall r : RenderState,
    inParagraph r = false ->
    items <> [] ->
    tokensToHtml_loop (map (Tok LIST) items) r
    = Ok {| output := output r ++ (if inList r then [] else open_ul)
                      ++ concat (map list_item_html items);
            inList := true;
            inParagraph := false |}.
Proof.
  induction items as [|v items IH]; intros r Hp Hne; [contradiction|].
  cbn [map tokensToHtml_loop].
  change (tokenToHtml (Tok LIST v)) with (Ok (list_item_html v)).
  cbn [rbind Tok getType]. rewrite render_list_item by assumption.
  destruct items as [|v' items].
  - cbn [map tokensToHtml_loop concat]. now rewrite app_nil_r.
  - rewrite IH by (try reflexivity; discriminate).
    cbn [output inList]. f_equal. f_equal.
    cbn [map concat app]. now rewrite <- !app_assoc.
Qed.

Lemma next_token_list_line (v s : str) :
  free_of LF v = true -> stops_at LF s = true ->
  next_token (lit "- " ++ v ++ s) = (Tok LIST v, drop_newline s).
Proof.
  intros Hv Hs. now apply (next_token_list_item " " v s).
Qed.

Lemma all_tokens_list_lines (items : list str) (final : str) :
  Forall (fun v => free_of LF v = true) items ->
  final = [] \/ final = [LF] ->
  all_tokens (length (list_lines items final)) (list_lines items final)
  = map (Tok LIST) items.
Proof.
  intros Hall Hfin. induction items as [|v items IH]; [reflexivity|].
  inversion Hall as [|? ? Hv Hrest]; subst.
  destruct items as [|v' items].
  - cbn [list_lines map].
    apply all_tokens_single; [|reflexivity].
    rewrite next_token_list_line; try assumption.
    + destruct Hfin as [-> | ->]; reflexivity.
    + destruct Hfin as [-> | ->]; reflexivity.
  - change (list_lines (v :: v' :: items) final)
      with (lit "- " ++ v ++ LF :: list_lines (v' :: items) final).
    rewrite (all_tokens_cons _ (list_lines (v' :: items) final) (Tok LIST v));
      [ | now rewrite next_token_list_line | reflexivity].
    cbn [map]. f_equal. now apply IH.
Qed.

(** X17. A document of list items, one [- item] per line, with or without
    a line break after the last line, is lexed into one ListItem token per
    line and rendered as one list: [<ul>], one [<li>item</li>] line per
    item with the item escaped, and [</ul>]. *)
Theorem list_document_html (items : list str) (final : str) :
  items <> [] ->
  Forall (fun v => free_of LF v = true) items ->
  final = [] \/ final = [LF] ->
  tokens_of (list_lines items final) = Ok (map (Tok LIST) items)
  /\ parse (list_lines items final)
     = Ok (open_ul ++ concat (map list_item_html items) ++ close_ul).
Proof.
  intros Hne Hall Hfin.
  pose proof (all_tokens_list_lines items final Hall Hfin) as E.
  split.
  - now rewrite tokens_of_all_tokens, E.
  - rewrite parse_all_tokens, E. unfold tokensToHtml.
    rewrite tokensToHtml_loop_list_items by (try assumption; reflexivity).
    cbn [rbind inList inParagraph emit output app]. now rewrite <- app_assoc.
Qed.

Lemma list_document_html_witness :
  tokens_of (lit "- Item 1" ++ [LF] ++ lit "- Item 2")
  = Ok [Tok LIST (lit "Item 1"); Tok LIST (lit "Item 2")]
  /\ parse (lit "- Item 1" ++ [LF] ++ lit "- Item 2")
     = Ok (lit "<ul>" ++ [LF] ++ lit "<li>Item 1</li>" ++ [LF]
           ++ lit "<li>Item 2</li>" ++ [LF] ++ lit "</ul>" ++ [LF]).
Proof.
  apply (list_document_html [lit "Item 1"; lit "Item 2"] []);
    [discriminate | repeat constructor | now left].
Defined.

Lemma render_inline_token (token : Token) (html : str) (next : list Token)
      (r : RenderState) :
  isBlockElement (getType token) = false -> inList r = false ->
  output
    (close_paragraph next
       (emit html (wrap_paragraph (getType token) (wrap_list (getType token) r))))
  = output r ++ (if inParagraph r then [] else lit "<p>") ++ html
    ++ (match next with
        | [] => close_p
        | token' :: _ => if isBlockElement (getType token') then close_p else []
        end)
  /\ inList
       (close_paragraph next
          (emit html (wrap_paragraph (getType token) (wrap_list (getType token) r))))
     = false
  /\ inParagraph
       (close_paragraph next
          (emit html (wrap_paragraph (getType token) (wrap_list (getType token) r))))
     = match next with
       | [] => false
       | token' :: _ => negb (isBlockElement (getType token'))
       end.
Proof.
  destruct r as [o l p]. cbn [inList]. intros Hb ->.
  destruct (getType token); try discriminate;
    destruct p; destruct next as [|token' next'];
    unfold close_paragraph, wrap_paragraph, wrap_list, emit,
      set_inList, set_inParagraph; cbn;
    try destruct (isBlockElement (getType token')); cbn;
    rewrite <- ?app_assoc, ?app_nil_r; auto.
Qed.

Lemma tokensToHtml_loop_inline (tokens : list Token) :
  forall (htmls : list str) (r : RenderState),
    tokens <> [] ->
    Forall (fun token => isBlockElement (getType token) = false) tokens ->
    Forall2 (fun token html => tokenToHtml token = Ok html) tokens htmls ->
    inList r = false ->
    exists r',
      tokensToHtml_loop tokens r = Ok r'
      /\ output r' = output r ++ (if inParagraph r then [] else lit "<p>")
                     ++ concat htmls ++ close_p
      /\ inList r' = false /\ inParagraph r' = false.
Proof.
  induction tokens as [|token next IH]; intros htmls r Hne Hnb Hh Hl;
    [contradiction|].
  inversion Hnb as [|? ? Hb Hnb']; subst.
  inversion Hh as [|? html ? htmls' Ht Hh']; subst.
  cbn [tokensToHtml_loop]. rewrite Ht. cbn [rbind].
  destruct (render_inline_token token html next r Hb Hl) as (Ho & Hl' & Hp').
  set (r1 := close_paragraph next _) in *.
  destruct next as [|token' next'].
  - inversion Hh'; subst. cbn [tokensToHtml_loop concat].
    exists r1. repeat split; try assumption.
    rewrite Ho, app_nil_r. reflexivity.
  - inversion Hnb' as [|? ? Hb' _]; subst.
    destruct (IH htmls' r1) as (r' & Hr & Hout & Hl2 & Hp2);
      [discriminate | assumption | assumption | assumption |].
    exists r'. repeat split; try assumption.
    rewrite Hout, Ho, Hp', Hb'. cbn [negb concat].
    now rewrite <- !app_assoc.
Qed.

(** X18. Text and inline tokens that follow one another share one
    paragraph: a token vector without heading and list item tokens is
    rendered as [<p>], the HTML of its tokens one after the other, and
    [</p>] with a line break. *)
Theorem inline_tokens_one_paragraph (tokens : list Token) (htmls : list str) :
  tokens <> [] ->
  Forall (fun token => isBlockElement (getType token) = false) tokens ->
  Forall2 (fun token html => tokenToHtml token = Ok html) tokens htmls ->
  tokensToHtml tokens = Ok (lit "<p>" ++ concat htmls ++ close_p).
Proof.
  intros Hne Hnb Hh. unfold tokensToHtml.
  destruct (tokensToHtml_loop_inline tokens htmls
              {| output := []; inList := false; inParagraph := false |}
              Hne Hnb Hh eq_refl) as (r' & -> & Hout & Hl & Hp).
  cbn [rbind]. rewrite Hl, Hp, Hout. reflexivity.
Qed.

Lemma inline_tokens_one_paragraph_witness :
  tokensToHtml [Tok TEXT (lit "This is "); Tok BOLD (lit "bold"); Tok TEXT (lit " text.")]
  = Ok (lit "<p>"
        ++ concat [lit "This is "; lit "<strong>bold</strong>"; lit " text."]
        ++ close_p).
Proof.
  apply inline_tokens_one_paragraph;
    [discriminate | repeat constructor | repeat constructor].
Defined.

Lemma render_last_token (token : Token) (html : str) (r : RenderState) :
  inParagraph
    (close_paragraph []
       (emit html (wrap_paragraph (getType token) (wrap_list (getType token) r))))
  = false
  /\ inList
       (close_paragraph []
          (emit html (wrap_paragraph (getType token) (wrap_list (getType token) r))))
     = TokenType_eqb (getType token) LIST.
Proof.
  destruct r as [o l p].
  destruct (getType token); destruct l; destruct p;
    unfold close_paragraph, wrap_paragraph, wrap_list, emit,
      set_inList, set_inParagraph; cbn; auto.
Qed.

(** X19. When the loop of [tokensToHtml] ends, no paragraph is open,
    whatever the state it started in, so the closing of a paragraph after
    the loop never writes anything; a list is open exactly when the last
    token is a list item. *)
Theorem render_loop_final_state (tokens : list Token) (r r' : RenderState) :
  tokens <> [] ->
  tokensToHtml_loop tokens r = Ok r' ->
  inParagraph r' = false
  /\ inList r' = TokenType_eqb (getType (last tokens createEOF)) LIST.
Proof.
  revert r. induction tokens as [|token next IH]; intros r Hne H; [contradiction|].
  cbn [tokensToHtml_loop] in H.
  destruct (tokenToHtml token) as [html| |]; try discriminate. cbn [rbind] in H.
  destruct next as [|token' next'].
  - cbn [tokensToHtml_loop] in H. injection H as <-. cbn [last].
    apply render_last_token.
  - change (last (token :: token' :: next') createEOF)
      with (last (token' :: next') createEOF).
    apply (IH _ ltac:(discriminate) H).
Qed.

Lemma render_loop_final_state_witness :
  inParagraph
    {| output := lit "<p>a</p>" ++ [LF] ++ lit "<ul>" ++ [LF] ++ lit "<li>b</li>" ++ [LF];
       inList := true; inParagraph := false |} = false
  /\ inList
       {| output := lit "<p>a</p>" ++ [LF] ++ lit "<ul>" ++ [LF] ++ lit "<li>b</li>" ++ [LF];
          inList := true; inParagraph := false |}
     = TokenType_eqb (getType (last [Tok TEXT (lit "a"); Tok LIST (lit "b")] createEOF)) LIST.
Proof.
  apply (render_loop_final_state [Tok TEXT (lit "a"); Tok LIST (lit "b")]
           {| output := []; inList := false; inParagraph := false |});
    [discriminate | reflexivity].
Defined.

(** ** Every tag of the output is the renderer's *)

Lemma prefixb_app (p s more : str) :
  prefixb p s = true -> prefixb p (s ++ more) = true.
Proof.
  revert s. induction p as [|x p IH]; intros [|y s] H; try reflexivity;
    try discriminate.
  cbn [prefixb app] in *. apply andb_true_iff in H. destruct H as [-> H].
  now apply IH.
Qed.

Lemma existsb_prefixb_app (tags : list str) (s more : str) :
  existsb (fun tag => prefixb tag s) tags = true ->
  existsb (fun tag => prefixb tag (s ++ more)) tags = true.
Proof.
  induction tags as [|tag tags IH]; [discriminate|]. cbn [existsb].
  intros H. apply orb_true_iff in H. apply orb_true_iff.
  destruct H as [H|H]; [left; now apply prefixb_app | right; now apply IH].
Qed.

Lemma tags_only_app (a b : str) :
  tags_only a = true -> tags_only b = true -> tags_only (a ++ b) = true.
Proof.
  intros Ha Hb. induction a as [|c a IH]; [exact Hb|].
  cbn [tags_only] in Ha. apply andb_true_iff in Ha. destruct Ha as [Hc Ha].
  change ((c :: a) ++ b) with (c :: (a ++ b)). cbn [tags_only].
  rewrite IH by assumption. rewrite andb_true_r.
  destruct (c =? "<"); [|reflexivity].
  change (c :: a ++ b) with ((c :: a) ++ b). now apply existsb_prefixb_app.
Qed.

Lemma no_lt_tags_only (s : str) : no_lt s = true -> tags_only s = true.
Proof.
  induction s as [|c s IH]; [reflexivity|]. cbn [no_lt forallb tags_only].
  intros H. apply andb_true_iff in H. destruct H as [Hc Hs].
  unfold neqb in Hc. apply negb_true_iff in Hc. rewrite Hc. now apply IH.
Qed.

Ltac tags_only_pieces :=
  repeat first
    [ assumption
    | reflexivity
    | apply tags_only_app
    | apply no_lt_tags_only; first [assumption | apply escapeHtml_no_lt] ].

Lemma tokenToHtml_tags_only (token : Token) (html : str) :
  tokenToHtml token = Ok html -> tags_only html = true.
Proof.
  unfold tokenToHtml. intros H.
  destruct (getType token); try (injection H as <-; tags_only_pieces).
  - destruct (substr (escapeHtml (getValue token)) 0 _) as [a| |] eqn:Ea;
      try discriminate.
    destruct (substr (escapeHtml (getValue token)) (size_add _ 1) npos)
      as [b| |] eqn:Eb; try discriminate.
    cbn [rbind] in H. injection H as <-.
    apply substr_no_lt in Ea; [|apply escapeHtml_no_lt].
    apply substr_no_lt in Eb; [|apply escapeHtml_no_lt].
    tags_only_pieces.
  - destruct (substr (escapeHtml (getValue token)) 0 _) as [a| |] eqn:Ea;
      try discriminate.
    destruct (substr (escapeHtml (getValue token)) (size_add _ 1) npos)
      as [b| |] eqn:Eb; try discriminate.
    cbn [rbind] in H. injection H as <-.
    apply substr_no_lt in Ea; [|apply escapeHtml_no_lt].
    apply substr_no_lt in Eb; [|apply escapeHtml_no_lt].
    tags_only_pieces.
Qed.

Lemma render_step_tags_only (type : TokenType) (html : str) (next : list Token)
      (r : RenderState) :
  tags_only (output r) = true -> tags_only html = true ->
  tags_only
    (output (close_paragraph next (emit html (wrap_paragraph type (wrap_list type r)))))
  = true.
Proof.
  destruct r as [o l p]. cbn [output]. intros Ho Hh.
  destruct type; destruct l; destruct p;
    unfold close_paragraph, wrap_paragraph, wrap_list, emit,
      set_inList, set_inParagraph; cbn [output inList inParagraph TokenType_eqb
        isInlineElement isBlockElement negb andb orb];
    try (destruct next as [|token' next'];
         [|destruct (isBlockElement (getType token'))]);
    cbn [output inList inParagraph andb]; tags_only_pieces.
Qed.

Lemma tokensToHtml_loop_tags_only (tokens : list Token) :
  forall r r',
    tokensToHtml_loop tokens r = Ok r' ->
    tags_only (output r) = true -> tags_only (output r') = true.
Proof.
  induction tokens as [|token next IH]; intros r r' H Hr;
    cbn [tokensToHtml_loop] in H.
  - now injection H as <-.
  - destruct (tokenToHtml token) as [html| |] eqn:E; try discriminate.
    cbn [rbind] in H. apply (IH _ _ H).
    apply render_step_tags_only; [assumption|].
    now apply (tokenToHtml_tags_only token).
Qed.

Lemma tokensToHtml_tags_only (tokens : list Token) (html : str) :
  tokensToHtml tokens = Ok html -> tags_only html = true.
Proof.
  unfold tokensToHtml. intros H.
  destruct (tokensToHtml_loop tokens _) as [r| |] eqn:E; try discriminate.
  cbn [rbind] in H. injection H as <-.
  apply tokensToHtml_loop_tags_only in E; [|reflexivity].
  destruct r as [o l p]. cbn [output] in E.
  destruct l; destruct p; cbn [inList inParagraph emit output]; tags_only_pieces.
Qed.

Lemma tags_only_suffix (a b : str) :
  tags_only (a ++ b) = true -> tags_only b = true.
Proof.
  induction a as [|c a IH]; [trivial|].
  change ((c :: a) ++ b) with (c :: (a ++ b)). cbn [tags_only].
  intros H. apply andb_true_iff in H. now apply IH.
Qed.

Lemma prefixb_app_inv (tag p rest : str) :
  prefixb tag (p ++ rest) = true -> prefixb tag p = true \/ prefixb p tag = true.
Proof.
  revert p. induction tag as [|x tag IH]; intros [|c p] H; auto.
  cbn [app prefixb] in *. apply andb_true_iff in H. destruct H as [Hx H].
  destruct (IH p H) as [H1|H1]; [left | right]; rewrite H1, andb_true_r;
    [exact Hx | now rewrite Ascii.eqb_sym].
Qed.

Lemma existsb_prefixb_app_inv (tags : list str) (p rest : str) :
  existsb (fun tag => prefixb tag (p ++ rest)) tags = true ->
  existsb (fun tag => prefixb tag p || prefixb p tag) tags = true.
Proof.
  induction tags as [|tag tags IH]; [discriminate|]. cbn [existsb].
  intros H. apply orb_true_iff in H. apply orb_true_iff.
  destruct H as [H|H]; [left | right; now apply IH].
  apply orb_true_iff. now apply prefixb_app_inv with rest.
Qed.

(** X20. No input can write a tag of its own.  In the output of
    [Parser::parse], for every input, each [<] begins one of the tags that
    the renderer writes ([<p>], [<ul>], [<li>], the heading tags,
    [<strong>], [<em>], [<a href=], [<img src=] and the closing tags).  So a
    piece of text that starts with [<] and neither begins with one of these
    tags nor is the beginning of one, [<script] for one, occurs nowhere in
    the output. *)
Theorem output_tags_are_renderer_tags (markdown html : str) :
  parse markdown = Ok html ->
  tags_only html = true
  /\ forall piece : str,
       existsb (fun tag => prefixb tag ("<" :: piece) || prefixb ("<" :: piece) tag)
         renderer_tags = false ->
       ~ occurs_in ("<" :: piece) html.
Proof.
  intros H. rewrite parse_all_tokens in H. apply tokensToHtml_tags_only in H.
  split; [exact H|].
  intros piece Hp (a & b & ->).
  apply tags_only_suffix in H.
  change (("<" :: piece) ++ b) with ("<" :: piece ++ b) in H.
  cbn [tags_only] in H. change ("<" =? "<") with true in H. cbv iota in H.
  apply andb_true_iff in H. destruct H as [H _].
  change ("<" :: piece ++ b) with (("<" :: piece) ++ b) in H.
  apply existsb_prefixb_app_inv in H. congruence.
Qed.

Lemma output_tags_are_renderer_tags_witness :
  tags_only (lit "<p>&lt;script&gt;alert(1)&lt;/script&gt;</p>" ++ [LF]) = true
  /\ forall piece : str,
       existsb (fun tag => prefixb tag ("<" :: piece) || prefixb ("<" :: piece) tag)
         renderer_tags = false ->
       ~ occurs_in ("<" :: piece)
           (lit "<p>&lt;script&gt;alert(1)&lt;/script&gt;</p>" ++ [LF]).
Proof.
  apply (output_tags_are_renderer_tags (lit "<script>alert(1)</script>")).
  reflexivity.
Defined.

(** ** The first iteration computes its scanning functions *)

Section V1Refinement.

Variable fuel : nat.
Variable t : str.

Lemma v1_leading_space_loop_scan :
  forall (s : str) (n : nat) (original : str),
    is_suffix s t -> length s < n ->
    V1.leading_space_loop n original (cursor t s)
    = Ok (fst (V1.scan_leading_space original s),
          cursor t (snd (V1.scan_leading_space original s))).
Proof.
  induction s as [|c s IH]; intros [|n] original Hs Hn; try (simpl in Hn; lia);
    cbn [V1.leading_space_loop]; rewrite run_cur by assumption;
    cbn [head hd V1.scan_leading_space]; [reflexivity|].
  destruct (isspace c && neqb c LF); [|reflexivity].
  rewrite run_advance by assumption.
  apply IH; [eauto using is_suffix_cons | simpl in Hn; lia].
Qed.

Lemma v1_heading_level_loop_scan :
  forall (s : str) (n : nat) (original : str) (level : Z),
    is_suffix s t -> length s < n ->
    V1.heading_level_loop n original level (cursor t s)
    = Ok (fst (V1.scan_hashes original level s),
          cursor t (snd (V1.scan_hashes original level s))).
Proof.
  induction s as [|c s IH]; intros [|n] original level Hs Hn;
    try (simpl in Hn; lia);
    cbn [V1.heading_level_loop]; rewrite run_cur by assumption;
    cbn [head hd V1.scan_hashes]; [reflexivity|].
  destruct ((c =? "#") && (level <? 6)%Z); [|reflexivity].
  rewrite run_advance by assumption.
  apply IH; [eauto using is_suffix_cons | simpl in Hn; lia].
Qed.

Lemma v1_count_spaces_loop_scan :
  forall (s : str) (n : nat) (spaces : Z),
    is_suffix s t -> length s < n ->
    V1.count_spaces_loop n spaces (cursor t s)
    = Ok (fst (V1.count_spaces spaces s), cursor t (snd (V1.count_spaces spaces s))).
Proof.
  induction s as [|c s IH]; intros [|n] spaces Hs Hn; try (simpl in Hn; lia);
    cbn [V1.count_spaces_loop]; rewrite run_cur by assumption;
    cbn [head hd V1.count_spaces]; [reflexivity|].
  destruct (isspace c && neqb c LF); [|reflexivity].
  rewrite run_advance by assumption.
  apply IH; [eauto using is_suffix_cons | simpl in Hn; lia].
Qed.

Lemma v1_text_loop_scan :
  forall (s : str) (n : nat) (text_content : str),
    is_suffix s t -> length s < n ->
    V1.text_loop n text_content (cursor t s)
    = Ok (fst (V1.scan_text text_content s),
          cursor t (snd (V1.scan_text text_content s))).
Proof.
  induction s as [|c s IH]; intros [|n] acc Hs Hn; try (simpl in Hn; lia);
    cbn [V1.text_loop]; rewrite run_cur by assumption;
    cbn [head hd V1.scan_text]; [reflexivity|].
  destruct (neqb c NUL && negb (is_markdown_char c)); [|reflexivity].
  destruct (c =? LF); rewrite run_advance by assumption;
    (apply IH; [eauto using is_suffix_cons | simpl in Hn; lia]).
Qed.

Lemma v1_scan_leading_space_suffix (s u original : str) :
  is_suffix s u -> is_suffix (snd (V1.scan_leading_space original s)) u.
Proof.
  intros H. apply is_suffix_trans with s; [|exact H]. clear.
  revert original. induction s as [|c s IH]; intros original; cbn;
    [apply is_suffix_refl|].
  destruct (isspace c && neqb c LF); cbn; auto using is_suffix_refl, is_suffix_skip.
Qed.

Lemma v1_scan_hashes_suffix (s u original : str) (level : Z) :
  is_suffix s u -> is_suffix (snd (V1.scan_hashes original level s)) u.
Proof.
  intros H. apply is_suffix_trans with s; [|exact H]. clear.
  revert original level. induction s as [|c s IH]; intros original level; cbn;
    [apply is_suffix_refl|].
  destruct ((c =? "#") && (level <? 6)%Z); cbn;
    auto using is_suffix_refl, is_suffix_skip.
Qed.

Lemma v1_count_spaces_suffix (s u : str) (spaces : Z) :
  is_suffix s u -> is_suffix (snd (V1.count_spaces spaces s)) u.
Proof.
  intros H. apply is_suffix_trans with s; [|exact H]. clear.
  revert spaces. induction s as [|c s IH]; intros spaces; cbn;
    [apply is_suffix_refl|].
  destruct (isspace c && neqb c LF); cbn; auto using is_suffix_refl, is_suffix_skip.
Qed.

Lemma v1_scan_text_suffix (s u acc : str) :
  is_suffix s u -> is_suffix (snd (V1.scan_text acc s)) u.
Proof.
  intros H. apply is_suffix_trans with s; [|exact H]. clear.
  revert acc. induction s as [|c s IH]; intros acc; cbn; [apply is_suffix_refl|].
  destruct (neqb c NUL && negb (is_markdown_char c)); [destruct (c =? LF)|]; cbn;
    auto using is_suffix_refl, is_suffix_skip.
Qed.

Hint Resolve v1_scan_leading_space_suffix v1_scan_hashes_suffix
  v1_count_spaces_suffix v1_scan_text_suffix : suffix.

Lemma v1_handle_heading_lex (s : str) :
  is_suffix s t -> length s < fuel -> head s = "#" ->
  V1.handle_heading fuel (cursor t s)
  = Ok (fst (V1.lex_heading s), cursor t (snd (V1.lex_heading s))).
Proof.
  intros Hs Hn Hc. destruct s as [|c s]; [discriminate|].
  assert (Hs' : is_suffix s t) by eauto using is_suffix_cons.
  assert (Hn' : length s < fuel) by (simpl in Hn; lia).
  unfold V1.handle_heading, V1.lex_heading. cbn [tl].
  rewrite run_advance by assumption.
  erewrite run_bind by (apply v1_leading_space_loop_scan; assumption).
  erewrite run_bind by (apply v1_heading_level_loop_scan; [suffix_ok | fuel_ok]).
  set (r1 := V1.scan_leading_space (lit "#") s).
  set (r2 := V1.scan_hashes (fst r1) 1 (snd r1)).
  destruct (fst r2) as [original level] eqn:E2. cbn [fst snd].
  assert (H2 : is_suffix (snd r2) s) by (subst r2 r1; suffix_ok).
  erewrite run_bind
    by (apply v1_count_spaces_loop_scan;
        [eapply is_suffix_trans; eassumption
        | apply is_suffix_length in H2; lia]).
  set (r3 := V1.count_spaces 0 (snd r2)).
  assert (H3 : is_suffix (snd r3) s)
    by (subst r3; eapply is_suffix_trans; [|exact H2]; suffix_ok).
  assert (H3t : is_suffix (snd r3) t) by (eapply is_suffix_trans; eassumption).
  assert (L3 : length (snd r3) < fuel) by (apply is_suffix_length in H3; lia).
  destruct (fst r3 =? 0)%Z.
  - erewrite run_bind by (apply collect_until_scan; assumption).
    rewrite run_cur by suffix_ok.
    rewrite run_advance_if_LF by suffix_ok. reflexivity.
  - erewrite run_bind by (apply collect_until_scan; assumption).
    rewrite run_cur by suffix_ok.
    rewrite run_advance_if_LF by suffix_ok. reflexivity.
Qed.

Lemma v1_lex_marker_run (s : str) (depth : nat) :
  is_suffix s t -> length s < fuel -> is_markdown_char (head s) = true ->
  V1.get_next_token fuel (S depth) (cursor t s)
  = Ok (fst (V1.lex_marker s), cursor t (snd (V1.lex_marker s))).
Proof.
  intros Hs Hn Hm. cbn [V1.get_next_token]. rewrite run_cur by assumption.
  unfold V1.lex_marker.
  destruct (head s =? NUL) eqn:E0.
  { apply Ascii.eqb_eq in E0. rewrite E0 in Hm. discriminate. }
  destruct (head s =? "#") eqn:E1.
  { apply v1_handle_heading_lex; auto. now apply Ascii.eqb_eq. }
  destruct (head s =? "*") eqn:E2.
  { apply handle_emphasis_lex; auto. now apply Ascii.eqb_eq. }
  destruct (head s =? "[") eqn:E3.
  { apply handle_link_lex; auto. now apply Ascii.eqb_eq. }
  destruct (head s =? "!") eqn:E4.
  { apply handle_image_lex; auto. now apply Ascii.eqb_eq. }
  destruct (head s =? "-") eqn:E5.
  { apply handle_list_lex; auto. now apply Ascii.eqb_eq. }
  unfold is_markdown_char in Hm. rewrite E1, E2, E3, E4, E5 in Hm. discriminate.
Qed.

Lemma v1_scan_text_stops (s acc : str) :
  neqb (head (snd (V1.scan_text acc s))) NUL = true ->
  is_markdown_char (head (snd (V1.scan_text acc s))) = true.
Proof.
  revert acc. induction s as [|c s IH]; intros acc; cbn [V1.scan_text];
    [discriminate|].
  destruct (neqb c NUL && negb (is_markdown_char c)) eqn:E.
  - destruct (c =? LF); apply IH.
  - cbn [snd head hd]. intros Hc. rewrite Hc in E. cbn [andb] in E.
    now apply negb_false_iff in E.
Qed.

Lemma v1_get_next_token_lex (s : str) (depth : nat) :
  is_suffix s t -> length s < fuel ->
  V1.get_next_token fuel (S (S depth)) (cursor t s)
  = Ok (fst (V1.next_token s), cursor t (snd (V1.next_token s))).
Proof.
  intros Hs Hn. unfold V1.next_token.
  destruct (head s =? NUL) eqn:E0.
  { cbn [V1.get_next_token]. rewrite run_cur by assumption. now rewrite E0. }
  destruct (is_markdown_char (head s)) eqn:Em.
  { now apply v1_lex_marker_run. }
  cbn [V1.get_next_token]. rewrite run_cur by assumption. rewrite E0.
  unfold is_markdown_char in Em.
  repeat (apply orb_false_iff in Em; destruct Em as [Em ?]).
  repeat match goal with E : (_ =? _) = false |- _ => rewrite E end.
  erewrite run_bind by (apply v1_text_loop_scan; assumption).
  set (r := V1.scan_text [] s).
  assert (Hr : is_suffix (snd r) t) by (subst r; suffix_ok).
  assert (Lr : length (snd r) < fuel) by (subst r; fuel_ok).
  fold (V1.is_blank (fst r)). destruct (V1.is_blank (fst r)); [|reflexivity].
  rewrite run_cur by assumption.
  destruct (neqb (head (snd r)) NUL) eqn:En; [|reflexivity].
  apply v1_lex_marker_run; try assumption.
  now apply v1_scan_text_stops.
Qed.

End V1Refinement.

#[local] Hint Resolve v1_scan_leading_space_suffix v1_scan_hashes_suffix
  v1_count_spaces_suffix v1_scan_text_suffix : suffix.

(** ** Invariants of the first lexer *)

Lemma v1_lex_heading_suffix (s : str) : is_suffix (snd (V1.lex_heading s)) (tl s).
Proof.
  unfold V1.lex_heading.
  match goal with |- context [if ?b then _ else _] => destruct b end;
    cbn [snd]; suffix_ok.
Qed.

Lemma v1_lex_marker_suffix (s : str) : is_suffix (snd (V1.lex_marker s)) (tl s).
Proof.
  unfold V1.lex_marker.
  destruct (head s =? "#"); [apply v1_lex_heading_suffix|].
  destruct (head s =? "*"); [apply lex_emphasis_suffix|].
  destruct (head s =? "["); [apply lex_link_suffix|].
  destruct (head s =? "!"); [apply lex_image_suffix|].
  apply lex_list_suffix.
Qed.

Lemma is_markdown_char_not_nil (s : str) :
  is_markdown_char (head s) = true -> s <> [].
Proof. intros H ->. discriminate. Qed.

Lemma v1_scan_text_first (s : str) :
  (head s =? NUL) = false -> is_markdown_char (head s) = false ->
  is_suffix (snd (V1.scan_text [] s)) (tl s).
Proof.
  destruct s as [|c s]; [discriminate|]. cbn [head hd tl V1.scan_text].
  intros H0 Hm. unfold neqb. rewrite H0, Hm. cbn [negb andb].
  destruct (c =? LF); suffix_ok.
Qed.

Lemma v1_next_token_suffix (s : str) : is_suffix (snd (V1.next_token s)) s.
Proof.
  unfold V1.next_token.
  destruct (head s =? NUL) eqn:E0; [apply is_suffix_refl|].
  destruct (is_markdown_char (head s)) eqn:Em.
  { eapply is_suffix_trans; [apply v1_lex_marker_suffix|]. suffix_ok. }
  assert (H1 : is_suffix (snd (V1.scan_text [] s)) s) by suffix_ok.
  destruct (V1.is_blank (fst (V1.scan_text [] s))); [|exact H1].
  destruct (neqb (head (snd (V1.scan_text [] s))) NUL); [|exact H1].
  eapply is_suffix_trans; [apply v1_lex_marker_suffix|].
  apply is_suffix_tl. exact H1.
Qed.

Lemma v1_scan_leading_space_original (s original : str) :
  exists more, fst (V1.scan_leading_space original s) = original ++ more.
Proof.
  revert original. induction s as [|c s IH]; intros original;
    cbn [V1.scan_leading_space].
  - exists []. now rewrite app_nil_r.
  - destruct (isspace c && neqb c LF).
    + destruct (IH (original ++ [c])) as [more ->]. exists (c :: more).
      now rewrite <- app_assoc.
    + exists []. now rewrite app_nil_r.
Qed.

Lemma v1_scan_hashes_original (s original : str) (level : Z) :
  exists more, fst (fst (V1.scan_hashes original level s)) = original ++ more.
Proof.
  revert original level. induction s as [|c s IH]; intros original level;
    cbn [V1.scan_hashes].
  - exists []. now rewrite app_nil_r.
  - destruct ((c =? "#") && (level <? 6)%Z).
    + destruct (IH (original ++ lit "#") (level + 1)%Z) as [more ->].
      exists (lit "#" ++ more). now rewrite <- app_assoc.
    + exists []. now rewrite app_nil_r.
Qed.

Lemma v1_heading_original (s : str) :
  exists more,
    fst (fst (V1.scan_hashes (fst (V1.scan_leading_space (lit "#") s)) 1
                (snd (V1.scan_leading_space (lit "#") s))))
    = "#" :: more.
Proof.
  destruct (v1_scan_leading_space_original s (lit "#")) as [m1 E1].
  destruct (v1_scan_hashes_original (snd (V1.scan_leading_space (lit "#") s))
              (fst (V1.scan_leading_space (lit "#") s)) 1) as [m2 E2].
  rewrite E2, E1. exists (m1 ++ m2). now rewrite <- app_assoc.
Qed.

Lemma v1_lex_heading_not_stop (s : str) :
  V1.is_stop (fst (V1.lex_heading s)) = false.
Proof.
  unfold V1.lex_heading. destruct (v1_heading_original (tl s)) as [more E].
  match goal with |- context [if ?b then _ else _] => destruct b end; cbn [fst].
  - rewrite E. reflexivity.
  - unfold V1.heading_token. rewrite E.
    repeat match goal with
           | |- context [match ?x with _ => _ end] => destruct x
           end; reflexivity.
Qed.

Lemma v1_lex_marker_dispatch (s : str) :
  is_markdown_char (head s) = true -> (head s =? "#") = false ->
  V1.lex_marker s = lex_dispatch s.
Proof.
  intros Hm H1. unfold V1.lex_marker, lex_dispatch. rewrite H1.
  destruct (head s =? "*") eqn:E2; [reflexivity|].
  destruct (head s =? "[") eqn:E3; [reflexivity|].
  destruct (head s =? "!") eqn:E4; [reflexivity|].
  destruct (head s =? "-") eqn:E5; [reflexivity|].
  unfold is_markdown_char in Hm. rewrite H1, E2, E3, E4, E5 in Hm. discriminate.
Qed.

Lemma marker_not_NUL_LF (s : str) :
  is_markdown_char (head s) = true ->
  neqb (head s) NUL = true /\ neqb (head s) LF = true.
Proof.
  intros H. split; apply neqb_true; intros E; rewrite E in H; discriminate.
Qed.

Lemma v1_lex_marker_not_stop (s : str) :
  is_markdown_char (head s) = true -> V1.is_stop (fst (V1.lex_marker s)) = false.
Proof.
  intros Hm. destruct (head s =? "#") eqn:E1.
  - unfold V1.lex_marker. rewrite E1. apply v1_lex_heading_not_stop.
  - rewrite v1_lex_marker_dispatch by assumption.
    destruct (marker_not_NUL_LF s Hm) as [H0 Hl].
    pose proof (lex_dispatch_text_value s H0 Hl) as Hv.
    unfold V1.is_stop.
    destruct (getType (fst (lex_dispatch s))); try reflexivity.
    cbn [TokenType_eqb andb].
    destruct (getValue (fst (lex_dispatch s))); [|reflexivity].
    now specialize (Hv eq_refl).
Qed.

Lemma v1_next_token_stop (s : str) :
  V1.is_stop (fst (V1.next_token s)) = true -> head (snd (V1.next_token s)) = NUL.
Proof.
  unfold V1.next_token.
  destruct (head s =? NUL) eqn:E0; [intros _; now apply Ascii.eqb_eq|].
  destruct (is_markdown_char (head s)) eqn:Em.
  { now rewrite v1_lex_marker_not_stop. }
  destruct (V1.is_blank (fst (V1.scan_text [] s))) eqn:Eb.
  - destruct (neqb (head (snd (V1.scan_text [] s))) NUL) eqn:En.
    + rewrite v1_lex_marker_not_stop; [discriminate|].
      now apply v1_scan_text_stops.
    + intros _. cbn [snd]. now apply neqb_false.
  - cbn [fst]. unfold V1.is_stop, V1.is_blank in *. cbn [Tok getType getValue].
    destruct (fst (V1.scan_text [] s)); [discriminate|]. discriminate.
Qed.

Lemma v1_next_token_progress (s : str) :
  V1.is_stop (fst (V1.next_token s)) = false ->
  length (snd (V1.next_token s)) < length s.
Proof.
  unfold V1.next_token.
  destruct (head s =? NUL) eqn:E0; [discriminate|].
  destruct (is_markdown_char (head s)) eqn:Em.
  { intros _. apply is_suffix_tl_length; [apply v1_lex_marker_suffix|].
    now apply is_markdown_char_not_nil. }
  pose proof (v1_scan_text_first s E0 Em) as H1.
  assert (Hne : s <> []) by (intros ->; discriminate).
  destruct (V1.is_blank (fst (V1.scan_text [] s))).
  - destruct (neqb (head (snd (V1.scan_text [] s))) NUL); [|discriminate].
    intros _. apply is_suffix_tl_length; [|assumption].
    eapply is_suffix_trans; [apply v1_lex_marker_suffix|].
    apply is_suffix_tl. exact H1.
  - intros _. now apply is_suffix_tl_length.
Qed.

(** X22. [get_next_token] of the first iteration calls itself at most
    once.  With room for two nested calls (or more) it returns a token from
    every position of every text, keeps the cursor well formed and never
    moves it back. *)
Theorem v1_get_next_token_returns (fuel depth : nat) (t : str) (n : nat) :
  n <= length t -> length t - n < fuel -> 2 <= depth ->
  exists (token : Token) (n' : nat),
    V1.get_next_token fuel depth (lexer_at t n) = Ok (token, lexer_at t n')
    /\ V1.get_next_token fuel 2 (lexer_at t n) = Ok (token, lexer_at t n')
    /\ n <= n' <= length t.
Proof.
  intros Hn Hf Hd. rewrite lexer_at_cursor by assumption.
  assert (Hl : length (skipn n t) = length t - n) by apply length_skipn.
  destruct depth as [|[|depth]]; try lia.
  rewrite !v1_get_next_token_lex by (try apply is_suffix_skipn; lia).
  set (s := skipn n t) in *.
  pose proof (v1_next_token_suffix s) as Hs. apply is_suffix_length in Hs.
  exists (fst (V1.next_token s)), (length t - length (snd (V1.next_token s))).
  split; [reflexivity|]. split; [reflexivity|]. lia.
Qed.

Lemma v1_get_next_token_returns_witness :
  exists (token : Token) (n' : nat),
    V1.get_next_token 9 5 (lexer_at (lit "  " ++ [LF] ++ lit "**b**") 0)
    = Ok (token, lexer_at (lit "  " ++ [LF] ++ lit "**b**") n')
    /\ V1.get_next_token 9 2 (lexer_at (lit "  " ++ [LF] ++ lit "**b**") 0)
       = Ok (token, lexer_at (lit "  " ++ [LF] ++ lit "**b**") n')
    /\ 0 <= n' <= length (lit "  " ++ [LF] ++ lit "**b**").
Proof.
  apply (v1_get_next_token_returns 9 5 (lit "  " ++ [LF] ++ lit "**b**") 0);
    vm_compute; lia.
Defined.

(** X23. The first iteration marks the end of input by an empty Text
    token, and [main] stops at the first one.  The lexer returns that token
    only when nothing is left to read (the cursor is on the end of the text
    or on a NUL byte); every other token moves the cursor forward. *)
Theorem v1_empty_text_only_at_end (fuel depth : nat) (t : str) (n : nat)
        (token : Token) (l : Lexer) :
  n <= length t -> length t - n < fuel -> 2 <= depth ->
  V1.get_next_token fuel depth (lexer_at t n) = Ok (token, l) ->
  (V1.is_stop token = true -> current_char l = NUL)
  /\ (V1.is_stop token = false -> n < pos l).
Proof.
  intros Hn Hf Hd H. rewrite lexer_at_cursor in H by assumption.
  assert (Hl : length (skipn n t) = length t - n) by apply length_skipn.
  destruct depth as [|[|depth]]; try lia.
  rewrite v1_get_next_token_lex in H by (try apply is_suffix_skipn; lia).
  injection H as <- <-. set (s := skipn n t) in *.
  assert (Hs : is_suffix (snd (V1.next_token s)) t).
  { eapply is_suffix_trans; [apply v1_next_token_suffix|]. apply is_suffix_skipn. }
  split.
  - intros Hstop. rewrite cursor_current_char by assumption.
    now apply v1_next_token_stop.
  - intros Hstop. apply v1_next_token_progress in Hstop. cbn [cursor lexer_at pos].
    unfold cursor, lexer_at. cbn [pos]. lia.
Qed.

Lemma v1_empty_text_only_at_end_witness :
  (V1.is_stop (Tok H2 (lit "x")) = true ->
   current_char (lexer_at (lit "## x") 4) = NUL)
  /\ (V1.is_stop (Tok H2 (lit "x")) = false -> 0 < pos (lexer_at (lit "## x") 4)).
Proof.
  apply (v1_empty_text_only_at_end 5 2 (lit "## x") 0 (Tok H2 (lit "x"))
           (lexer_at (lit "## x") 4)); try reflexivity; vm_compute; lia.
Defined.

(** ** The token loop of the first [main] *)

Lemma v1_all_tokens_bound (m m' : nat) :
  forall s : str, length s <= m -> length s <= m' ->
  V1.all_tokens m s = V1.all_tokens m' s.
Proof.
  revert m'. induction m as [|m IH]; intros [|m'] s H H'; cbn [V1.all_tokens].
  - reflexivity.
  - destruct (V1.is_stop (fst (V1.next_token s))) eqn:E; [reflexivity|].
    apply v1_next_token_progress in E. lia.
  - destruct (V1.is_stop (fst (V1.next_token s))) eqn:E; [reflexivity|].
    apply v1_next_token_progress in E. lia.
  - destruct (V1.is_stop (fst (V1.next_token s))) eqn:E; [reflexivity|].
    apply v1_next_token_progress in E. f_equal. apply IH; lia.
Qed.

Lemma v1_all_tokens_length (n : nat) :
  forall s : str, length (V1.all_tokens n s) <= length s.
Proof.
  induction n as [|n IH]; intros s; cbn [V1.all_tokens]; [simpl; lia|].
  destruct (V1.is_stop (fst (V1.next_token s))) eqn:E; [simpl; lia|].
  apply v1_next_token_progress in E. specialize (IH (snd (V1.next_token s))).
  cbn [length]. lia.
Qed.

Lemma v1_all_tokens_not_stop (n : nat) :
  forall s : str, Forall (fun token => V1.is_stop token = false) (V1.all_tokens n s).
Proof.
  induction n as [|n IH]; intros s; cbn [V1.all_tokens]; [constructor|].
  destruct (V1.is_stop (fst (V1.next_token s))) eqn:E; constructor; auto.
Qed.

Lemma v1_main_loop_all_tokens (fuel : nat) (t : str) (depth : nat) :
  length t < fuel ->
  forall (n : nat) (s : str) (tokens : list Token),
    is_suffix s t -> length s < n ->
    exists l : Lexer,
      V1.main_loop fuel n (S (S depth)) (fst (V1.next_token s)) tokens
        (cursor t (snd (V1.next_token s)))
      = Ok (tokens ++ V1.all_tokens (length s) s, l).
Proof.
  intros Hf. induction n as [|n IH]; intros s tokens Hs Hn; [lia|].
  cbn [V1.main_loop].
  replace (negb (TokenType_eqb (getType (fst (V1.next_token s))) TEXT)
           || negb match getValue (fst (V1.next_token s)) with
                   | [] => true
                   | _ :: _ => false
                   end)
    with (negb (V1.is_stop (fst (V1.next_token s))))
    by (unfold V1.is_stop; apply negb_andb).
  destruct (V1.is_stop (fst (V1.next_token s))) eqn:E; cbn [negb].
  - exists (cursor t (snd (V1.next_token s))). unfold ret.
    destruct (length s); cbn [V1.all_tokens]; rewrite ?E; now rewrite app_nil_r.
  - pose proof (v1_next_token_progress s E) as Hp.
    assert (Hs' : is_suffix (snd (V1.next_token s)) t).
    { eapply is_suffix_trans; [apply v1_next_token_suffix|exact Hs]. }
    pose proof (is_suffix_length _ _ Hs') as Hl.
    erewrite run_bind by (apply v1_get_next_token_lex; [exact Hs'|lia]).
    destruct (IH (snd (V1.next_token s)) (tokens ++ [fst (V1.next_token s)]) Hs')
      as [l Hl']; [lia|].
    exists l. rewrite Hl'. f_equal. f_equal. rewrite <- app_assoc. f_equal.
    destruct (length s) as [|k] eqn:Ek; [lia|]. cbn [V1.all_tokens]. rewrite E.
    cbn [app]. f_equal. apply v1_all_tokens_bound; lia.
Qed.

Lemma v1_main_tokens_all (fuel depth : nat) (markdown : str) :
  length markdown < fuel ->
  V1.main_tokens fuel (S (S depth)) markdown
  = Ok (V1.all_tokens (length markdown) markdown).
Proof.
  intros Hf. unfold V1.main_tokens. rewrite Lexer_new_cursor.
  erewrite run_bind
    by (apply v1_get_next_token_lex; [apply is_suffix_refl|exact Hf]).
  destruct (v1_main_loop_all_tokens fuel markdown depth Hf fuel markdown []
              (is_suffix_refl _) Hf) as [l ->].
  reflexivity.
Qed.

(** X24. The token loop of the first [main] ends on every input: it
    prints at most as many tokens as the input has characters, none of them
    the empty Text token that stops it. *)
Theorem v1_main_loop_ends (fuel depth : nat) (markdown : str) :
  length markdown < fuel -> 2 <= depth ->
  exists tokens : list Token,
    V1.main_tokens fuel depth markdown = Ok tokens
    /\ length tokens <= length markdown
    /\ Forall (fun token => V1.is_stop token = false) tokens.
Proof.
  intros Hf Hd. destruct depth as [|[|depth]]; try lia.
  exists (V1.all_tokens (length markdown) markdown). split; [|split].
  - now apply v1_main_tokens_all.
  - apply v1_all_tokens_length.
  - apply v1_all_tokens_not_stop.
Qed.

Lemma v1_main_loop_ends_witness :
  exists tokens : list Token,
    V1.main_tokens 20 2 (lit "## a" ++ [LF] ++ lit "**b** c") = Ok tokens
    /\ length tokens <= length (lit "## a" ++ [LF] ++ lit "**b** c")
    /\ Forall (fun token => V1.is_stop token = false) tokens.
Proof.
  apply (v1_main_loop_ends 20 2 (lit "## a" ++ [LF] ++ lit "**b** c"));
    vm_compute; lia.
Defined.

(** ** Headings of the first lexer *)

Lemma v1_scan_leading_space_stop (s original : str) :
  inline_space (head (snd (V1.scan_leading_space original s))) = false.
Proof.
  revert original. induction s as [|c s IH]; intros original;
    cbn [V1.scan_leading_space]; [reflexivity|].
  destruct (isspace c && neqb c LF) eqn:E; [apply IH|exact E].
Qed.

Lemma v1_scan_hashes_level (s original : str) (level : Z) :
  (level <= snd (fst (V1.scan_hashes original level s)))%Z
  /\ (snd (fst (V1.scan_hashes original level s)) = level ->
      snd (V1.scan_hashes original level s) = s).
Proof.
  revert original level. induction s as [|c s IH]; intros original level;
    cbn [V1.scan_hashes]; [cbn; split; [lia|reflexivity]|].
  destruct ((c =? "#") && (level <? 6)%Z); [|cbn; split; [lia|reflexivity]].
  destruct (IH (original ++ lit "#") (level + 1)%Z) as [H1 _].
  split; lia.
Qed.

Lemma v1_count_spaces_none (s : str) :
  inline_space (head s) = false -> V1.count_spaces 0 s = (0%Z, s).
Proof.
  destruct s as [|c s]; [reflexivity|]. cbn [head hd V1.count_spaces].
  unfold inline_space. now intros ->.
Qed.

Lemma v1_heading_token_not_H1 (original content : str) (level : Z) :
  level <> 1%Z -> getType (V1.heading_token original level content) <> H1.
Proof.
  intros H. unfold V1.heading_token.
  repeat match goal with
         | |- context [match ?x with _ => _ end] => destruct x
         end; cbn; congruence.
Qed.

Lemma v1_lex_heading_not_H1 (s : str) : getType (fst (V1.lex_heading s)) <> H1.
Proof.
  unfold V1.lex_heading.
  set (r1 := V1.scan_leading_space (lit "#") (tl s)).
  set (r2 := V1.scan_hashes (fst r1) 1 (snd r1)).
  destruct (fst (V1.count_spaces 0 (snd r2)) =? 0)%Z eqn:E; cbn [fst];
    [discriminate|].
  apply v1_heading_token_not_H1. intros H1.
  destruct (v1_scan_hashes_level (snd r1) (fst r1) 1) as [_ Hs].
  fold r2 in Hs. specialize (Hs H1).
  rewrite Hs, v1_count_spaces_none in E; [discriminate|].
  apply v1_scan_leading_space_stop.
Qed.

Lemma scan_italic_not_heading (s : str) :
  forall acc, getType (fst (scan_italic acc s)) = TEXT
              \/ getType (fst (scan_italic acc s)) = ITALIC.
Proof.
  induction s as [|c s IH]; intros acc; cbn [scan_italic]; [now left|].
  destruct (neqb c NUL && neqb c LF); [|now left].
  destruct (c =? "*"); [now right|apply IH].
Qed.

Lemma v1_lex_marker_not_H1 (s : str) : getType (fst (V1.lex_marker s)) <> H1.
Proof.
  unfold V1.lex_marker.
  destruct (head s =? "#"); [apply v1_lex_heading_not_H1|].
  destruct (head s =? "*").
  { unfold lex_emphasis. destruct (head (tl s) =? "*").
    - match goal with |- context [if ?b then _ else _] => destruct b end;
        discriminate.
    - destruct (scan_italic_not_heading (tl s) []) as [-> | ->]; discriminate. }
  destruct (head s =? "[").
  { unfold lex_link.
    repeat match goal with |- context [if ?b then _ else _] => destruct b end;
      discriminate. }
  destruct (head s =? "!").
  { unfold lex_image.
    repeat match goal with |- context [if ?b then _ else _] => destruct b end;
      discriminate. }
  unfold lex_list.
  match goal with |- context [if ?b then _ else _] => destruct b end; discriminate.
Qed.

Lemma v1_next_token_not_H1 (s : str) : getType (fst (V1.next_token s)) <> H1.
Proof.
  unfold V1.next_token.
  destruct (head s =? NUL); [discriminate|].
  destruct (is_markdown_char (head s)); [apply v1_lex_marker_not_H1|].
  destruct (V1.is_blank (fst (V1.scan_text [] s))); [|discriminate].
  destruct (neqb (head (snd (V1.scan_text [] s))) NUL);
    [apply v1_lex_marker_not_H1|discriminate].
Qed.

(** X25. The first lexer never returns a level-one heading.  Its
    [handle_heading] skips the blanks behind the first [#] before it counts
    the further [#], so when it has counted none the cursor is not on a
    blank, the count of blanks behind the marker is 0, and the line becomes
    Text. *)
Theorem v1_no_level_one_heading (fuel depth : nat) (t : str) (n : nat)
        (token : Token) (l : Lexer) :
  n <= length t -> length t - n < fuel -> 2 <= depth ->
  V1.get_next_token fuel depth (lexer_at t n) = Ok (token, l) ->
  getType token <> H1.
Proof.
  intros Hn Hf Hd H. rewrite lexer_at_cursor in H by assumption.
  assert (Hl : length (skipn n t) = length t - n) by apply length_skipn.
  destruct depth as [|[|depth]]; try lia.
  rewrite v1_get_next_token_lex in H by (try apply is_suffix_skipn; lia).
  injection H as <- _. apply v1_next_token_not_H1.
Qed.

Lemma v1_no_level_one_heading_witness :
  getType (Tok TEXT (lit "# Title")) <> H1.
Proof.
  apply (v1_no_level_one_heading 9 2 (lit "# Title") 0 (Tok TEXT (lit "# Title"))
           (lexer_at (lit "# Title") 7)); try reflexivity; vm_compute; lia.
Defined.

Lemma v1_get_next_token_at (fuel depth : nat) (pre consumed tail : str)
      (token : Token) :
  V1.next_token (consumed ++ tail) = (token, tail) ->
  length (consumed ++ tail) < fuel -> 2 <= depth ->
  V1.get_next_token fuel depth (lexer_at (pre ++ consumed ++ tail) (length pre))
  = Ok (token, lexer_at (pre ++ consumed ++ tail) (length pre + length consumed)).
Proof.
  intros Hn Hf Hd. destruct depth as [|[|depth]]; try lia.
  rewrite <- cursor_lexer_at.
  rewrite v1_get_next_token_lex by (try assumption; now exists pre).
  rewrite Hn. cbn [fst snd]. f_equal. f_equal.
  rewrite app_assoc, cursor_lexer_at. f_equal. apply length_app.
Qed.

Lemma v1_get_next_token_line (fuel depth : nat) (pre line tail : str)
      (token : Token) :
  V1.next_token (line ++ tail) = (token, drop_newline tail) ->
  length (line ++ tail) < fuel -> 2 <= depth ->
  V1.get_next_token fuel depth (lexer_at (pre ++ line ++ tail) (length pre))
  = Ok (token,
        lexer_at (pre ++ line ++ tail)
          (length pre + length line + (if head tail =? LF then 1 else 0))).
Proof.
  intros Hn Hf Hd. destruct depth as [|[|depth]]; try lia.
  rewrite <- cursor_lexer_at.
  rewrite v1_get_next_token_lex by (try assumption; now exists pre).
  rewrite Hn. cbn [fst snd]. f_equal. f_equal.
  unfold cursor, drop_newline. f_equal. rewrite !length_app.
  destruct (head tail =? LF) eqn:E.
  - destruct tail as [|c tail]; [discriminate|]. simpl. lia.
  - lia.
Qed.

Lemma v1_scan_leading_space_run (ws x original : str) :
  forallb inline_space ws = true -> inline_space (head x) = false ->
  V1.scan_leading_space original (ws ++ x) = (original ++ ws, x).
Proof.
  intros Hw Hx. revert original. induction ws as [|c ws IH]; intros original;
    cbn [app].
  - rewrite app_nil_r. destruct x as [|d x]; [reflexivity|].
    cbn [V1.scan_leading_space]. cbn [head hd] in Hx. unfold inline_space in Hx.
    now rewrite Hx.
  - cbn [forallb] in Hw. apply andb_true_iff in Hw. destruct Hw as [Hc Hw].
    cbn [V1.scan_leading_space]. unfold inline_space in Hc. rewrite Hc.
    rewrite IH by assumption. now rewrite <- app_assoc.
Qed.

Lemma v1_scan_hashes_run (j : nat) (x : str) :
  (head x =? "#") = false ->
  forall (original : str) (level : Z),
    (level + Z.of_nat j <= 6)%Z ->
    V1.scan_hashes original level (repeat "#" j ++ x)
    = ((original ++ repeat "#" j, (level + Z.of_nat j)%Z), x).
Proof.
  intros Hx. induction j as [|j IH]; intros original level Hl; cbn [repeat app].
  - rewrite app_nil_r, Z.add_0_r. destruct x as [|d x]; [reflexivity|].
    cbn [V1.scan_hashes]. cbn [head hd] in Hx. now rewrite Hx.
  - cbn [V1.scan_hashes]. change ("#" =? "#") with true.
    destruct (Z.ltb_spec level 6) as [_|H]; [|lia]. cbn [andb].
    rewrite IH by lia. rewrite <- app_assoc. cbn [lit list_ascii_of_string app].
    do 2 f_equal. lia.
Qed.

Lemma v1_count_spaces_run (ws x : str) :
  forallb inline_space ws = true -> inline_space (head x) = false ->
  forall spaces : Z,
    V1.count_spaces spaces (ws ++ x) = ((spaces + Z.of_nat (length ws))%Z, x).
Proof.
  intros Hw Hx. induction ws as [|c ws IH]; intros spaces; cbn [app length].
  - rewrite Z.add_0_r. destruct x as [|d x]; [reflexivity|].
    cbn [V1.count_spaces]. cbn [head hd] in Hx. unfold inline_space in Hx.
    now rewrite Hx.
  - cbn [forallb] in Hw. apply andb_true_iff in Hw. destruct Hw as [Hc Hw].
    cbn [V1.count_spaces]. unfold inline_space in Hc. rewrite Hc.
    rewrite IH by assumption. f_equal. lia.
Qed.

Lemma v1_next_token_hash (s : str) :
  V1.next_token ("#" :: s) = V1.lex_heading ("#" :: s).
Proof. reflexivity. Qed.

Lemma v1_next_token_single_hash (ws content tail : str) :
  forallb inline_space ws = true -> free_of LF content = true ->
  inline_space (head (content ++ tail)) = false ->
  (head (content ++ tail) =? "#") = false ->
  stops_at LF tail = true ->
  V1.next_token ("#" :: ws ++ content ++ tail)
  = (Tok TEXT ("#" :: ws ++ content), drop_newline tail).
Proof.
  intros Hw Hc Hi Hh Ht. rewrite v1_next_token_hash. unfold V1.lex_heading.
  cbn [tl]. rewrite v1_scan_leading_space_run by assumption. cbn [fst snd].
  pose proof (v1_scan_hashes_run 0 (content ++ tail) Hh (lit "#" ++ ws) 1) as Hs.
  cbn [repeat app] in Hs. rewrite Hs by lia. cbn [fst snd].
  rewrite v1_count_spaces_none by assumption. cbn [fst snd].
  change (0 =? 0)%Z with true. cbv iota.
  rewrite scan_until_free by assumption. cbn [fst snd].
  rewrite app_nil_r, <- app_assoc. reflexivity.
Qed.

(** X26. In the first lexer a line with a single [#] is Text, with or
    without blanks behind the [#]: the line [#], a run of blanks that may be
    empty, and a text that starts with neither a blank nor [#] gives a Text
    token that holds the whole line, and the line break is passed. *)
Theorem v1_single_hash_line_is_text (pre ws content tail : str) :
  forallb inline_space ws = true -> free_of LF content = true ->
  inline_space (head (content ++ tail)) = false ->
  (head (content ++ tail) =? "#") = false ->
  stops_at LF tail = true ->
  let line := "#" :: ws ++ content in
  forall fuel depth : nat, length (line ++ tail) < fuel -> 2 <= depth ->
    V1.get_next_token fuel depth (lexer_at (pre ++ line ++ tail) (length pre))
    = Ok (Tok TEXT line,
          lexer_at (pre ++ line ++ tail)
            (length pre + length line + (if head tail =? LF then 1 else 0))).
Proof.
  intros Hw Hc Hi Hh Ht line fuel depth Hf Hd.
  apply v1_get_next_token_line; [|exact Hf|exact Hd].
  subst line. cbn [app]. rewrite <- app_assoc.
  now apply v1_next_token_single_hash.
Qed.

Lemma v1_single_hash_line_is_text_witness :
  V1.get_next_token 20 2
    (lexer_at (lit "# Valid heading 1" ++ [LF] ++ lit "x") 0)
  = Ok (Tok TEXT (lit "# Valid heading 1"),
        lexer_at (lit "# Valid heading 1" ++ [LF] ++ lit "x") 18).
Proof.
  apply (v1_single_hash_line_is_text [] (lit " ") (lit "Valid heading 1")
           ([LF] ++ lit "x") eq_refl eq_refl eq_refl eq_refl eq_refl 20 2);
    vm_compute; lia.
Defined.

Lemma v1_heading_token_type (k : nat) (original content : str) :
  1 <= k <= 6 ->
  V1.heading_token original (Z.of_nat k) content = Tok (heading_type k) content.
Proof.
  intros H. assert (C : k = 1 \/ k = 2 \/ k = 3 \/ k = 4 \/ k = 5 \/ k = 6) by lia.
  destruct C as [-> | [-> | [-> | [-> | [-> | ->]]]]]; reflexivity.
Qed.

Lemma inline_space_not_hash (c : ascii) :
  inline_space c = true -> (c =? "#") = false.
Proof.
  intros H. destruct (c =? "#") eqn:E; [|reflexivity].
  apply Ascii.eqb_eq in E. subst c. discriminate.
Qed.

Lemma v1_next_token_heading (k : nat) (ws1 ws content tail : str) :
  2 <= k <= 6 ->
  forallb inline_space ws1 = true ->
  ws <> [] -> forallb inline_space ws = true ->
  free_of LF content = true ->
  inline_space (head (content ++ tail)) = false ->
  stops_at LF tail = true ->
  V1.next_token ("#" :: ws1 ++ repeat "#" (k - 1) ++ ws ++ content ++ tail)
  = (Tok (heading_type k) content, drop_newline tail).
Proof.
  intros Hk Hw1 Hne Hw Hc Hi Ht. rewrite v1_next_token_hash.
  unfold V1.lex_heading. cbn [tl].
  destruct ws as [|w ws]; [contradiction|].
  cbn [forallb] in Hw. apply andb_true_iff in Hw. destruct Hw as [Hw0 Hw].
  destruct (k - 1) as [|j] eqn:Ej; [lia|].
  rewrite v1_scan_leading_space_run by (try assumption; reflexivity).
  cbn [fst snd].
  rewrite v1_scan_hashes_run
    by (try lia; cbn [app head hd]; now apply inline_space_not_hash).
  cbn [fst snd].
  rewrite v1_count_spaces_run
    by (try assumption; cbn [forallb]; now rewrite Hw0, Hw).
  cbn [fst snd].
  destruct (Z.eqb_spec (0 + Z.of_nat (length (w :: ws))) 0) as [H0|_];
    [cbn [length] in H0; lia|].
  rewrite scan_until_free by assumption. cbn [fst snd].
  replace (1 + Z.of_nat (S j))%Z with (Z.of_nat k) by lia.
  rewrite v1_heading_token_type by lia. reflexivity.
Qed.

(** X27. The heading lines of the first lexer: [#], a run of blanks that
    may be empty, one to five further [#], at least one blank, and the
    heading text up to the end of the line.  The token is the heading of
    the level that counts every [#], with the text as payload; the blanks
    between the first [#] and the others do not count. *)
Theorem v1_heading_line_token (k : nat) (pre ws1 ws content tail : str) :
  2 <= k <= 6 ->
  forallb inline_space ws1 = true ->
  ws <> [] -> forallb inline_space ws = true ->
  free_of LF content = true ->
  inline_space (head (content ++ tail)) = false ->
  stops_at LF tail = true ->
  let line := "#" :: ws1 ++ repeat "#" (k - 1) ++ ws ++ content in
  forall fuel depth : nat, length (line ++ tail) < fuel -> 2 <= depth ->
    V1.get_next_token fuel depth (lexer_at (pre ++ line ++ tail) (length pre))
    = Ok (Tok (heading_type k) content,
          lexer_at (pre ++ line ++ tail)
            (length pre + length line + (if head tail =? LF then 1 else 0))).
Proof.
  intros Hk Hw1 Hne Hw Hc Hi Ht line fuel depth Hf Hd.
  apply v1_get_next_token_line; [|exact Hf|exact Hd].
  subst line. cbn [app]. rewrite <- !app_assoc.
  now apply v1_next_token_heading.
Qed.

Lemma v1_heading_line_token_witness :
  V1.get_next_token 13 2
    (lexer_at (lit "a" ++ [LF] ++ lit "# ## Title" ++ [LF] ++ lit "x") 2)
  = Ok (Tok H3 (lit "Title"),
        lexer_at (lit "a" ++ [LF] ++ lit "# ## Title" ++ [LF] ++ lit "x") 13).
Proof.
  apply (v1_heading_line_token 3 (lit "a" ++ [LF]) (lit " ") (lit " ")
           (lit "Title") ([LF] ++ lit "x"));
    try reflexivity; try discriminate; vm_compute; lia.
Defined.

(** ** Text runs of the first lexer *)

Lemma v1_scan_text_run (r tail : str) :
  forallb plain_char r = true -> plain_char (head tail) = false ->
  forall text_content : str,
    V1.scan_text text_content (r ++ tail)
    = (text_content ++ filter (fun c => neqb c LF) r, tail).
Proof.
  intros Hr Ht. induction r as [|c r IH]; intros text_content; cbn [app filter].
  - rewrite app_nil_r. destruct tail as [|d tail]; [reflexivity|].
    cbn [V1.scan_text]. cbn [head hd] in Ht. unfold plain_char in Ht.
    now rewrite Ht.
  - cbn [forallb] in Hr. apply andb_true_iff in Hr. destruct Hr as [Hc Hr].
    cbn [V1.scan_text]. unfold plain_char in Hc. rewrite Hc.
    assert (En : neqb c LF = negb (c =? LF)) by reflexivity. rewrite En.
    destruct (c =? LF); cbn [negb]; rewrite IH by assumption;
      [reflexivity|]. now rewrite <- app_assoc.
Qed.

Lemma v1_next_token_at_stop (tail : str) :
  plain_char (head tail) = false ->
  V1.next_token tail
  = if neqb (head tail) NUL then V1.lex_marker tail else (Tok TEXT [], tail).
Proof.
  unfold plain_char, V1.next_token, neqb. intros H.
  destruct (head tail =? NUL); [reflexivity|]. cbn [negb andb] in H |- *.
  apply negb_false_iff in H. now rewrite H.
Qed.

Lemma v1_next_token_text_run (r tail : str) :
  forallb plain_char r = true -> plain_char (head tail) = false ->
  V1.next_token (r ++ tail)
  = if V1.is_blank (filter (fun c => neqb c LF) r) then V1.next_token tail
    else (Tok TEXT (filter (fun c => neqb c LF) r), tail).
Proof.
  intros Hr Ht. destruct r as [|c r].
  { cbn [app filter]. reflexivity. }
  pose proof (v1_scan_text_run (c :: r) tail Hr Ht []) as Hs. cbn [app] in Hs.
  cbn [forallb] in Hr. apply andb_true_iff in Hr. destruct Hr as [Hc _].
  unfold plain_char in Hc. apply andb_true_iff in Hc. destruct Hc as [H0 Hm].
  unfold V1.next_token at 1. cbn [app head hd]. unfold neqb in H0.
  apply negb_true_iff in H0. apply negb_true_iff in Hm. rewrite H0, Hm.
  cbn [app] in *. rewrite Hs. cbn [fst snd].
  destruct (V1.is_blank (filter (fun c0 => neqb c0 LF) (c :: r))); [|reflexivity].
  now rewrite v1_next_token_at_stop.
Qed.

(** X28. A text run of the first lexer: characters that are neither NUL
    nor a marker, up to a marker or the end of input.  Its line breaks are
    dropped, so the lines are joined without a blank between them.  When
    anything but blanks is left the run is a Text token; when only blanks
    are left the run is skipped, and the call gives what a call at the end
    of the run gives. *)
Theorem v1_text_run_joins_lines (pre r tail : str) :
  forallb plain_char r = true -> plain_char (head tail) = false ->
  let value := filter (fun c => neqb c LF) r in
  forall fuel depth : nat, length (r ++ tail) < fuel -> 2 <= depth ->
    V1.get_next_token fuel depth (lexer_at (pre ++ r ++ tail) (length pre))
    = if V1.is_blank value
      then V1.get_next_token fuel depth
             (lexer_at (pre ++ r ++ tail) (length pre + length r))
      else Ok (Tok TEXT value,
               lexer_at (pre ++ r ++ tail) (length pre + length r)).
Proof.
  intros Hr Ht value fuel depth Hf Hd.
  pose proof (v1_next_token_text_run r tail Hr Ht) as Hn. fold value in Hn.
  destruct (V1.is_blank value).
  - destruct depth as [|[|depth]]; try lia.
    rewrite <- cursor_lexer_at.
    rewrite v1_get_next_token_lex by (try assumption; now exists pre).
    rewrite Hn. rewrite <- length_app, app_assoc, <- cursor_lexer_at.
    rewrite v1_get_next_token_lex; [reflexivity|now exists (pre ++ r)|].
    rewrite length_app in Hf. lia.
  - now apply v1_get_next_token_at.
Qed.

Lemma v1_text_run_joins_lines_witness :
  V1.get_next_token 11 2
    (lexer_at (lit "one" ++ [LF] ++ lit "two" ++ lit "*x*") 0)
  = Ok (Tok TEXT (lit "onetwo"),
        lexer_at (lit "one" ++ [LF] ++ lit "two" ++ lit "*x*") 7).
Proof.
  apply (v1_text_run_joins_lines [] (lit "one" ++ [LF] ++ lit "two") (lit "*x*")
           eq_refl eq_refl 11 2); vm_compute; lia.
Defined.

(** ** The first lexer at the markers it shares with the second *)

Lemma v1_next_token_marker (s : str) :
  is_markdown_char (head s) = true -> (head s =? "#") = false ->
  V1.next_token s = next_token s.
Proof.
  intros Hm Hh. destruct (marker_not_NUL_LF s Hm) as [H0 Hl].
  unfold neqb in H0, Hl. apply negb_true_iff in H0. apply negb_true_iff in Hl.
  unfold V1.next_token, next_token. rewrite H0, Hm.
  rewrite v1_lex_marker_dispatch by assumption.
  destruct s as [|c s]; [discriminate|]. cbn [head hd] in Hl.
  cbn [scan_newlines]. now rewrite Hl.
Qed.

(** ** The first interpreter *)

Lemma v1_substr_after_bar (a b : str) :
  (Z.of_nat (length (a ++ "|" :: b)) < size_max)%Z ->
  substr (a ++ "|" :: b) (size_add (Z.of_nat (length a)) 1)
    (Z.of_nat (length (a ++ "|" :: b)))
  = Ok b.
Proof.
  intros Hlen. rewrite length_app in *. cbn [length] in *.
  unfold size_add. rewrite Z.mod_small by lia.
  unfold substr. rewrite length_app. cbn [length].
  destruct (Z.ltb_spec (Z.of_nat (length a + S (length b)))
              (Z.of_nat (length a) + 1)) as [H|H]; [lia|].
  rewrite Z.min_r by lia.
  replace (Z.to_nat (Z.of_nat (length a) + 1)) with (length a + 1) by lia.
  replace (Z.to_nat (Z.of_nat (length a + S (length b)) - (Z.of_nat (length a) + 1)))
    with (length b) by lia.
  rewrite skipn_app. rewrite skipn_all2 by lia.
  replace (length a + 1 - length a) with 1 by lia. cbn [skipn app].
  now rewrite firstn_all.
Qed.

Lemma v1_Interpreter_parse_link (text url : str) :
  has_bar text = false ->
  (Z.of_nat (length (text ++ lit "|" ++ url)) < size_max)%Z ->
  V1.Interpreter_parse (Tok LINK (text ++ lit "|" ++ url))
  = Ok (lit "<a href=" ++ [DQUOTE] ++ url ++ [DQUOTE] ++ lit ">" ++ text
        ++ lit "</a>").
Proof.
  intros Hb Hlen. unfold V1.Interpreter_parse. cbn [Tok getType getValue].
  cbn [lit list_ascii_of_string app] in *. unfold find.
  rewrite find_from_first_bar by assumption. cbn [Z.add].
  rewrite substr_before_bar, v1_substr_after_bar by assumption. reflexivity.
Qed.

(** X30. The first interpreter renders the first token of the input and
    writes payloads as they are, with no escaping.  For an input that
    begins with a link [[t](u)] (the size within [size_t], no [|] in the
    text) the result is [<a href="u">t</a>] with [t] and [u] verbatim,
    whatever characters they hold. *)
Theorem v1_link_rendered_verbatim (fuel depth : nat) (t u tail : str) :
  link_text_ok 0 t = true -> free_of ")" u = true ->
  has_bar (unescape_brackets t) = false ->
  (Z.of_nat (length (unescape_brackets t ++ lit "|" ++ u)) < size_max)%Z ->
  length (lit "[" ++ t ++ lit "](" ++ u ++ lit ")" ++ tail) < fuel ->
  2 <= depth ->
  V1.Interpreter_run depth fuel (lit "[" ++ t ++ lit "](" ++ u ++ lit ")" ++ tail)
  = Ok (lit "<a href=" ++ [DQUOTE] ++ u ++ [DQUOTE] ++ lit ">"
        ++ unescape_brackets t ++ lit "</a>").
Proof.
  intros Ht Hu Hb Hlen Hf Hd. unfold V1.Interpreter_run.
  destruct depth as [|[|depth]]; try lia.
  rewrite Lexer_new_cursor.
  rewrite v1_get_next_token_lex by (try assumption; apply is_suffix_refl).
  rewrite v1_next_token_marker by reflexivity.
  rewrite next_token_link by assumption. cbn [fst].
  now apply v1_Interpreter_parse_link.
Qed.

Lemma v1_link_rendered_verbatim_witness :
  V1.Interpreter_run 2 40 (lit "[<b>](x" ++ [DQUOTE] ++ lit "y) rest")
  = Ok (lit "<a href=" ++ [DQUOTE] ++ lit "x" ++ [DQUOTE] ++ lit "y" ++ [DQUOTE]
        ++ lit "><b></a>").
Proof.
  apply (v1_link_rendered_verbatim 40 2 (lit "<b>") (lit "x" ++ [DQUOTE] ++ lit "y")
           (lit " rest")); try reflexivity; vm_compute; lia.
Defined.
